(** * gazelle_cc: preprocessor-fragment parser, platform table,
      platform-condition solver and source grouper

    A shallow embedding of
    - [language/internal/cc/platform]  (platform catalogue, [Parse] and the
      macro table),
    - [language/internal/cc/parser]    (tokenizer, token reader, expression
      parser, directive parser [parse], the earlier [extractSourceInfo], and
      [ParseMacros]),
    - [language/internal/cc/expr_eval.go] (DNF based condition solver),
    - [language/cc/config.go] (the directives of a BUILD file),
    - the source grouper of [language/cc], modelled from its specification,
    followed by the properties established about them. Go panics and
    returned errors are explicit outcomes. The input reaches the tokenizer
    through a [bufio.Scanner], one buffer at a time, and the parser works
    on the tokens the scanner delivers. Loops that are not structural take
    fuel; [scanInput_total] and [ParseSource_not_starved] show it is never
    exhausted. *)

From Stdlib Require Import ZArith List String Ascii Bool Lia OrderedTypeEx.
From stdpp Require Import base decidable countable strings list gmap sorting.

Local Open Scope string_scope.
Local Open Scope Z_scope.

(** ** Outcomes of Go functions

    [Ok] is a normal return, [Err] a returned non-nil [error] and [Panic] a
    run-time panic ([panic], [log.Panicf]) unwinding the whole call. *)
Inductive Res (A : Type) : Type :=
  | Ok (a : A)
  | Err (msg : string)
  | Panic (msg : string).
Arguments Ok {A} a.
Arguments Err {A} msg.
Arguments Panic {A} msg.

Definition bind {A B : Type} (r : Res A) (f : A -> Res B) : Res B :=
  match r with
  | Ok a => f a
  | Err m => Err m
  | Panic m => Panic m
  end.

Notation "'let!' x ':=' c 'in' k" := (bind c (fun x => k))
  (at level 10, x pattern, c at level 100, k at level 200).

Definition isOk {A} (r : Res A) : bool :=
  match r with Ok _ => true | _ => false end.
Definition isPanic {A} (r : Res A) : bool :=
  match r with Panic _ => true | _ => false end.

(** ** package platform *)
Module platform.

Record Platform : Type := mkPlatform { OS : string; Arch : string }.

#[global] Instance Platform_eq_dec : EqDecision Platform.
Proof. solve_decision. Defined.

#[global] Instance Platform_countable : Countable Platform :=
  inj_countable' (fun p => (OS p, Arch p)) (fun q => mkPlatform q.1 q.2)
                 (fun p => match p with mkPlatform _ _ => eq_refl end).

(** [cmp.Compare] on Go strings: byte-wise lexicographic order, returned
    as -1, 0 or +1. *)
Definition cmp_Compare (a b : string) : Z :=
  match String.compare a b with
  | Lt => -1
  | Eq => 0
  | Gt => 1
  end.

(** Orders first by OS, then by Arch based on the string ordering. *)
Definition ComparePlatform (a b : Platform) : Z :=
  let d := cmp_Compare (OS a) (OS b) in
  if negb (d =? 0) then d else cmp_Compare (Arch a) (Arch b).

(** [type Macros map[string]int]; the macro table is
    [map[Platform]Macros]. *)
Abbreviation Macros := (gmap string Z).
Abbreviation PlatformMacros := (gmap Platform (gmap string Z)).

(** *** The catalogue of operating systems and architectures *)
Definition android := "android".
Definition chromiumos := "chromiumos".
Definition emscripten := "emscripten".
Definition freebsd := "freebsd".
Definition fuchsia := "fuchsia".
Definition haiku := "haiku".
Definition ios := "ios".
Definition linux := "linux".
Definition netbsd := "netbsd".
Definition nixos := "nixos".
Definition none := "none".
Definition openbsd := "openbsd".
Definition osx := "osx".
Definition qnx := "qnx".
Definition tvos := "tvos".
Definition uefi := "uefi".
Definition visionos := "visionos".
Definition vxworks := "vxworks".
Definition wasi := "wasi".
Definition watchos := "watchos".
Definition windows := "windows".

Definition allKnownOs : list string :=
  [android; chromiumos; emscripten; freebsd; fuchsia; haiku; ios;
   linux; netbsd; nixos; none; openbsd; osx; qnx; tvos;
   uefi; visionos; vxworks; wasi; watchos; windows].

Definition aarch32 := "aarch32".
Definition aarch64 := "aarch64".
Definition arm64_32 := "arm64_32".
Definition arm64e := "arm64e".
Definition armv6m := "armv6-m".
Definition armv7 := "armv7".
Definition armv7em := "armv7e-m".
Definition armv7emf := "armv7e-mf".
Definition armv7k := "armv7k".
Definition armv7m := "armv7-m".
Definition armv8m := "armv8-m".
Definition cortexr52 := "cortex-r52".
Definition cortexr82 := "cortex-r82".
Definition i386 := "i386".
Definition mips64 := "mips64".
Definition ppc := "ppc".
Definition ppc32 := "ppc32".
Definition ppc64le := "ppc64le".
Definition riscv32 := "riscv32".
Definition riscv64 := "riscv64".
Definition s390x := "s390x".
Definition wasm32 := "wasm32".
Definition wasm64 := "wasm64".
Definition x86_32 := "x86_32".
Definition x86_64 := "x86_64".

Definition allKnownArch : list string :=
  [aarch32; aarch64; arm64_32; arm64e; armv6m; armv7; armv7em; armv7emf;
   armv7k; armv7m; armv8m; cortexr52; cortexr82; i386; mips64; ppc;
   ppc32; ppc64le; riscv32; riscv64; s390x; wasm32; wasm64; x86_32; x86_64].

(** *** Building the macro table *)

(** [addMacroValue] adds a single macro to every platform in the list,
    creating the platform's map on first use. *)
Definition addMacroValue (name : string) (value : Z) (platforms : list Platform)
    (known : PlatformMacros) : PlatformMacros :=
  foldl (fun known p => <[p := <[name := value]> (default ∅ (known !! p))]> known)
        known platforms.

(** [#define NAME] is assumed equal to [#define NAME 1]. *)
Definition addMacro (name : string) (platforms : list Platform)
    (known : PlatformMacros) : PlatformMacros :=
  addMacroValue name 1 platforms known.

Definition addMacros (macro : list string) (platforms : list Platform)
    (known : PlatformMacros) : PlatformMacros :=
  foldl (fun known name => addMacro name platforms known) known macro.

Definition platformsMatrix (os : list string) (arch : list string) : list Platform :=
  flat_map (fun o => map (fun a => mkPlatform o a) arch) os.

Definition osArchPlatform (os arch : string) : list Platform :=
  [mkPlatform os arch].
Definition osArchPlatforms (os : string) (arch : list string) : list Platform :=
  (platformsMatrix [os] arch ++ [mkPlatform os ""])%list.
Definition archOsPlatforms (arch : string) (os : list string) : list Platform :=
  (platformsMatrix os [arch] ++ [mkPlatform "" arch])%list.

(** The statements of [init], in source order; each one is an [addMacros]
    call ([addMacro name ps] is [addMacros [name] ps]). *)
Definition init_steps : list (list string * list Platform) :=
  let windowsArchs := [i386; x86_32; x86_64; aarch32; aarch64] in
  let linuxArchs := allKnownArch in
  let androidArchs := [aarch32; aarch64; x86_32; x86_64; riscv64] in
  let chromeArchs := [x86_64; aarch64; riscv64] in
  let unixOS := [linux; android; chromiumos; nixos; freebsd; netbsd; openbsd; haiku; qnx] in
  let wasmArchs := [wasm32; wasm64] in
  let bsdArchs := [i386; x86_64; aarch64; riscv64; ppc64le] in
  let qnxArchs := [aarch32; aarch64; ppc32; ppc64le; x86_32; x86_64] in
  let haikuArchs := [x86_32; x86_64] in
  let fuchsiaArchs := [aarch64; x86_64] in
  let vxworksArchs := [aarch32; aarch64; ppc32; ppc64le; x86_32; x86_64] in
  let uefiArchs := [aarch32; aarch64; x86_32; x86_64; riscv64] in
  let macArchs := [x86_64; aarch64; arm64e] in
  let iosArchs := [aarch64; arm64e] in
  let tvosArchs := [aarch64] in
  let watchArchs := [armv7k; arm64_32] in
  let visionArchs := [aarch64] in
  let applePlatforms :=
    (osArchPlatforms osx macArchs ++ osArchPlatforms ios iosArchs
     ++ osArchPlatforms tvos tvosArchs ++ osArchPlatforms watchos watchArchs
     ++ osArchPlatforms visionos visionArchs)%list in
  let powerPCOS := [linux; freebsd; netbsd; openbsd; qnx; vxworks] in
  let mipsOS := [linux; netbsd; openbsd; qnx; vxworks] in
  let riscvOS := [linux; freebsd; netbsd; openbsd; qnx; vxworks; android;
                  chromiumos; fuchsia; nixos] in
  [ (* Windows *)
    (["_WIN32"], osArchPlatforms windows windowsArchs);
    (["_WIN64"], osArchPlatforms windows [x86_64; aarch64]);
    (["__MINGW32__"], osArchPlatform windows i386);
    (["__MINGW64__"], osArchPlatform windows x86_64);
    (["_M_IX86"], osArchPlatform windows i386);
    (["_M_X64"], osArchPlatform windows x86_64);
    (["_M_ARM"], osArchPlatform windows aarch32);
    (["_M_ARM64"], osArchPlatform windows aarch64);
    (* Linux / Android family *)
    (["linux"; "__linux__"; "__linux"; "__gnu_linux__"],
     osArchPlatforms linux linuxArchs);
    (["__NIX__"], osArchPlatforms nixos linuxArchs);
    (["__NIXOS__"], osArchPlatforms nixos linuxArchs);
    (["__ANDROID__"], osArchPlatforms android androidArchs);
    (["__CHROMEOS__"], osArchPlatforms chromiumos chromeArchs);
    (["unix"; "__unix"; "__unix__"], platformsMatrix unixOS allKnownArch);
    (* WebAssembly *)
    (["__EMSCRIPTEN__"], platformsMatrix [emscripten] wasmArchs);
    (["__wasi__"], platformsMatrix [wasi] wasmArchs);
    (["__wasm__"], platformsMatrix [emscripten; wasi] wasmArchs);
    (["__wasm32__"], platformsMatrix [emscripten; wasi] [wasm32]);
    (["__wasm64__"], platformsMatrix [emscripten; wasi] [wasm64]);
    (* BSD family *)
    (["__FreeBSD__"], platformsMatrix [freebsd] bsdArchs);
    (["__NetBSD__"], platformsMatrix [netbsd] bsdArchs);
    (["__OpenBSD__"], platformsMatrix [openbsd] bsdArchs);
    (* QNX, Haiku, Fuchsia, VxWorks, UEFI *)
    (["__QNX__"], osArchPlatforms qnx qnxArchs);
    (["__QNXNTO__"], osArchPlatforms qnx qnxArchs);
    (["__HAIKU__"], osArchPlatforms haiku haikuArchs);
    (["__FUCHSIA__"], osArchPlatforms fuchsia fuchsiaArchs);
    (["__Fuchsia__"], osArchPlatforms fuchsia fuchsiaArchs);
    (["__VXWORKS__"], osArchPlatforms vxworks vxworksArchs);
    (["__vxworks"], osArchPlatforms vxworks vxworksArchs);
    (["__UEFI__"], osArchPlatforms uefi uefiArchs);
    (["__EFI__"], osArchPlatforms uefi uefiArchs);
    (* Apple family *)
    (["__APPLE__"], applePlatforms);
    (["__MACH__"], applePlatforms);
    (["TARGET_OS_OSX"], osArchPlatforms osx macArchs);
    (["TARGET_OS_MAC"], osArchPlatforms osx macArchs);
    (["TARGET_OS_IPHONE"], osArchPlatforms ios iosArchs);
    (["TARGET_OS_IOS"], osArchPlatforms ios iosArchs);
    (["TARGET_OS_TV"], osArchPlatforms tvos tvosArchs);
    (["TARGET_OS_WATCH"], osArchPlatforms watchos watchArchs);
    (["TARGET_OS_VISION"], osArchPlatforms visionos visionArchs);
    (* Generic CPU-only macros *)
    (["__x86_64__"; "__x86_64"; "__amd64"; "__amd64__"],
     archOsPlatforms aarch64 allKnownOs);
    (["__i386__"; "__i386"], archOsPlatforms i386 allKnownOs);
    (["__arm__"; "__arm"; "__thumb__"; "__thumb"],
     archOsPlatforms aarch32 allKnownOs);
    (["__aarch64__"; "__arm64"; "__arm64__"],
     archOsPlatforms aarch64 allKnownOs);
    (["__ARM64_32__"; "__ARM64_32"], osArchPlatform watchos arm64_32);
    (["__arm64e__"; "__arm64e"], archOsPlatforms arm64e [osx; ios]);
    (* Fine-grained Arm (mostly bare-metal) *)
    (["__ARM_ARCH_6M__"], osArchPlatform none armv6m);
    (["__ARM_ARCH_7__"], osArchPlatform none armv7);
    (["__ARM_ARCH_7A__"], osArchPlatform none armv7);
    (["__ARM_ARCH_7M__"], osArchPlatform none armv7m);
    (["__ARM_ARCH_7EM__"], osArchPlatform none armv7em);
    (["__ARM_ARCH_8M_BASE__"], osArchPlatform none armv8m);
    (["__ARM_ARCH_8M_MAIN__"], osArchPlatform none armv8m);
    (* PowerPC *)
    (["__powerpc__"], archOsPlatforms ppc32 powerPCOS);
    (["__PPC__"], archOsPlatforms ppc32 powerPCOS);
    (["__powerpc64__"], archOsPlatforms ppc64le powerPCOS);
    (["__ppc64__"], archOsPlatforms ppc64le powerPCOS);
    (* MIPS *)
    (["__mips64"], archOsPlatforms mips64 mipsOS);
    (* s390 *)
    (["__s390x__"], osArchPlatform linux s390x);
    (["__s390__"], osArchPlatform linux s390x);
    (* RISC-V *)
    (["__riscv"], archOsPlatforms riscv64 riscvOS) ].

(** [init] runs the statements above on the empty table. *)
Definition init (known : PlatformMacros) : PlatformMacros :=
  foldl (fun known step => addMacros step.1 step.2 known) known init_steps.

(** Dictionary of well known macro definitions, after initialization. *)
Definition KnownPlatformMacros : PlatformMacros := init ∅.

(** [macros[name]] is present. *)
Definition hasMacro (known : PlatformMacros) (p : Platform) (name : string) : bool :=
  match known !! p with
  | Some macros => bool_decide (is_Some (macros !! name))
  | None => false
  end.

(** *** Printing and parsing platforms *)

(** [Platform.String]: [fmt.Sprintf("%s/%s", p.OS, p.Arch)]. *)
Definition Platform_String (p : Platform) : string := OS p ++ "/" ++ Arch p.

Definition osAlias : gmap string string := <["macos" := osx]> ∅.
Definition archAlias : gmap string string :=
  <["arm" := aarch32]> (<["arm64" := aarch64]> (<["amd64" := x86_64]> ∅)).

Definition dealias (value : string) (aliases : gmap string string) : string :=
  match aliases !! value with
  | Some dealiased => dealiased
  | None => value
  end.

(** [strings.FieldsFunc(s, f)] for a predicate on single bytes: the maximal
    runs of bytes that do not satisfy [f]; empty fields are dropped. *)
Fixpoint FieldsFunc (f : ascii -> bool) (s : string) : list string :=
  match s with
  | EmptyString => []
  | String c rest =>
      if f c then FieldsFunc f rest
      else
        match rest with
        | EmptyString => [String c EmptyString]
        | String c' _ =>
            if f c' then String c EmptyString :: FieldsFunc f rest
            else match FieldsFunc f rest with
                 | w :: ws => String c w :: ws
                 | [] => [String c EmptyString]
                 end
        end
  end.

(** [slices.Contains] *)
Definition Contains (l : list string) (x : string) : bool :=
  existsb (String.eqb x) l.

(** The three errors of [Parse], with the value each message prints. *)
Inductive ParseError : Type :=
  | MalformedPlatform (value : string)
  | UnknownOS (os : string)
  | UnknownArch (arch : string).

(** Parses a string into a [Platform]; the platform is returned next to
    the error, as in the source. *)
Definition Parse (value : string) : Platform * option ParseError :=
  match FieldsFunc (fun r => (r =? "/")%char) value with
  | [f0; f1] =>
      let platform := mkPlatform (dealias f0 osAlias) (dealias f1 archAlias) in
      if negb (Contains allKnownOs (OS platform))
      then (platform, Some (UnknownOS (OS platform)))
      else if negb (Contains allKnownArch (Arch platform))
      then (platform, Some (UnknownArch (Arch platform)))
      else (platform, None)
  | _ => (mkPlatform "" "", Some (MalformedPlatform value))
  end.

End platform.
Export platform.

(** ** package parser: the expression AST (expr.go) *)
Module ast.

(** [Value] is either a macro identifier or an integer literal. *)
Inductive Value : Type :=
  | Ident (name : string)
  | Constant (v : Z).

Record Compare : Type :=
  mkCompare { Left : Value; Op : string; Right : Value }.

(** The [Expr] interface is implemented by exactly these five structs;
    trees have value semantics. *)
Inductive Expr : Type :=
  | Defined (Name : string)
  | Not (X : Expr)
  | And (L R : Expr)
  | Or (L R : Expr)
  | Cmp (c : Compare).

#[global] Instance Value_eq_dec : EqDecision Value.
Proof. solve_decision. Defined.
#[global] Instance Compare_eq_dec : EqDecision Compare.
Proof. solve_decision. Defined.
#[global] Instance Expr_eq_dec : EqDecision Expr.
Proof. solve_decision. Defined.

(** [Resolve]: the value and whether it was defined; a macro missing from
    [macros] reads as the zero value of the map. *)
Definition Resolve (v : Value) (macros : Macros) : Z * bool :=
  match v with
  | Ident name =>
      match macros !! name with
      | Some x => (x, true)
      | None => (0, false)
      end
  | Constant c => (c, true)
  end.

Definition Compare_Eval (expr : Compare) (macros : Macros) : Res bool :=
  let lv := (Resolve (Left expr) macros).1 in
  let rv := (Resolve (Right expr) macros).1 in
  if String.eqb (Op expr) "==" then Ok (lv =? rv)
  else if String.eqb (Op expr) "!=" then Ok (negb (lv =? rv))
  else if String.eqb (Op expr) "<" then Ok (lv <? rv)
  else if String.eqb (Op expr) "<=" then Ok (lv <=? rv)
  else if String.eqb (Op expr) ">" then Ok (lv >? rv)
  else if String.eqb (Op expr) ">=" then Ok (lv >=? rv)
  else Panic "Unknown compare operation type".

(** [Eval]: [&&] and [||] evaluate their right operand only when needed. *)
Fixpoint Eval (e : Expr) (macros : Macros) : Res bool :=
  match e with
  | Defined name => Ok (bool_decide (is_Some (macros !! name)))
  | Cmp c => Compare_Eval c macros
  | Not x => let! b := Eval x macros in Ok (negb b)
  | And l r => let! b := Eval l macros in if b then Eval r macros else Ok false
  | Or l r => let! b := Eval l macros in if b then Ok true else Eval r macros
  end.

(** Negates the comparison by switching the operator to its opposite. *)
Definition Negate (expr : Compare) : Res Compare :=
  let mk op := Ok (mkCompare (Left expr) op (Right expr)) in
  if String.eqb (Op expr) "==" then mk "!="
  else if String.eqb (Op expr) "!=" then mk "=="
  else if String.eqb (Op expr) "<" then mk ">="
  else if String.eqb (Op expr) "<=" then mk ">"
  else if String.eqb (Op expr) ">" then mk "<="
  else if String.eqb (Op expr) ">=" then mk "<"
  else Panic "Unknown compare operation type".

Definition isBinaryCompareOperator (tok : string) : bool :=
  String.eqb tok "==" || String.eqb tok "!=" || String.eqb tok "<"
  || String.eqb tok "<=" || String.eqb tok ">" || String.eqb tok ">=".

End ast.
Export ast.

(** ** package parser: tokenizer (parser.go) *)
Module lexer.

Definition EOL : string := "<EOL>".

Definition isParanthesis (char : ascii) : bool :=
  (char =? "(")%char || (char =? ")")%char || (char =? "[")%char
  || (char =? "]")%char || (char =? "{")%char || (char =? "}")%char.

Definition isEOL (char : ascii) : bool := (char =? "010")%char.

(** [unicode.IsSpace(rune(char))] for a single byte: tab, newline,
    vertical tab, form feed, carriage return, space, U+0085 and U+00A0. *)
Definition isSpace (char : ascii) : bool :=
  (char =? "009")%char || (char =? "010")%char || (char =? "011")%char
  || (char =? "012")%char || (char =? "013")%char || (char =? " ")%char
  || (char =? "133")%char || (char =? "160")%char.

Definition isOperatorChar (char : ascii) : bool :=
  (char =? "!")%char || (char =? "=")%char || (char =? "<")%char
  || (char =? ">")%char.

(** [for i < len(data) && data[i] != '\n' { i++ }] *)
Fixpoint skipLineComment (data : string) : string :=
  match data with
  | String c rest => if isEOL c then data else skipLineComment rest
  | EmptyString => data
  end.

(** [for i < len(data)-1 { if data[i] == '*' && data[i+1] == '/' { i += 2;
    break }; i++ }]: without a closing delimiter the last byte is left for
    the enclosing loop. *)
Fixpoint skipBlockComment (data : string) : string :=
  match data with
  | String c1 ((String c2 rest) as tl) =>
      if (c1 =? "*")%char && (c2 =? "/")%char then rest
      else skipBlockComment tl
  | _ => data
  end.

(** The default branch: the run of bytes up to the next delimiter. *)
Fixpoint scanWord (data : string) : string * string :=
  match data with
  | String c rest =>
      if isEOL c || isOperatorChar c || isSpace c || isParanthesis c
      then (EmptyString, data)
      else let '(w, r) := scanWord rest in (String c w, r)
  | EmptyString => (EmptyString, EmptyString)
  end.

(** [data[i+2:]] *)
Definition drop2 (data : string) : string :=
  match data with
  | String _ (String _ rest) => rest
  | _ => EmptyString
  end.

(** One call of the split function on [data], the bytes the scanner holds
    in its buffer: the next token and the data left after it, or
    [Some None] when the data is used up without a token (the call then
    advances over all of it and returns no token, and [io.EOF] when
    [atEOF] is set). A word or an operator that reaches the end of [data]
    is returned as it stands, whether or not [atEOF] is set: the function
    never asks for more data. The outer [option] is [None] only when
    [fuel] iterations of the loop were not enough. *)
Fixpoint tokenizer (fuel : nat) (data : string) : option (option (string * string)) :=
  match fuel with
  | O => None
  | S fuel =>
      match data with
      | EmptyString => Some None
      | String char rest =>
          if isEOL char then Some (Some (EOL, rest))
          else if String.prefix "//" data
               then tokenizer fuel (skipLineComment (drop2 data))
          else if String.prefix "/*" data
               then tokenizer fuel (skipBlockComment (drop2 data))
          else if isSpace char then tokenizer fuel rest
          else if isParanthesis char then Some (Some (String char EmptyString, rest))
          else if isOperatorChar char then
            match rest with
            | String "=" rest' =>
                Some (Some (String char (String "=" EmptyString), rest'))
            | _ => Some (Some (String char EmptyString, rest))
            end
          else Some (Some (scanWord data))
      end
  end.

(** *** [bufio.Scanner] over a [strings.Reader]

    [newTokenReader] wraps the reader in a [bufio.Scanner] whose split
    function is [tokenizer], and [ParseSource] reads from a
    [strings.Reader]. The scanner reads the input in pieces into a buffer
    of [startBufSize] bytes and hands the split function the part of the
    buffer that is not used yet, never the rest of the input. The loop of
    [Scan] is

    [[
    for {
      if s.end > s.start || s.err != nil {
        advance, token, err := s.split(s.buf[s.start:s.end], s.err != nil)
        if err != nil { s.setErr(err); return false }
        s.advance(advance)
        if token != nil { return true }
      }
      if s.err != nil { s.start = 0; s.end = 0; return false }
      if s.start > 0 && (s.end == len(s.buf) || s.start > len(s.buf)/2) {
        copy(s.buf, s.buf[s.start:s.end]); s.end -= s.start; s.start = 0
      }
      if s.end == len(s.buf) {
        if len(s.buf) >= s.maxTokenSize { s.setErr(ErrTooLong); return false }
        newSize := len(s.buf) * 2
        if newSize == 0 { newSize = startBufSize }
        newSize = min(newSize, s.maxTokenSize)
        (the data moves to a new buffer of newSize bytes, s.start = 0)
      }
      n, err := s.r.Read(s.buf[s.end:len(s.buf)])
      s.end += n
      if err != nil { s.setErr(err) }
    }
    ]]

    where a read of no byte without an error is tried again a hundred
    times and then recorded as [io.ErrNoProgress]. *)

Definition startBufSize : nat := 4096.
Definition MaxScanTokenSize : nat := 64 * 1024.

(** The values the scanner's [err] takes: [io.EOF], [bufio.ErrTooLong]
    and [io.ErrNoProgress]. *)
Inductive ScanError : Type := EOF | ErrTooLong | ErrNoProgress.

Definition ErrorString (e : ScanError) : string :=
  match e with
  | EOF => "EOF"
  | ErrTooLong => "bufio.Scanner: token too long"
  | ErrNoProgress => "multiple Read calls return no data or error"
  end.

Record Scanner : Type := mkScanner {
  sc_r : string;              (* what the reader has not handed out yet *)
  sc_data : string;           (* buf[start:end] *)
  sc_start : nat;             (* start; end is start + len(buf[start:end]) *)
  sc_len : nat;               (* len(buf) *)
  sc_err : option ScanError   (* err *)
}.

(** [bufio.NewScanner(strings.NewReader(input))] *)
Definition NewScanner (input : string) : Scanner :=
  mkScanner input "" 0 0 None.

(** The first [n] bytes of [s] and the rest. *)
Fixpoint splitAt (n : nat) (s : string) : string * string :=
  match n, s with
  | S n, String c s' => let '(a, b) := splitAt n s' in (String c a, b)
  | _, _ => (EmptyString, s)
  end.

(** [strings.Reader.Read] into a slice of [room] bytes: [None] is
    [0, io.EOF], returned when nothing is left; otherwise the bytes copied
    and what is left. *)
Definition Read (room : nat) (r : string) : option (string * string) :=
  match r with
  | EmptyString => None
  | _ => Some (splitAt room r)
  end.

(** [setErr] records the first error that is not [io.EOF]. *)
Definition setErr (s : Scanner) (e : ScanError) : Scanner :=
  match sc_err s with
  | None | Some EOF => mkScanner (sc_r s) (sc_data s) (sc_start s) (sc_len s) (Some e)
  | Some _ => s
  end.

(** [Scanner.Err]: nil after [io.EOF]. *)
Definition ScannerErr (s : Scanner) : option ScanError :=
  match sc_err s with
  | Some EOF => None
  | e => e
  end.

(** What one iteration of the loop of [Scan] does: [Scan] returns true
    with a token, it returns false, or the loop goes round again.
    [Stuck] stands for the split function out of fuel. *)
Inductive Pass : Type :=
  | Token (tok : string) (s : Scanner)
  | Done (s : Scanner)
  | Loop (s : Scanner)
  | Stuck.

(** The read at the end of the loop body: an empty read of a reader that
    returns no error is repeated and ends in [io.ErrNoProgress]. *)
Definition readMore (s : Scanner) : Pass :=
  let room := (sc_len s - (sc_start s + String.length (sc_data s)))%nat in
  match Read room (sc_r s) with
  | None => Loop (setErr s EOF)
  | Some (bytes, rest) =>
      if Nat.eqb (String.length bytes) 0 then Loop (setErr s ErrNoProgress)
      else Loop (mkScanner rest (sc_data s ++ bytes) (sc_start s) (sc_len s) (sc_err s))
  end.

(** The second half of the loop body, which reads more data: the data is
    moved to the front of the buffer when the buffer is full or more than
    half of it is used up, a full buffer is doubled, up to
    [MaxScanTokenSize], and then the reader is read. *)
Definition fill (s : Scanner) : Pass :=
  let s :=
    if Nat.ltb 0 (sc_start s)
       && (Nat.eqb (sc_start s + String.length (sc_data s)) (sc_len s)
           || Nat.ltb (sc_len s / 2) (sc_start s))
    then mkScanner (sc_r s) (sc_data s) 0 (sc_len s) (sc_err s)
    else s in
  if Nat.eqb (sc_start s + String.length (sc_data s)) (sc_len s) then
    if Nat.leb MaxScanTokenSize (sc_len s) then Done (setErr s ErrTooLong)
    else
      let newSize :=
        if Nat.eqb (sc_len s * 2) 0 then startBufSize else (sc_len s * 2)%nat in
      let newSize := Nat.min newSize MaxScanTokenSize in
      readMore (mkScanner (sc_r s) (sc_data s) 0 newSize (sc_err s))
  else readMore s.

(** One iteration of the loop of [Scan]. The split function is called when
    the buffer holds data or an error is recorded, with [atEOF] set in the
    latter case; it is given the data the buffer holds, not the rest of the
    input. When [tokenizer] returns no token it has advanced over all the
    data, and with [atEOF] set it returns [io.EOF], which ends the scan. *)
Definition scanPass (s : Scanner) : Pass :=
  let noToken (s : Scanner) :=
    match sc_err s with
    | Some _ => Done (mkScanner (sc_r s) "" 0 (sc_len s) (sc_err s))
    | None => fill s
    end in
  if Nat.ltb 0 (String.length (sc_data s)) || bool_decide (is_Some (sc_err s)) then
    match tokenizer (S (String.length (sc_data s))) (sc_data s) with
    | None => Stuck
    | Some (Some (tok, rest)) =>
        Token tok (mkScanner (sc_r s) rest
                     (sc_start s + (String.length (sc_data s) - String.length rest))
                     (sc_len s) (sc_err s))
    | Some None =>
        if bool_decide (is_Some (sc_err s)) then Done (setErr s EOF)
        else noToken (mkScanner (sc_r s) ""
                        (sc_start s + String.length (sc_data s)) (sc_len s) (sc_err s))
    end
  else noToken s.

(** The tokens of the successive calls of [Scan] until one returns false,
    and [Err()] after it. One unit of fuel is one iteration of the loop of
    [Scan]; the call after a token enters the loop at its top. *)
Fixpoint scanTokens (fuel : nat) (s : Scanner)
  : option (list string * option ScanError) :=
  match fuel with
  | O => None
  | S fuel =>
      match scanPass s with
      | Token tok s' =>
          match scanTokens fuel s' with
          | Some (toks, e) => Some (tok :: toks, e)
          | None => None
          end
      | Loop s' => scanTokens fuel s'
      | Done s' => Some ([], ScannerErr s')
      | Stuck => None
      end
  end.

Definition scanFuel (input : string) : nat := (3 * String.length input + 3)%nat.

(** All tokens of [input] in order, and the scanner's error at the end. *)
Definition scanInput (input : string) : option (list string * option ScanError) :=
  scanTokens (scanFuel input) (NewScanner input).

(** The tokens of an input the scanner reads to its end. *)
Definition tokenize (input : string) : option (list string) :=
  match scanInput input with
  | Some (toks, None) => Some toks
  | _ => None
  end.

End lexer.
Export lexer.

(** ** package parser: token reader, expression parser and directive
       parser (parser.go) *)
Module parser.

(** Outcome of a method that works on a mutable receiver of type [S]:
    a normal return with the state reached, a returned error with the
    state reached, a panic, or (an artefact of fuel-bounded loops) the
    exhaustion of the fuel. *)
Inductive Out (S A : Type) : Type :=
  | Ret (a : A) (s : S)
  | Raise (err : string) (s : S)
  | Abort (msg : string)
  | OutOfFuel.
Arguments Ret {S A} a s.
Arguments Raise {S A} err s.
Arguments Abort {S A} msg.
Arguments OutOfFuel {S A}.

Definition obind {S A B} (m : Out S A) (k : A -> S -> Out S B) : Out S B :=
  match m with
  | Ret a s => k a s
  | Raise e s => Raise e s
  | Abort msg => Abort msg
  | OutOfFuel => OutOfFuel
  end.

Record Include : Type :=
  mkInclude { Path : string; IsSystemInclude : bool; Condition : option Expr }.

Record SourceInfo : Type :=
  mkSourceInfo { Includes : list Include; HasMain : bool }.

(** *** tokenReader

    [scanner] holds the tokens the scanner has not produced yet, [buf]
    the one-token look-ahead. *)
Record tokenReader : Type :=
  mkReader { scanner : list string; buf : option string }.

Definition newTokenReader (toks : list string) : tokenReader :=
  mkReader toks None.

(** [fetch]: the buffered token if any, else the scanner's next one. *)
Definition fetch (tr : tokenReader) : option string * tokenReader :=
  match buf tr with
  | Some tok => (Some tok, mkReader (scanner tr) None)
  | None =>
      match scanner tr with
      | [] => (None, tr)
      | tok :: rest => (Some tok, mkReader rest None)
      end
  end.

(** The tokens [fetch] will deliver, in order. *)
Definition pending (tr : tokenReader) : list string :=
  match buf tr with
  | Some tok => tok :: scanner tr
  | None => scanner tr
  end.

(** The loop of [nextInternal] over the tokens [fetch] delivers. *)
Fixpoint nextFrom (keepEOL : bool) (toks : list string) : option string * list string :=
  match toks with
  | [] => (None, [])
  | tok :: rest =>
      if String.eqb tok EOL && negb keepEOL then nextFrom keepEOL rest
      else (Some tok, rest)
  end.

Definition nextInternal (keepEOL : bool) (tr : tokenReader)
  : option string * tokenReader :=
  let '(tok, rest) := nextFrom keepEOL (pending tr) in
  (tok, mkReader rest None).

Definition next (tr : tokenReader) := nextInternal false tr.

Definition peekInternal (keepEOL : bool) (tr : tokenReader)
  : option string * tokenReader :=
  match buf tr with
  | Some b =>
      if negb keepEOL && String.eqb b EOL then next tr
      else (Some b, tr)
  | None =>
      match nextInternal keepEOL tr with
      | (None, tr') => (None, tr')
      | (Some tok, tr') => (Some tok, mkReader (scanner tr') (Some tok))
      end
  end.

Definition peek (tr : tokenReader) := peekInternal false tr.

(** *** tokensStream and the expression parser *)
Record tokensStream : Type := mkStream { tokens : list string; idx : nat }.

Definition advance (ts : tokensStream) : tokensStream :=
  mkStream (tokens ts) (S (idx ts)).

Definition ts_peek (s : string) (ts : tokensStream) : bool :=
  match tokens ts !! idx ts with
  | Some tok => String.eqb tok s
  | None => false
  end.

Definition ts_consume (s : string) (ts : tokensStream) : Out tokensStream unit :=
  if ts_peek s ts then Ret tt (advance ts)
  else
    let next_ := match tokens ts !! idx ts with
                 | Some tok => tok
                 | None => "<EOF>"
                 end in
    Raise ("expected " ++ s ++ ", got " ++ next_) ts.

Definition ts_next (ts : tokensStream) : Out tokensStream string :=
  match tokens ts !! idx ts with
  | None => Abort "unexpected EOL in expression"
  | Some val => Ret val (advance ts)
  end.

Definition isLetter (c : ascii) : bool :=
  let n := N_of_ascii c in
  ((65 <=? n) && (n <=? 90) || (97 <=? n) && (n <=? 122))%N.
Definition isDigit (c : ascii) : bool :=
  let n := N_of_ascii c in ((48 <=? n) && (n <=? 57))%N.

(** [macroIdentifierRegex]: [^[A-Za-z_][A-Za-z0-9_]*$]. *)
Definition macroIdentifierRegex (s : string) : bool :=
  match s with
  | EmptyString => false
  | String c rest =>
      (isLetter c || (c =? "_")%char)
      && forallb (fun c => isLetter c || isDigit c || (c =? "_")%char)
                 (list_ascii_of_string rest)
  end.

(** *** [strconv.ParseInt(tok, 0, 64)] of the Go standard library *)
Definition lower (c : ascii) : ascii :=
  ascii_of_N (N.lor (N_of_ascii c) 32).

Definition digitVal (c : ascii) : option Z :=
  if isDigit c then Some (Z.of_N (N_of_ascii c) - 48)
  else if isLetter c then Some (Z.of_N (N_of_ascii (lower c)) - 97 + 10)
  else None.

(** The digits after the base prefix; [None] is a syntax error. *)
Fixpoint parseDigits (base : Z) (acc : Z) (s : list ascii) : option Z :=
  match s with
  | [] => Some acc
  | c :: rest =>
      if (c =? "_")%char then parseDigits base acc rest
      else match digitVal c with
           | Some d => if d <? base then parseDigits base (acc * base + d) rest
                       else None
           | None => None
           end
  end.

(** [underscoreOK]: underscores only between digits or after the base
    prefix. [saw] is 0 at the beginning, 1 after a digit, 2 after an
    underscore and 3 after anything else. *)
Fixpoint underscoreLoop (hex : bool) (saw : nat) (s : list ascii) : bool :=
  match s with
  | [] => negb (Nat.eqb saw 2)
  | c :: rest =>
      if isDigit c
         || hex && (97 <=? N_of_ascii (lower c))%N && (N_of_ascii (lower c) <=? 102)%N
      then underscoreLoop hex 1 rest
      else if (c =? "_")%char then
        if Nat.eqb saw 1 then underscoreLoop hex 2 rest else false
      else if Nat.eqb saw 2 then false
      else underscoreLoop hex 3 rest
  end.

Definition underscoreOK (s : list ascii) : bool :=
  let s := match s with
           | c :: rest => if (c =? "-")%char || (c =? "+")%char then rest else s
           | [] => s
           end in
  match s with
  | c0 :: c1 :: rest =>
      if (c0 =? "0")%char
         && ((lower c1 =? "b")%char || (lower c1 =? "o")%char || (lower c1 =? "x")%char)
      then underscoreLoop (lower c1 =? "x")%char 1 rest
      else underscoreLoop false 0 s
  | _ => underscoreLoop false 0 s
  end.

Definition ParseUint (s : list ascii) : option Z :=
  match s with
  | [] => None
  | c0 :: rest0 =>
      let '(base, digits) :=
        if (c0 =? "0")%char then
          match rest0 with
          | c1 :: rest1 =>
              if (3 <=? length s)%nat && (lower c1 =? "b")%char then (2, rest1)
              else if (3 <=? length s)%nat && (lower c1 =? "o")%char then (8, rest1)
              else if (3 <=? length s)%nat && (lower c1 =? "x")%char then (16, rest1)
              else (8, rest0)
          | [] => (8, rest0)
          end
        else (10, s) in
      match parseDigits base 0 digits with
      | None => None
      | Some n =>
          if existsb (fun c => (c =? "_")%char) digits && negb (underscoreOK s)
          then None else Some n
      end
  end.

(** [None] stands for a non-nil error (syntax or range). *)
Definition ParseInt (s : list ascii) : option Z :=
  match s with
  | [] => None
  | c :: rest =>
      let neg := (c =? "-")%char in
      let s' := if (c =? "+")%char || neg then rest else s in
      match ParseUint s' with
      | None => None
      | Some un =>
          if negb neg && (2 ^ 63 <=? un) then None
          else if neg && (2 ^ 63 <? un) then None
          else Some (if neg then - un else un)
      end
  end.

Definition isIntSuffix (c : ascii) : bool :=
  (c =? "u")%char || (c =? "U")%char || (c =? "l")%char || (c =? "L")%char.

Fixpoint dropLeading (f : ascii -> bool) (l : list ascii) : list ascii :=
  match l with
  | c :: rest => if f c then dropLeading f rest else l
  | [] => []
  end.

(** [strings.TrimRightFunc(tok, f)] *)
Definition TrimRightFunc (f : ascii -> bool) (s : list ascii) : list ascii :=
  rev (dropLeading f (rev s)).

(** Decimal, octal and hex (base 0), ignoring U/L suffixes. *)
Definition parseIntLiteral (tok : string) : option Z :=
  ParseInt (TrimRightFunc isIntSuffix (list_ascii_of_string tok)).

(** [interpretValue] converts a token into either Ident or Constant. *)
Definition interpretValue (token : string) : Res Value :=
  if macroIdentifierRegex token then Ok (Ident token)
  else match parseIntLiteral token with
       | Some value => Ok (Constant value)
       | None => Err "neither a valid identifier of integer constant"
       end.

(** The three mutually recursive methods of [exprParser]; the [for] loops
    of [parseOr] and [parseAnd] are [parseOrLoop] and [parseAndLoop]. Every
    call and every loop iteration takes one unit of [fuel]. *)
Fixpoint parseOr (fuel : nat) (ts : tokensStream) : Out tokensStream Expr :=
  match fuel with
  | O => OutOfFuel
  | S fuel =>
      obind (parseAnd fuel ts) (fun left_ ts => parseOrLoop fuel left_ ts)
  end
with parseOrLoop (fuel : nat) (left_ : Expr) (ts : tokensStream)
  : Out tokensStream Expr :=
  match fuel with
  | O => OutOfFuel
  | S fuel =>
      if ts_peek "||" ts then
        let ts := advance ts in
        obind (parseAnd fuel ts) (fun right_ ts =>
          parseOrLoop fuel (Or left_ right_) ts)
      else Ret left_ ts
  end
with parseAnd (fuel : nat) (ts : tokensStream) : Out tokensStream Expr :=
  match fuel with
  | O => OutOfFuel
  | S fuel =>
      obind (parseUnary fuel ts) (fun left_ ts => parseAndLoop fuel left_ ts)
  end
with parseAndLoop (fuel : nat) (left_ : Expr) (ts : tokensStream)
  : Out tokensStream Expr :=
  match fuel with
  | O => OutOfFuel
  | S fuel =>
      if ts_peek "&&" ts then
        let ts := advance ts in
        obind (parseUnary fuel ts) (fun right_ ts =>
          parseAndLoop fuel (And left_ right_) ts)
      else Ret left_ ts
  end
with parseUnary (fuel : nat) (ts : tokensStream) : Out tokensStream Expr :=
  match fuel with
  | O => OutOfFuel
  | S fuel =>
      if ts_peek "!" ts then
        obind (parseUnary fuel (advance ts)) (fun expr ts => Ret (Not expr) ts)
      else if ts_peek "(" ts then
        obind (parseOr fuel (advance ts)) (fun expr ts =>
        obind (ts_consume ")" ts) (fun _ ts => Ret expr ts))
      else if ts_peek "defined" ts then
        let ts := advance ts in
        if ts_peek "(" ts then
          obind (ts_next (advance ts)) (fun name ts =>
          obind (ts_consume ")" ts) (fun _ ts => Ret (Defined name) ts))
        else
          obind (ts_next ts) (fun name ts => Ret (Defined name) ts)
      else
        obind (ts_next ts) (fun token ts =>
          match tokens ts !! idx ts with
          | Some tok' =>
              if isBinaryCompareOperator tok' then
                obind (ts_next ts) (fun op ts =>
                  match interpretValue token with
                  | Ok lValue =>
                      obind (ts_next ts) (fun rightToken ts =>
                        match interpretValue rightToken with
                        | Ok rValue => Ret (Cmp (mkCompare lValue op rValue)) ts
                        | Err e => Raise e ts
                        | Panic m => Abort m
                        end)
                  | Err e => Raise e ts
                  | Panic m => Abort m
                  end)
              else Ret (Cmp (mkCompare (Ident token) "!=" (Constant 0))) ts
          | None => Ret (Cmp (mkCompare (Ident token) "!=" (Constant 0))) ts
          end)
  end.

(** Fuel that lets the expression parser consume all of [toks]. *)
Definition exprFuel (toks : list string) : nat := 3 * length toks + 3.

(** [orAll] panics on an empty list. *)
Definition orAll (xs : list Expr) : Res Expr :=
  match xs with
  | [] => Panic "empty orAll"
  | x :: rest => Ok (foldl Or x rest)
  end.

(** *** The parser state and its stack primitives *)
Record parser : Type := mkParser {
  tr : tokenReader;
  lastToken : string;
  sourceInfo : SourceInfo;          (* accumulated result *)
  conditionStack : list Expr;       (* active #if/#else nesting *)
  exprGroupStack : list (list Expr) (* seen branches of each #if group *)
}.

Definition with_tr (p : parser) (r : tokenReader) : parser :=
  mkParser r (lastToken p) (sourceInfo p) (conditionStack p) (exprGroupStack p).
Definition with_lastToken (p : parser) (t : string) : parser :=
  mkParser (tr p) t (sourceInfo p) (conditionStack p) (exprGroupStack p).
Definition with_sourceInfo (p : parser) (si : SourceInfo) : parser :=
  mkParser (tr p) (lastToken p) si (conditionStack p) (exprGroupStack p).
Definition with_conditionStack (p : parser) (cs : list Expr) : parser :=
  mkParser (tr p) (lastToken p) (sourceInfo p) cs (exprGroupStack p).
Definition with_exprGroupStack (p : parser) (gs : list (list Expr)) : parser :=
  mkParser (tr p) (lastToken p) (sourceInfo p) (conditionStack p) gs.

(** [currentGuard] returns the AND-conjunction of every active #if
    expression, nil when there is none. *)
Definition currentGuard (p : parser) : option Expr :=
  match conditionStack p with
  | [] => None
  | c :: rest => Some (foldl And c rest)
  end.

Definition pushCondition (expr : Expr) (p : parser) : parser :=
  with_conditionStack p (conditionStack p ++ [expr])%list.

Definition popCondition (p : parser) : bool * parser :=
  match conditionStack p with
  | [] => (false, p)
  | _ => (true, with_conditionStack p (removelast (conditionStack p)))
  end.

Definition currentGroup (p : parser) : option (list Expr) :=
  last (exprGroupStack p).

Definition pushNewGroup (expr : Expr) (p : parser) : parser :=
  with_exprGroupStack p (exprGroupStack p ++ [[expr]])%list.

Definition appendToCurrentGroup (expr : Expr) (p : parser) : Res parser :=
  match last (exprGroupStack p) with
  | None => Panic "parser invariant violated: no expression group present"
  | Some g =>
      Ok (with_exprGroupStack p
            (removelast (exprGroupStack p) ++ [(g ++ [expr])%list])%list)
  end.

Definition popGroup (p : parser) : bool * parser :=
  match exprGroupStack p with
  | [] => (false, p)
  | _ => (true, with_exprGroupStack p (removelast (exprGroupStack p)))
  end.

(** [parseIdent]: the next token that is not a line continuation. The
    recursion of the source, through [next], runs over the tokens the
    reader delivers. *)
Fixpoint parseIdentFrom (toks : list string) : option string * list string :=
  match toks with
  | [] => (None, [])
  | tok :: rest =>
      if String.eqb tok EOL then parseIdentFrom rest
      else if String.eqb tok "\" then parseIdentFrom rest
      else (Some tok, rest)
  end.

Definition parseIdent (p : parser) : Out parser string :=
  match parseIdentFrom (pending (tr p)) with
  | (None, rest) =>
      Raise "expected identifier, found EOF" (with_tr p (mkReader rest None))
  | (Some token, rest) => Ret token (with_tr p (mkReader rest None))
  end.

(** [strings.Contains] for the double quote character. *)
Definition containsQuote (s : string) : bool :=
  existsb (fun c => (c =? "034")%char) (list_ascii_of_string s).

(** [strings.Trim] with the double quote as cutset: all leading and
    trailing double quotes are removed. *)
Definition TrimQuotes (s : string) : string :=
  let isQ := fun c => (c =? "034")%char in
  string_of_list_ascii
    (rev (dropLeading isQ (rev (dropLeading isQ (list_ascii_of_string s))))).

Definition appendInclude (inc : Include) (p : parser) : parser :=
  with_sourceInfo p
    (mkSourceInfo (Includes (sourceInfo p) ++ [inc])%list (HasMain (sourceInfo p))).

Definition handleInclude (p : parser) : Out parser unit :=
  match next (tr p) with
  | (None, r) => Raise "unexpected EOF after #include" (with_tr p r)
  | (Some include, r) =>
      let p := with_tr p r in
      if String.eqb include "<" then
        (* bracket style: we saw the opening angle bracket *)
        match next (tr p) with
        | (None, r) => Raise "unexpected EOF in bracketed include" (with_tr p r)
        | (Some include, r) =>
            let p := with_tr p r in
            Ret tt (appendInclude
                      (mkInclude (TrimQuotes include) true (currentGuard p)) p)
        end
      else
        (* a token without any quote is malformed input, e.g. [#include weird>] *)
        let isBracket := negb (containsQuote include) in
        Ret tt (appendInclude
                  (mkInclude (TrimQuotes include) isBracket (currentGuard p)) p)
  end.

Definition handleIfdef (kind : string) (p : parser) : Out parser unit :=
  obind (parseIdent p) (fun ident p =>
    let expr := if String.eqb kind "#ifndef" then Not (Defined ident)
                else Defined ident in
    Ret tt (pushNewGroup expr (pushCondition expr p))).

(** The token collecting loop of [parseExpr]: up to the end of the line,
    or further when a line ends with a backslash. *)
Fixpoint collect (fuel : nat) (acc : list string) (r : tokenReader)
  : Out tokenReader (list string) :=
  match fuel with
  | O => OutOfFuel
  | S fuel =>
      match nextInternal true r with
      | (None, r) => Raise "expected more tokens: <nil>" r
      | (Some token, r) =>
          if String.eqb token "\" then
            match peek r with
            | (Some next_, r') =>
                if String.eqb next_ EOL
                then collect fuel acc (next r').2
                else collect fuel acc r'
            | (None, r') => collect fuel acc r'
            end
          else if String.eqb token EOL then Ret acc r
          else collect fuel (acc ++ [token])%list r
      end
  end.

(** [parseExpr] works on the reader only: it collects the tokens of the
    logical line and hands them to the expression parser. *)
Definition parseExprFrom (r : tokenReader) : Out tokenReader Expr :=
  obind (collect (S (length (pending r))) [] r) (fun toks r =>
    match parseOr (exprFuel toks) (mkStream toks 0) with
    | Ret e _ => Ret e r
    | Raise err _ => Raise err r
    | Abort msg => Abort msg
    | OutOfFuel => OutOfFuel
    end).

Definition parseExpr (p : parser) : Out parser Expr :=
  match parseExprFrom (tr p) with
  | Ret e r => Ret e (with_tr p r)
  | Raise err r => Raise err (with_tr p r)
  | Abort msg => Abort msg
  | OutOfFuel => OutOfFuel
  end.

Definition handleIf (p : parser) : Out parser unit :=
  obind (parseExpr p) (fun expr p =>
    Ret tt (pushNewGroup expr (pushCondition expr p))).

(** Lifts a [Res] computed in state [p]. *)
Definition liftRes {A} (r : Res A) (p : parser) : Out parser A :=
  match r with
  | Ok a => Ret a p
  | Err e => Raise e p
  | Panic m => Abort m
  end.

Definition handleElse (p : parser) : Out parser unit :=
  let cur := currentGroup p in
  let '(popped, p) := popCondition p in
  match popped, cur with
  | true, Some cur =>
      obind (liftRes (orAll cur) p) (fun disj p =>
        let neg := Not disj in
        obind (liftRes (appendToCurrentGroup neg (pushCondition neg p)) p)
              (fun p' _ => Ret tt p'))
  | _, _ => Ret tt p (* malformed: silently ignore *)
  end.

Definition handleElif (kind : string) (p : parser) : Out parser unit :=
  let cur := currentGroup p in
  let '(popped, p) := popCondition p in
  match popped, cur with
  | true, Some cur =>
      obind
        (if String.eqb kind "#elif" then parseExpr p
         else obind (parseIdent p) (fun ident p =>
                Ret (if String.eqb kind "#elifndef" then Not (Defined ident)
                     else Defined ident) p))
        (fun expr p =>
           obind (liftRes (orAll cur) p) (fun disj p =>
             let notPrev := Not disj in
             let branch := And expr notPrev in
             (* only the raw expr is remembered for the later !prev *)
             obind (liftRes (appendToCurrentGroup expr (pushCondition branch p)) p)
                   (fun p' _ => Ret tt p')))
  | _, _ => Ret tt p (* malformed: silently ignore *)
  end.

(** Dispatcher for directive handlers. *)
Definition parseDirective (tok : string) (p : parser) : Out parser unit :=
  if String.eqb tok "#include" then handleInclude p
  else if String.eqb tok "#ifdef" || String.eqb tok "#ifndef" then handleIfdef tok p
  else if String.eqb tok "#if" then handleIf p
  else if String.eqb tok "#else" then handleElse p
  else if String.eqb tok "#elif" || String.eqb tok "#elifdef"
          || String.eqb tok "#elifndef" then handleElif tok p
  else if String.eqb tok "#endif" then
    Ret tt (popGroup (popCondition p).2).2
  else Ret tt p.

(** *** The main loop *)

(** What one iteration of the loop of [parse] does. *)
Inductive Step : Type :=
  | Continue (p : parser)
  | Return (info : SourceInfo) (err : option string)
  | Crash (msg : string)
  | Starved.

Definition setHasMain (p : parser) : parser :=
  with_sourceInfo p (mkSourceInfo (Includes (sourceInfo p)) true).

(** One iteration of the loop of [parse] over the tokens the scanner
    delivers. At their end [scanner.Err()] is returned: nil here, and
    [ParseSource] below puts the error of a scanner that gave up in its
    place. *)
Definition loopBody (p : parser) : Step :=
  match next (tr p) with
  | (None, _) => Return (sourceInfo p) None
  | (Some tok, r) =>
      let prev := lastToken p in
      let p := with_lastToken (with_tr p r) tok in
      if String.prefix "#" tok then
        match parseDirective tok p with
        | Ret _ p => Continue p
        | Raise err p => Return (sourceInfo p) (Some err)
        | Abort msg => Crash msg
        | OutOfFuel => Starved
        end
      else if String.eqb tok "main" then
        match next (tr p) with
        | (Some next_, r) =>
            if String.eqb next_ "(" && String.eqb prev "int"
            then Continue (setHasMain (with_tr p r))
            else Continue (with_tr p r)
        | (None, r) => Continue (with_tr p r)
        end
      else Continue p
  end.

Fixpoint parseLoop (fuel : nat) (p : parser) : Step :=
  match fuel with
  | O => Starved
  | S fuel =>
      match loopBody p with
      | Continue p => parseLoop fuel p
      | r => r
      end
  end.

Definition newParser (toks : list string) : parser :=
  mkParser (newTokenReader toks) "" (mkSourceInfo [] false) [] [].

(** Reads the content of input and extracts the source information. *)
Definition parse (toks : list string) : Step :=
  parseLoop (S (length toks)) (newParser toks).

(** A scanner that gives up with an error ends the tokens the way the end
    of the input does: the handlers fail as they do there, and the main
    loop returns [scanner.Err()], which [parseExpr] also prints. *)
Definition scanFailed (e : ScanError) (r : Step) : Step :=
  match r with
  | Return info None => Return info (Some (ErrorString e))
  | Return info (Some msg) =>
      if String.eqb msg "expected more tokens: <nil>"
      then Return info (Some ("expected more tokens: " ++ ErrorString e))
      else r
  | r => r
  end.

(** [ParseSource] runs the extractor on an in-memory buffer, which the
    scanner reads through a [strings.Reader]. *)
Definition ParseSource (input : string) : Step :=
  match scanInput input with
  | Some (toks, None) => parse toks
  | Some (toks, Some e) => scanFailed e (parse toks)
  | None => Starved
  end.

(** *** [ParseMacros] *)

(** [strings.TrimPrefix(s, prefix)] *)
Fixpoint stripPrefix (pre s : string) : option string :=
  match pre, s with
  | EmptyString, _ => Some s
  | String a pre', String b s' =>
      if (a =? b)%char then stripPrefix pre' s' else None
  | String _ _, EmptyString => None
  end.

Definition TrimPrefix (s pre : string) : string :=
  match stripPrefix pre s with
  | Some rest => rest
  | None => s
  end.

(** [eq := strings.IndexByte(d, c)] with [d[:eq]] and [d[eq+1:]], [None]
    when the byte does not occur. *)
Fixpoint cutAt (c : ascii) (d : string) : option (string * string) :=
  match d with
  | EmptyString => None
  | String x rest =>
      if (x =? c)%char then Some (EmptyString, rest)
      else match cutAt c rest with
           | Some (name, raw) => Some (String x name, raw)
           | None => None
           end
  end.

Definition isHexDigit (c : ascii) : bool :=
  let n := N_of_ascii c in
  (isDigit c || (97 <=? n) && (n <=? 102) || (65 <=? n) && (n <=? 70))%N.
Definition isOctDigit (c : ascii) : bool :=
  let n := N_of_ascii c in ((48 <=? n) && (n <=? 55))%N.

(** The three alternatives of the literal:
    [0[xX][0-9a-fA-F]+], [0[0-7]*] and [[1-9][0-9]*]. *)
Definition hexLiteral (cs : list ascii) : bool :=
  match cs with
  | c0 :: c1 :: d :: ds =>
      (c0 =? "0")%char && ((c1 =? "x")%char || (c1 =? "X")%char)
      && forallb isHexDigit (d :: ds)
  | _ => false
  end.
Definition octLiteral (cs : list ascii) : bool :=
  match cs with
  | c0 :: ds => (c0 =? "0")%char && forallb isOctDigit ds
  | [] => false
  end.
Definition decLiteral (cs : list ascii) : bool :=
  match cs with
  | c0 :: ds => isDigit c0 && negb (c0 =? "0")%char && forallb isDigit ds
  | [] => false
  end.

(** The optional suffix: [[uU](ll?|LL?)?], [ll?[uU]?] or [LL?[uU]?]. *)
Definition intSuffix (s : string) : bool :=
  existsb (String.eqb s)
    [""; "u"; "ul"; "ull"; "uL"; "uLL"; "U"; "Ul"; "Ull"; "UL"; "ULL";
     "l"; "lu"; "lU"; "ll"; "llu"; "llU"; "L"; "Lu"; "LU"; "LL"; "LLu"; "LLU"].

(** The longest prefix without the bytes u, U, l and L, and what follows
    it. No literal contains one of these bytes and a suffix holds no other
    byte, so this is the only way to split a match of the expression. *)
Fixpoint spanLiteral (cs : list ascii) : list ascii * list ascii :=
  match cs with
  | c :: rest =>
      if isIntSuffix c then ([], cs)
      else let '(body, suffix) := spanLiteral rest in (c :: body, suffix)
  | [] => ([], [])
  end.

(** [parsableIntegerRegex.MatchString]: the whole string is a literal
    followed by an optional suffix. *)
Definition parsableIntegerRegex (s : string) : bool :=
  let '(body, suffix) := spanLiteral (list_ascii_of_string s) in
  (hexLiteral body || octLiteral body || decLiteral body)
  && intSuffix (string_of_list_ascii suffix).

(** The errors of [ParseMacros], with the values each message prints. *)
Inductive MacroError : Type :=
  | InvalidMacroName (name : string)
  | NotIntegerLiteral (name raw : string)
  | LiteralError (name : string).

(** The loop of [ParseMacros] from the map [out] built so far. The map
    returned next to an error is [out], or the nil map ([None]) for a value
    that is no integer literal. *)
Fixpoint ParseMacrosFrom (out : Macros) (defs : list string)
  : option Macros * option MacroError :=
  match defs with
  | [] => (Some out, None)
  | d :: defs' =>
      let d := TrimPrefix d "-D" in
      let '(name, raw) := match cutAt "=" d with
                          | Some (name, raw) => (name, raw)
                          | None => (d, EmptyString)
                          end in
      if negb (macroIdentifierRegex name)
      then (Some out, Some (InvalidMacroName name))
      else if String.eqb raw EmptyString
      then ParseMacrosFrom (<[name := 1]> out) defs'
      else if negb (parsableIntegerRegex raw)
      then (None, Some (NotIntegerLiteral name raw))
      else match parseIntLiteral raw with
           | None => (Some out, Some (LiteralError name))
           | Some value => ParseMacrosFrom (<[name := value]> out) defs'
           end
  end.

Definition ParseMacros (defs : list string) : option Macros * option MacroError :=
  ParseMacrosFrom ∅ defs.

End parser.
Export parser.

(** ** package parser: the earlier extractor [extractSourceInfo]

    parser.go holds an earlier revision of the extractor, written as one
    function with closures. It shares the tokenizer, the token reader and
    the expression parser with [parse], but keeps a single [alreadySeen]
    list in place of the group stack, drops the errors of its directives,
    and stores unconditional includes by delimiter. Its [orAll] returns nil
    on the empty list, so a condition can hold a nil operand ([LNil]). *)
Module legacy.

Inductive Cond : Type :=
  | LNil
  | LExpr (e : Expr)
  | LNot (x : Cond)
  | LAnd (l r : Cond)
  | LOr (l r : Cond).

Record ConditionalInclude : Type :=
  mkConditional { CPath : string; CCondition : Cond }.

Record SourceInfo : Type := mkInfo {
  DoubleQuote : list string;
  Bracket : list string;
  ConditionalIncludes : list ConditionalInclude;
  HasMain : bool
}.

Record state : Type := mkState {
  tr : tokenReader;
  sourceInfo : SourceInfo;
  condStack : list Cond;    (* active #if/#else nesting *)
  alreadySeen : list Cond;  (* for #elif / #else handling *)
  lastToken : string
}.

Definition orAll (xs : list Cond) : Cond :=
  match xs with
  | [] => LNil
  | x :: rest => foldl LOr x rest
  end.

Definition currentGuard (st : state) : option Cond :=
  match condStack st with
  | [] => None
  | c :: rest => Some (foldl LAnd c rest)
  end.

Definition with_tr (st : state) (r : tokenReader) : state :=
  mkState r (sourceInfo st) (condStack st) (alreadySeen st) (lastToken st).
Definition with_stacks (st : state) (cs seen : list Cond) : state :=
  mkState (tr st) (sourceInfo st) cs seen (lastToken st).

(** [push(expr)] followed by [alreadySeen = append(alreadySeen, seen)]. *)
Definition pushSeen (expr seen : Cond) (st : state) : state :=
  with_stacks st (condStack st ++ [expr])%list (alreadySeen st ++ [seen])%list.

Definition nextIdent (st : state) : Out state string :=
  match parseIdentFrom (pending (tr st)) with
  | (None, rest) => Raise "not found expected ident" (with_tr st (mkReader rest None))
  | (Some token, rest) => Ret token (with_tr st (mkReader rest None))
  end.

Definition parseExpr (st : state) : Out state Expr :=
  match parseExprFrom (tr st) with
  | Ret e r => Ret e (with_tr st r)
  | Raise err r => Raise err (with_tr st r)
  | Abort msg => Abort msg
  | OutOfFuel => OutOfFuel
  end.

Definition recordInclude (path : string) (isBracketInclude : bool) (st : state)
  : state :=
  let si := sourceInfo st in
  let si' :=
    match currentGuard st with
    | Some conditionExpr =>
        mkInfo (DoubleQuote si) (Bracket si)
               (ConditionalIncludes si ++ [mkConditional path conditionExpr])%list
               (HasMain si)
    | None =>
        if isBracketInclude
        then mkInfo (DoubleQuote si) (Bracket si ++ [path])%list
                    (ConditionalIncludes si) (HasMain si)
        else mkInfo (DoubleQuote si ++ [path])%list (Bracket si)
                    (ConditionalIncludes si) (HasMain si)
    end in
  mkState (tr st) si' (condStack st) (alreadySeen st) (lastToken st).

Definition parseDirective (token : string) (st : state) : Out state unit :=
  if String.eqb token "#include" then
    match next (tr st) with
    | (None, r) => Raise "unexpected end of file" (with_tr st r)
    | (Some include, r) =>
        let st := with_tr st r in
        if String.eqb include "<" then
          match next (tr st) with
          | (None, r) => Raise "unexpected end of file" (with_tr st r)
          | (Some include, r) =>
              Ret tt (recordInclude (TrimQuotes include) true (with_tr st r))
          end
        else
          Ret tt (recordInclude (TrimQuotes include)
                                (negb (containsQuote include)) st)
    end
  else if String.eqb token "#ifdef" || String.eqb token "#ifndef" then
    obind (nextIdent st) (fun ident st =>
      let definition := if String.eqb token "#ifndef"
                        then LNot (LExpr (Defined ident))
                        else LExpr (Defined ident) in
      Ret tt (pushSeen definition definition st))
  else if String.eqb token "#else" then
    match condStack st with
    | [] => Ret tt st (* malformed source code *)
    | _ =>
        let st := with_stacks st (removelast (condStack st)) (alreadySeen st) in
        let negateAll := LNot (orAll (alreadySeen st)) in
        Ret tt (pushSeen negateAll negateAll st)
    end
  else if String.eqb token "#elifdef" || String.eqb token "#elifndef" then
    match condStack st with
    | [] => Ret tt st
    | _ =>
        let st := with_stacks st (removelast (condStack st)) (alreadySeen st) in
        obind (nextIdent st) (fun ident st =>
          let newExpr := if String.eqb token "#elifndef"
                         then LNot (LExpr (Defined ident))
                         else LExpr (Defined ident) in
          let notPrev := LNot (orAll (alreadySeen st)) in
          Ret tt (pushSeen (LAnd newExpr notPrev) newExpr st))
    end
  else if String.eqb token "#endif" then
    match condStack st with
    | [] => Ret tt st
    | _ => Ret tt (with_stacks st (removelast (condStack st)) [])
    end
  else if String.eqb token "#if" then
    obind (parseExpr st) (fun expr st =>
      Ret tt (pushSeen (LExpr expr) (LExpr expr) st))
  else if String.eqb token "#elif" then
    match condStack st with
    | [] => Ret tt st
    | _ =>
        let st := with_stacks st (removelast (condStack st)) (alreadySeen st) in
        obind (parseExpr st) (fun expr st =>
          let notPrev := LNot (orAll (alreadySeen st)) in
          Ret tt (pushSeen (LAnd (LExpr expr) notPrev) (LExpr expr) st))
    end
  else Ret tt st.

Inductive Step : Type :=
  | Continue (st : state)
  | Return (info : SourceInfo) (err : option string)
  | Crash (msg : string)
  | Starved.

(** One iteration of the main loop; the error of a directive is dropped. *)
Definition loopBody (st : state) : Step :=
  match next (tr st) with
  | (None, _) => Return (sourceInfo st) None
  | (Some token, r) =>
      let prevToken := lastToken st in
      let st := mkState r (sourceInfo st) (condStack st) (alreadySeen st) token in
      if String.prefix "#" token then
        match parseDirective token st with
        | Ret _ st => Continue st
        | Raise _ st => Continue st
        | Abort msg => Crash msg
        | OutOfFuel => Starved
        end
      else if String.eqb token "main" then
        match next (tr st) with
        | (Some tok, r) =>
            if String.eqb tok "(" && String.eqb prevToken "int"
            then Continue (mkState r (mkInfo (DoubleQuote (sourceInfo st))
                                             (Bracket (sourceInfo st))
                                             (ConditionalIncludes (sourceInfo st))
                                             true)
                                   (condStack st) (alreadySeen st) (lastToken st))
            else Continue (with_tr st r)
        | (None, r) => Continue (with_tr st r)
        end
      else Continue st
  end.

Fixpoint extractLoop (fuel : nat) (st : state) : Step :=
  match fuel with
  | O => Starved
  | S fuel =>
      match loopBody st with
      | Continue st => extractLoop fuel st
      | r => r
      end
  end.

Definition extractSourceInfo (toks : list string) : Step :=
  extractLoop (S (length toks))
    (mkState (newTokenReader toks) (mkInfo [] [] [] false) [] [] "").

(** The errors of the directives are dropped, so a scanner that gives up
    only changes the error the main loop returns at the end. *)
Definition scanFailed (e : ScanError) (r : Step) : Step :=
  match r with
  | Return info None => Return info (Some (ErrorString e))
  | r => r
  end.

Definition ParseSource (input : string) : Step :=
  match scanInput input with
  | Some (toks, None) => extractSourceInfo toks
  | Some (toks, Some e) => scanFailed e (extractSourceInfo toks)
  | None => Starved
  end.

End legacy.

(** ** package cc: the condition solver (expr_eval.go) *)
Module solver.

(** A single literal of the DNF. [Comparsion] is [None] for presence and
    absence literals. *)
Record macroTest : Type :=
  mkTest { Macro : string; Negated : bool; Comparsion : option Compare }.
Abbreviation andGroup := (list macroTest).
Abbreviation dnf := (list (list macroTest)).

(** [toNegationNormalForm] recurses on [Not{X: v.L}], which is not a
    subterm of its argument; [negated inner] is the body of the
    [case parser.Not] branch, i.e. [toNegationNormalForm (Not inner)].
    In its default branch [inner] is a literal, on which the recursive
    call [toNegationNormalForm(inner)] returns [inner] itself. *)
Fixpoint toNegationNormalForm (e : Expr) : Expr :=
  match e with
  | Not inner => negated inner
  | And l r => And (toNegationNormalForm l) (toNegationNormalForm r)
  | Or l r => Or (toNegationNormalForm l) (toNegationNormalForm r)
  | _ => e
  end
with negated (inner : Expr) : Expr :=
  match inner with
  | Not x => toNegationNormalForm x
  | And l r => Or (negated l) (negated r)
  | Or l r => And (negated l) (negated r)
  | Defined _ | Cmp _ => Not inner
  end.

Definition extractValueMacro (e : Value) : string * bool :=
  match e with
  | Ident v => (v, true)
  | Constant _ => ("", false)
  end.

Definition extractMacro (e : Expr) : Res (string * bool) :=
  match e with
  | Defined name => Ok (name, true)
  | Cmp v =>
      let '(lName, lDefined) := extractValueMacro (Left v) in
      let '(rName, rDefined) := extractValueMacro (Right v) in
      if lDefined && negb rDefined then Ok (lName, true)
      else if negb lDefined && rDefined then Ok (rName, true)
      else if lDefined && rDefined && String.eqb lName rName
           then Ok (lName, true)
      else Ok ("", false)
  | _ => Panic "unknown in extract macro expr"
  end.

(** The distributive law: every conjunction of [left] joined with every
    conjunction of [right]. *)
Definition distribute (left right : dnf) : dnf :=
  flat_map (fun lt => map (fun rt => (lt ++ rt)%list) right) left.

Fixpoint exprToDnf (e : Expr) : Res dnf :=
  match e with
  | And l r =>
      let! left_ := exprToDnf l in
      let! right_ := exprToDnf r in
      Ok (distribute left_ right_)
  | Or l r =>
      let! d := exprToDnf l in
      let! d' := exprToDnf r in
      Ok (d ++ d')%list
  | Not x =>
      let! nm := extractMacro x in
      match x with
      | Cmp c =>
          let! negated := Negate c in
          Ok [[mkTest "" false (Some negated)]]
      | _ => Ok [[mkTest nm.1 true None]]
      end
  | Cmp c => Ok [[mkTest "" false (Some c)]]
  | Defined _ =>
      let! nm := extractMacro e in
      Ok [[mkTest nm.1 false None]]
  end.

Definition toDNF (e : Expr) : Res dnf :=
  exprToDnf (toNegationNormalForm e).

(** The set of platforms on which [macro] is defined. *)
Definition platformsForMacro (macro : string) (platformMacros : PlatformMacros)
  : gset Platform :=
  dom (filter (fun kv => is_Some (kv.2 !! macro)) platformMacros).

(** [platformMacros[p]]: a missing key reads as the nil map. *)
Definition macrosOf (platformMacros : PlatformMacros) (p : Platform) : Macros :=
  default ∅ (platformMacros !! p).

(** Slow path: keep the platforms of [ps] on which the comparison
    evaluates to [!Negated]. *)
Fixpoint slowPath (platformMacros : PlatformMacros) (c : Compare) (neg : bool)
    (ps : list Platform) : Res (gset Platform) :=
  match ps with
  | [] => Ok ∅
  | p :: ps' =>
      let! b := Compare_Eval c (macrosOf platformMacros p) in
      let! filtered := slowPath platformMacros c neg ps' in
      Ok (if Bool.eqb b (negb neg) then {[p]} ∪ filtered else filtered)
  end.

(** The inner loop over the literals of one conjunction, started from
    [termSet]; the fast path leaves the loop once the set is empty. *)
Fixpoint evalConjunct (platformMacros : PlatformMacros) (conjunct : andGroup)
    (termSet : gset Platform) : Res (gset Platform) :=
  match conjunct with
  | [] => Ok termSet
  | lit :: rest =>
      match Comparsion lit with
      | Some c =>
          let! filtered := slowPath platformMacros c (Negated lit) (elements termSet) in
          evalConjunct platformMacros rest filtered
      | None =>
          let macroSet := platformsForMacro (Macro lit) platformMacros in
          let termSet' :=
            if Negated lit then termSet ∖ macroSet else termSet ∩ macroSet in
          if (size termSet' =? 0)%nat then Ok termSet'
          else evalConjunct platformMacros rest termSet'
      end
  end.

(** The outer loop: union of the conjunctions' platform sets. *)
Fixpoint evalDnf (platformMacros : PlatformMacros) (d : dnf)
    (enabledPlatforms : list Platform) (matched : gset Platform)
  : Res (gset Platform) :=
  match d with
  | [] => Ok matched
  | conjunct :: rest =>
      let! termSet := evalConjunct platformMacros conjunct
                        (list_to_set enabledPlatforms) in
      evalDnf platformMacros rest enabledPlatforms (matched ∪ termSet)
  end.

Definition platform_le (a b : Platform) : Prop := ComparePlatform a b <= 0.
#[global] Instance platform_le_dec a b : Decision (platform_le a b).
Proof. unfold platform_le. apply _. Defined.

(** [slices.SortFunc(result, platform.ComparePlatform)]. *)
Definition SortFunc (l : list Platform) : list Platform :=
  merge_sort platform_le l.

Section WithValues.
(** [collections.Set.Values] lives outside these sources: it returns the
    members of the set as a slice in map-iteration order, and may
    return a nil slice ([None]) for an empty set. *)
Variable Values : gset Platform -> option (list Platform).

(** A nil slice is [None]. *)
Definition PlatformsForExpr (e : option Expr) (platformMacros : PlatformMacros)
  : Res (option (list Platform)) :=
  match e with
  | None => Ok None
  | Some e =>
      let! d := toDNF e in
      let enabledPlatforms := (map_to_list platformMacros).*1 in
      let! matched := evalDnf platformMacros d enabledPlatforms ∅ in
      let result := Values matched in
      let result := match result with None => [] | Some r => r end in
      Ok (Some (SortFunc result))
  end.
End WithValues.

End solver.
Export solver.

(** ** Notions used to state the solver's properties *)
Module solver_spec.

(** The operator of every comparison is one of the six the parser accepts
    ([isBinaryCompareOperator]); on any other string [Eval] and [Negate]
    panic. *)
Fixpoint wellFormed (e : Expr) : bool :=
  match e with
  | Defined _ => true
  | Cmp c => isBinaryCompareOperator (Op c)
  | Not x => wellFormed x
  | And l r | Or l r => wellFormed l && wellFormed r
  end.

(** The value of a comparison, when it has one. *)
Definition cmpb (c : Compare) (m : Macros) : bool :=
  match Compare_Eval c m with Ok b => b | _ => false end.

(** The truth value of a well-formed expression. *)
Fixpoint evalb (e : Expr) (m : Macros) : bool :=
  match e with
  | Defined name => bool_decide (is_Some (m !! name))
  | Cmp c => cmpb c m
  | Not x => negb (evalb x m)
  | And l r => evalb l m && evalb r m
  | Or l r => evalb l m || evalb r m
  end.

(** Negations wrap literals only. *)
Fixpoint isNNF (e : Expr) : bool :=
  match e with
  | Defined _ | Cmp _ => true
  | Not (Defined _) | Not (Cmp _) => true
  | Not _ => false
  | And l r | Or l r => isNNF l && isNNF r
  end.

(** Truth of a literal, a conjunction and a DNF under a macro set. *)
Definition litb (lit : macroTest) (m : Macros) : bool :=
  match Comparsion lit with
  | Some c => Bool.eqb (cmpb c m) (negb (Negated lit))
  | None => xorb (Negated lit) (bool_decide (is_Some (m !! Macro lit)))
  end.
Definition conjb (conj : list macroTest) (m : Macros) : bool :=
  forallb (fun lit => litb lit m) conj.
Definition dnfb (d : list (list macroTest)) (m : Macros) : bool :=
  existsb (fun conj => conjb conj m) d.

Definition litValid (lit : macroTest) : bool :=
  match Comparsion lit with
  | Some c => isBinaryCompareOperator (Op c)
  | None => true
  end.
Definition dnfValid (d : list (list macroTest)) : bool :=
  forallb (forallb litValid) d.

(** What is assumed of [collections.Set.Values]: some enumeration of the
    set, possibly the nil slice when the set is empty. *)
Definition ValuesSpec (Values : gset Platform -> option (list Platform)) : Prop :=
  forall s, match Values s with
            | Some l => l ≡ₚ elements s
            | None => s = ∅
            end.

(** The two behaviours [Values] can have on the empty set. *)
Definition ValuesNonNil (s : gset Platform) : option (list Platform) :=
  Some (elements s).
Definition ValuesNilOnEmpty (s : gset Platform) : option (list Platform) :=
  match elements s with
  | [] => None
  | l => Some l
  end.

(** The table of the solver's tests. *)
Definition linuxAMD64 : Platform := mkPlatform "linux" "x86_64".
Definition windowsAMD64 : Platform := mkPlatform "windows" "x86_64".
Definition freshPlatformMacros : gmap Platform (gmap string Z) :=
  <[linuxAMD64 := <["LINUX" := 1]> (<["SHARED_FLAG" := 1]> ∅)]>
    (<[windowsAMD64 := <["WIN32" := 1]> (<["SHARED_FLAG" := 0]> ∅)]> ∅).

(** [(defined(LINUX) && SHARED_FLAG) || defined(WIN32)] *)
Definition comboExpr : Expr :=
  Or (And (Defined "LINUX")
          (Cmp (mkCompare (Ident "SHARED_FLAG") "!=" (Constant 0))))
     (Defined "WIN32").

End solver_spec.
Export solver_spec.

(** ** Notions used to state the parser's properties *)
Module parser_spec.

(** The newline and the double quote, as one-character strings. *)
Definition nl : string := String "010"%char EmptyString.
Definition dq : string := String "034"%char EmptyString.


(** The two stacks have the same height and no group is empty. *)
Definition lockstep (p : parser) : bool :=
  Nat.eqb (length (conditionStack p)) (length (exprGroupStack p))
  && forallb (fun g => negb (Nat.eqb (length g) 0)) (exprGroupStack p).


(** The tokens of one buffer: what the split function returns on [data],
    called again and again on what the previous call left, until the data
    is used up. *)
Fixpoint splitAll (fuel : nat) (data : string) : option (list string) :=
  match fuel with
  | O => None
  | S fuel =>
      match tokenizer (S (String.length data)) data with
      | None => None
      | Some None => Some []
      | Some (Some (tok, rest)) =>
          match splitAll fuel rest with
          | Some toks => Some (tok :: toks)
          | None => None
          end
      end
  end.

Definition bufferTokens (data : string) : option (list string) :=
  splitAll (S (String.length data)) data.

(** The tokens of an input cut into pieces of [startBufSize] bytes, each
    piece tokenized as one buffer. *)
Fixpoint pieceTokens (fuel : nat) (input : string) : option (list string) :=
  match fuel with
  | O => None
  | S fuel =>
      match input with
      | EmptyString => Some []
      | _ =>
          match bufferTokens (splitAt startBufSize input).1,
                pieceTokens fuel (splitAt startBufSize input).2 with
          | Some t1, Some t2 => Some (t1 ++ t2)%list
          | _, _ => None
          end
      end
  end.

(** The scanner's buffer is empty before the first read and has its
    starting size from then on; a buffer that is not full means that the
    reader is exhausted. *)
Definition scanInv (s : Scanner) : Prop :=
  match sc_err s with
  | None =>
      (sc_start s + String.length (sc_data s) <= sc_len s)%nat
      /\ (sc_len s = 0%nat \/ sc_len s = startBufSize)
      /\ ((sc_start s + String.length (sc_data s) < sc_len s)%nat
          -> sc_r s = EmptyString)
  | Some e => e = EOF /\ sc_data s = EmptyString
  end.

Definition scanMeasure (s : Scanner) : nat :=
  3 * String.length (sc_r s) + 2 * String.length (sc_data s)
  + match sc_err s with None => 1 | Some _ => 0 end.

(** A token the main loop passes over: neither a directive nor [main]. *)
Definition inert (t : string) : bool :=
  negb (String.prefix "#" t) && negb (String.eqb t "main").

(** The handler of the directive [tok] cannot fail on the tokens [rest]
    that follow it: an [#include] has its operand, one more token, and yet
    another one after an opening angle bracket; [#ifdef], [#ifndef],
    [#elifdef] and [#elifndef] have a token to take for the identifier;
    the guard of an [#if] or [#elif] is one that [parseExpr] returns an
    expression for. Any other directive cannot fail. *)
Definition directiveOK (tok : string) (rest : list string) : bool :=
  if String.eqb tok "#include" then
    match nextFrom false rest with
    | (Some a, rest') =>
        if String.eqb a "<"
        then bool_decide (is_Some (nextFrom false rest').1)
        else true
    | (None, _) => false
    end
  else if String.eqb tok "#ifdef" || String.eqb tok "#ifndef"
          || String.eqb tok "#elifdef" || String.eqb tok "#elifndef" then
    bool_decide (is_Some (parseIdentFrom rest).1)
  else if String.eqb tok "#if" || String.eqb tok "#elif" then
    match parseExprFrom (mkReader rest None) with
    | Ret _ _ => true
    | _ => false
    end
  else true.

(** Every token of [toks] that names a directive is followed by tokens
    its handler cannot fail on. *)
Fixpoint directivesOK (toks : list string) : bool :=
  match toks with
  | [] => true
  | t :: rest => directiveOK t rest && directivesOK rest
  end.

(** Inputs none of whose directives can fail. *)
Definition tolerated (input : string) : bool :=
  match tokenize input with
  | Some toks => directivesOK toks
  | None => false
  end.

(** The errors the directive handlers return. *)
Definition directiveError (err : string) : bool :=
  String.eqb err "unexpected EOF after #include"
  || String.eqb err "unexpected EOF in bracketed include"
  || String.eqb err "expected identifier, found EOF"
  || String.eqb err "expected more tokens: <nil>"
  || String.eqb err "neither a valid identifier of integer constant"
  || String.prefix "expected ), got " err.

(** The reader holds no look-ahead and none of the directives still to
    come can fail. *)
Definition readerOK (r : tokenReader) : Prop :=
  buf r = None /\ directivesOK (scanner r) = true.

(** An outcome whose error, if it is one, is the error of a directive
    handler. *)
Definition raiseOK {S A} (out : Out S A) : Prop :=
  match out with
  | Raise err _ => directiveError err = true
  | _ => True
  end.

(** The state the main loop is in after [n] iterations on [input]. *)
Fixpoint stateAfter (n : nat) (p : parser) : parser :=
  match n with
  | O => p
  | S n =>
      match loopBody p with
      | Continue p' => stateAfter n p'
      | _ => p
      end
  end.

Definition parserOn (input : string) : parser :=
  newParser (default [] (tokenize input)).

(** The include conditions of a parse result. *)
Definition conditionsOf (r : Step) : list (option Expr) :=
  match r with
  | Return info _ => map Condition (Includes info)
  | _ => []
  end.

(** A byte that ends a word token. *)
Definition isDelimiter (c : ascii) : bool :=
  isEOL c || isOperatorChar c || isSpace c || isParanthesis c.

(** A path written without delimiters and without double quotes. *)
Definition plainWord (w : string) : bool :=
  forallb (fun c => negb (isDelimiter c) && negb (c =? "034")%char)
          (list_ascii_of_string w).

(** How one iteration of the main loop can change the two stacks: not at
    all, by opening a block, by closing the innermost block, or by
    replacing the innermost branch condition and extending the innermost
    group. *)
Inductive stackShape (cs : list Expr) (gs : list (list Expr))
  : list Expr -> list (list Expr) -> Prop :=
  | shape_same : stackShape cs gs cs gs
  | shape_push e : stackShape cs gs (cs ++ [e])%list (gs ++ [[e]])%list
  | shape_pop cs' c gs' g :
      cs = (cs' ++ [c])%list -> gs = (gs' ++ [g])%list ->
      stackShape cs gs cs' gs'
  | shape_replace cs' c gs' g x y :
      cs = (cs' ++ [c])%list -> gs = (gs' ++ [g])%list ->
      stackShape cs gs (cs' ++ [x])%list (gs' ++ [(g ++ [y])%list])%list.

(** A nested block inside the first branch of an outer one, followed by the
    outer [#else]. *)
Definition nestedThenElse : string :=
  "#ifdef A" ++ nl ++ "#ifdef B" ++ nl ++ "#else" ++ nl ++ "#endif" ++ nl
  ++ "#else" ++ nl ++ "#include <x.h>" ++ nl ++ "#endif" ++ nl.



(** The number of tokens a reader still delivers, and the number of tokens
    an expression parser has not consumed. *)
Definition plen (r : tokenReader) : nat := length (pending r).
Definition rem (ts : tokensStream) : nat := length (tokens ts) - idx ts.
Definition pplen (p : parser) : nat := plen (tr p).

(** An outcome that is not the exhaustion of the fuel and that, when there
    is a state, has not made the measure [m] larger than [bound]. *)
Definition settled {S A} (m : S -> nat) (bound : nat) (out : Out S A) : Prop :=
  match out with
  | OutOfFuel => False
  | Ret _ s | Raise _ s => (m s <= bound)%nat
  | Abort _ => True
  end.

(** An [#elif] placed after the [#else] of the same block, and the same
    source without that [#elif] line. *)
Definition elifAfterElse : string :=
  "#ifdef A" ++ nl ++ "#else" ++ nl ++ "#elif B" ++ nl
  ++ "#include <x.h>" ++ nl ++ "#endif" ++ nl.
Definition elifRemoved : string :=
  "#ifdef A" ++ nl ++ "#else" ++ nl
  ++ "#include <x.h>" ++ nl ++ "#endif" ++ nl.

End parser_spec.
Export parser_spec.

(** ** The source grouper *)
Module grouper.

(** Modelled from the spec: [groupSourcesByUnits] and its helpers are in
    source_groups.go, which is not among the sources (its test
    source_groups_test.go is). The definitions below follow section 4.4 of
    the specification: initial groups by base name, edges from the
    non-system unconditional includes, strongly connected components merged
    under their lexicographically smallest member (the default [merge]
    mode), and the dependencies of a group taken from the edges that leave
    its component. Every referenced group id has to exist in the output, so
    the target of such an edge is named by the id of its own merged
    group. *)
Record sourceGroup : Type :=
  mkGroup { sources : list string; dependsOn : list string; subGroups : list string }.

Fixpoint takeUntil (sep : ascii) (l : list ascii) : list ascii :=
  match l with
  | [] => []
  | c :: rest => if (c =? sep)%char then [] else c :: takeUntil sep rest
  end.

Fixpoint dropThrough (sep : ascii) (l : list ascii) : option (list ascii) :=
  match l with
  | [] => None
  | c :: rest => if (c =? sep)%char then Some rest else dropThrough sep rest
  end.

(** The last element of a slash separated path. *)
Definition baseName (file : string) : string :=
  string_of_list_ascii (rev (takeUntil "/" (rev (list_ascii_of_string file)))).

(** The name without its extension, the suffix that starts at the last dot. *)
Definition stripExt (name : string) : string :=
  match dropThrough "." (rev (list_ascii_of_string name)) with
  | Some r => string_of_list_ascii (rev r)
  | None => name
  end.

(** The id of the initial group of a file: its base name, extension
    stripped. *)
Definition groupIdOf (file : string) : string := stripExt (baseName file).

Definition string_le (a b : string) : Prop := String.leb a b = true.
#[global] Instance string_le_dec a b : Decision (string_le a b).
Proof. unfold string_le. apply _. Defined.

Definition sortStrings (l : list string) : list string := merge_sort string_le l.

(** A file that is missing from the map has no includes. *)
Definition infoOf (infos : gmap string SourceInfo) (file : string) : SourceInfo :=
  default (mkSourceInfo [] false) (infos !! file).

Definition initialIds (files : list string) : list string :=
  remove_dups (map groupIdOf files).

(** The group that owns an included file, found by base name among the
    known files. *)
Definition resolveInclude (files : list string) (path : string) : option string :=
  if existsb (fun f => String.eqb (baseName f) (baseName path)) files
  then Some (groupIdOf path) else None.

(** The edges a file contributes: one for each include that is neither a
    system include nor conditional and that resolves to another group. *)
Definition fileEdges (files : list string) (infos : gmap string SourceInfo)
    (file : string) : list (string * string) :=
  flat_map
    (fun inc =>
       if IsSystemInclude inc then []
       else match Condition inc with
            | Some _ => []
            | None =>
                match resolveInclude files (Path inc) with
                | Some target =>
                    if String.eqb target (groupIdOf file) then []
                    else [(groupIdOf file, target)]
                | None => []
                end
            end)
    (Includes (infoOf infos file)).

Definition groupEdges (files : list string) (infos : gmap string SourceInfo)
  : list (string * string) :=
  flat_map (fileEdges files infos) files.

(** *** Strongly connected components *)

Definition successors (E : list (string * string)) (S : gset string) : gset string :=
  list_to_set (map snd (filter (fun e => e.1 ∈ S) E)).

(** [n] rounds of adding the successors. *)
Fixpoint closure (E : list (string * string)) (n : nat) (S : gset string)
  : gset string :=
  match n with
  | O => S
  | S n => closure E n (S ∪ successors E S)
  end.

Definition reachableFrom (E : list (string * string)) (nodes : list string)
    (a : string) : gset string :=
  closure E (length nodes) {[a]}.

(** The members of the component of [a]. *)
Definition sccOf (E : list (string * string)) (nodes : list string) (a : string)
  : list string :=
  filter (fun b => b ∈ reachableFrom E nodes a /\ a ∈ reachableFrom E nodes b) nodes.

(** The id of the merged group: the smallest member. *)
Definition representative (E : list (string * string)) (nodes : list string)
    (a : string) : string :=
  hd a (sortStrings (sccOf E nodes a)).

Definition mergedGroup (files : list string) (E : list (string * string))
    (nodes : list string) (r : string) : sourceGroup :=
  let members := sccOf E nodes r in
  {| sources := sortStrings (filter (fun f => groupIdOf f ∈ members) files);
     dependsOn :=
       sortStrings
         (remove_dups
            (map (fun e => representative E nodes e.2)
                 (filter (fun e => e.1 ∈ members /\ e.2 ∉ members) E)));
     subGroups := if (1 <? length members)%nat then sortStrings members else [] |}.

Definition groupSourcesByUnits (files : list string)
    (infos : gmap string SourceInfo) : gmap string sourceGroup :=
  let nodes := initialIds files in
  let E := groupEdges files infos in
  list_to_map
    (map (fun r => (r, mergedGroup files E nodes r))
         (remove_dups (map (representative E nodes) nodes))).

(** The graph the [dependsOn] lists induce on the groups. *)
Definition dependsEdge (G : gmap string sourceGroup) (a b : string) : Prop :=
  exists g, G !! a = Some g /\ b ∈ dependsOn g.

(** The inputs of two cases of the grouper's test. *)
Definition quoted (path : string) : Include := mkInclude path false None.
Definition cyclicInput : gmap string SourceInfo :=
  list_to_map
    [("a.h", mkSourceInfo [quoted "b.h"] false);
     ("a.c", mkSourceInfo [quoted "a.h"] false);
     ("b.h", mkSourceInfo [quoted "a.h"] false);
     ("b.cc", mkSourceInfo [quoted "b.h"] false);
     ("c.h", mkSourceInfo [quoted "a.h"] false)].
Definition cyclicFiles : list string := ["a.h"; "a.c"; "b.h"; "b.cc"; "c.h"].

End grouper.
Export grouper.

(** ** package cc: the directives of a BUILD file (config.go) *)
Module config.

Definition cc_group_directive : string := "cc_group".
Definition cc_group_unit_cycles : string := "cc_group_unit_cycles".

(** single cc_library per directory / per translation unit *)
Definition groupSourcesByDirectory : string := "directory".
Definition groupSourcesByUnit : string := "unit".
Definition sourceGroupingModes : list string :=
  [groupSourcesByDirectory; groupSourcesByUnit].

(** merge the groups of a cycle / leave them to the user *)
Definition mergeOnGroupsCycle : string := "merge".
Definition warnOnGroupsCycle : string := "warn".
Definition groupsCycleHandlingModes : list string :=
  [mergeOnGroupsCycle; warnOnGroupsCycle].

Record cppConfig : Type :=
  mkConfig { groupingMode : string; groupsCycleHandlingMode : string }.

(** [rule.Directive] *)
Record Directive : Type := mkDirective { Key : string; Value : string }.

Definition newCppConfig : cppConfig :=
  mkConfig groupSourcesByDirectory mergeOnGroupsCycle.

(** Compares the directive value with the expected choices: the new value
    of the target, and whether the warning was logged. *)
Definition selectDirectiveChoice (target : string) (options : list string)
    (d : Directive) : string * bool :=
  match find (fun choice => String.eqb choice (Value d)) options with
  | Some choice => (choice, false)
  | None => (target, true)
  end.

(** The body of the loop over [f.Directives]; [log] collects the
    directives a warning was logged for. *)
Definition applyDirective (st : cppConfig * list Directive) (d : Directive)
  : cppConfig * list Directive :=
  let '(conf, log) := st in
  if String.eqb (Key d) cc_group_directive then
    let '(mode, warned) :=
      selectDirectiveChoice (groupingMode conf) sourceGroupingModes d in
    (mkConfig mode (groupsCycleHandlingMode conf),
     if warned then (log ++ [d])%list else log)
  else if String.eqb (Key d) cc_group_unit_cycles then
    let '(mode, warned) :=
      selectDirectiveChoice (groupsCycleHandlingMode conf)
                            groupsCycleHandlingModes d in
    (mkConfig (groupingMode conf) mode,
     if warned then (log ++ [d])%list else log)
  else (conf, log).

(** [Configure]: the configuration of a directory, from that of its parent
    ([None] at the root, where [c.Exts] has no entry yet) and the
    directives of its BUILD file ([None] when there is no file). The
    parent's configuration is cloned, never updated. *)
Definition Configure (parentConf : option cppConfig)
    (f : option (list Directive)) : cppConfig * list Directive :=
  let conf := match parentConf with
              | None => newCppConfig
              | Some parent => parent
              end in
  match f with
  | None => (conf, [])
  | Some directives => foldl applyDirective (conf, []) directives
  end.

End config.

(** ** Notions used to state further properties *)
Module coverage_spec.

(** The shapes of the tokens: a word is a non-empty run of bytes none of
    which is a delimiter. *)
Definition isWord (t : string) : bool :=
  negb (String.eqb t EmptyString)
  && forallb (fun c => negb (isDelimiter c)) (list_ascii_of_string t).
Definition isParenToken (t : string) : bool :=
  match t with
  | String c EmptyString => isParanthesis c
  | _ => false
  end.
Definition isOperatorToken (t : string) : bool :=
  match t with
  | String c EmptyString => isOperatorChar c
  | String c (String d EmptyString) => isOperatorChar c && (d =? "=")%char
  | _ => false
  end.
Definition isToken (t : string) : bool :=
  String.eqb t EOL || isParenToken t || isOperatorToken t || isWord t.

(** [n] copies of the byte [c]. *)
Fixpoint repeatByte (n : nat) (c : ascii) : string :=
  match n with
  | O => EmptyString
  | S n => String c (repeatByte n c)
  end.

(** The text of a comment: no newline in a line comment, no closing
    delimiter in a block comment. *)
Definition noNewline (s : string) : bool :=
  forallb (fun c => negb (isEOL c)) (list_ascii_of_string s).
Fixpoint hasClose (s : string) : bool :=
  match s with
  | String c1 ((String c2 _) as tl) =>
      (c1 =? "*")%char && (c2 =? "/")%char || hasClose tl
  | _ => false
  end.

(** An outcome of the expression parser: an expression it returns is well
    formed and the only panic is that of [tokensStream.next]. *)
Definition abortOK {S A} (out : Out S A) : Prop :=
  match out with
  | Abort msg => msg = "unexpected EOL in expression"
  | _ => True
  end.
Definition exprOutcome {S} (out : Out S Expr) : Prop :=
  match out with
  | Ret e _ => wellFormed e = true
  | Abort msg => msg = "unexpected EOL in expression"
  | Raise _ _ | OutOfFuel => True
  end.

(** A literal of the DNF that carries a comparison is neither negated nor
    named. *)
Definition litShape (lit : macroTest) : bool :=
  match Comparsion lit with
  | Some _ => negb (Negated lit) && String.eqb (Macro lit) EmptyString
  | None => true
  end.
Definition dnfShape (d : list (list macroTest)) : bool :=
  negb (Nat.eqb (length d) 0)
  && forallb (fun conj => negb (Nat.eqb (length conj) 0) && forallb litShape conj) d.

(** Both modes of a configuration are among the known choices. *)
Definition validConfig (c : config.cppConfig) : bool :=
  Contains config.sourceGroupingModes (config.groupingMode c)
  && Contains config.groupsCycleHandlingModes (config.groupsCycleHandlingMode c).

(** The values of the directives with key [key] that are among
    [options], in order. *)
Definition validValues (key : string) (options : list string)
    (ds : list config.Directive) : list string :=
  map config.Value
    (filter (fun d => String.eqb (config.Key d) key = true
                      /\ Contains options (config.Value d) = true) ds).

(** The directives with a known key and a value that is no choice. *)
Definition rejected (ds : list config.Directive) : list config.Directive :=
  filter (fun d =>
            (String.eqb (config.Key d) config.cc_group_directive = true
             /\ Contains config.sourceGroupingModes (config.Value d) = false)
            \/ (String.eqb (config.Key d) config.cc_group_unit_cycles = true
                /\ Contains config.groupsCycleHandlingModes (config.Value d) = false))
         ds.

(** All macros of all platforms of a table have the value 1. *)
Definition allOnes (known : PlatformMacros) : Prop :=
  forall p macros name v,
    known !! p = Some macros -> macros !! name = Some v -> v = 1.

(** The sources of every include condition are well formed. *)
Definition conditionsWellFormed (info : SourceInfo) : bool :=
  forallb (fun inc => match Condition inc with
                      | Some e => wellFormed e
                      | None => true
                      end) (Includes info).

(** Every expression the parser state holds is well formed. *)
Definition wfStacks (p : parser) : bool :=
  forallb wellFormed (conditionStack p)
  && forallb (forallb wellFormed) (exprGroupStack p)
  && conditionsWellFormed (sourceInfo p).

(** [si'] has the includes of [si], in the same order, possibly followed
    by more, and has [HasMain] set if [si] has. *)
Definition extends (si si' : SourceInfo) : Prop :=
  (exists more, Includes si' = (Includes si ++ more)%list)
  /\ (HasMain si = true -> HasMain si' = true).

(** What a directive handler started in state [p] may end with. *)
Definition stepOK (p : parser) (out : Out parser unit) : Prop :=
  match out with
  | Ret _ p' => wfStacks p' = true /\ extends (sourceInfo p) (sourceInfo p')
  | Raise _ p' => sourceInfo p' = sourceInfo p
  | Abort msg => msg = "unexpected EOL in expression"
  | OutOfFuel => True
  end.

(** What the main loop started in state [p] may end with. *)
Definition loopOK (p : parser) (r : Step) : Prop :=
  match r with
  | Continue p' =>
      lockstep p' = true /\ wfStacks p' = true
      /\ extends (sourceInfo p) (sourceInfo p')
  | Return si _ => extends (sourceInfo p) si /\ conditionsWellFormed si = true
  | Crash msg => msg = "unexpected EOL in expression"
  | Starved => False
  end.

(** A token of a guard that neither ends the line nor continues it. *)
Definition isPlainTok (t : string) : bool :=
  negb (String.eqb t EOL) && negb (String.eqb t "\").

(** A name that is not empty and has no slash. *)
Definition isField (s : string) : bool :=
  negb (String.eqb s EmptyString)
  && forallb (fun c => negb (c =? "/")%char) (list_ascii_of_string s).

(** A byte that [strconv] reads as a digit of [base]. *)
Definition digitOK (base : Z) (c : ascii) : bool :=
  negb (c =? "_")%char
  && match digitVal c with
     | Some d => (0 <=? d) && (d <? base)
     | None => false
     end.

(** The literal part of a token: its bytes before the first u, U, l or L. *)
Definition literalPart (raw : string) : list ascii :=
  (spanLiteral (list_ascii_of_string raw)).1.

(** The macro name a definition of [ParseMacros] is about: what is left of
    the first [=], after the optional [-D]. *)
Definition macroName (d : string) : string :=
  match cutAt "=" (TrimPrefix d "-D") with
  | Some (name, _) => name
  | None => TrimPrefix d "-D"
  end.

(** Every name is an identifier and every value a non-negative [int]. *)
Definition goodMacros (m : Macros) : Prop :=
  forall name v, m !! name = Some v ->
    macroIdentifierRegex name = true /\ 0 <= v < 2 ^ 63.

End coverage_spec.
Export coverage_spec.

(** * Properties *)


Section SolverFacts.

Implicit Types (e : Expr) (c : Compare) (m : gmap string Z)
               (M : gmap Platform (gmap string Z)) (p : Platform).

Lemma validOp_cases op :
  isBinaryCompareOperator op = true ->
  op = "==" \/ op = "!=" \/ op = "<" \/ op = "<=" \/ op = ">" \/ op = ">=".
Proof.
  unfold isBinaryCompareOperator. rewrite !orb_true_iff, !String.eqb_eq. tauto.
Qed.


Lemma Compare_Eval_valid c m :
  isBinaryCompareOperator (Op c) = true -> Compare_Eval c m = Ok (cmpb c m).
Proof.
  intros H. apply validOp_cases in H. unfold cmpb, Compare_Eval.
  destruct H as [H|[H|[H|[H|[H|H]]]]]; rewrite H; reflexivity.
Qed.

Lemma Negate_valid c :
  isBinaryCompareOperator (Op c) = true ->
  exists c', Negate c = Ok c' /\ isBinaryCompareOperator (Op c') = true
             /\ forall m, cmpb c' m = negb (cmpb c m).
Proof.
  intros H. apply validOp_cases in H. destruct c as [l op r]. simpl in H.
  unfold Negate. simpl.
  destruct H as [H|[H|[H|[H|[H|H]]]]]; subst op; simpl;
    eexists; (split; [reflexivity|]); (split; [reflexivity|]);
    intros m; unfold cmpb, Compare_Eval; simpl;
    generalize (Resolve l m).1 (Resolve r m).1; intros x y.
  - reflexivity.
  - now rewrite negb_involutive.
  - rewrite Z.geb_leb. apply Z.leb_antisym.
  - rewrite Z.gtb_ltb. apply Z.ltb_antisym.
  - rewrite Z.gtb_ltb. now rewrite Z.ltb_antisym, negb_involutive.
  - rewrite Z.geb_leb. now rewrite Z.leb_antisym, negb_involutive.
Qed.


Lemma Eval_wellFormed e m : wellFormed e = true -> Eval e m = Ok (evalb e m).
Proof.
  induction e as [n|x IH|l IHl r IHr|l IHl r IHr|c]; simpl; intros H.
  - reflexivity.
  - now rewrite IH.
  - apply andb_true_iff in H as [Hl Hr]. rewrite IHl by done. simpl.
    destruct (evalb l m); simpl; [now apply IHr|reflexivity].
  - apply andb_true_iff in H as [Hl Hr]. rewrite IHl by done. simpl.
    destruct (evalb l m); simpl; [reflexivity|now apply IHr].
  - now apply Compare_Eval_valid.
Qed.

(** *** Negation normal form *)


Lemma nnf_facts e :
  (isNNF (toNegationNormalForm e) = true
   /\ (wellFormed e = true -> wellFormed (toNegationNormalForm e) = true)
   /\ forall m, evalb (toNegationNormalForm e) m = evalb e m)
  /\ (isNNF (negated e) = true
      /\ (wellFormed e = true -> wellFormed (negated e) = true)
      /\ forall m, evalb (negated e) m = negb (evalb e m)).
Proof.
  induction e as [n|x IH|l IHl r IHr|l IHl r IHr|c]; simpl.
  - repeat split; auto.
  - destruct IH as [(A1 & A2 & A3) (B1 & B2 & B3)].
    repeat split; auto.
    intros m. now rewrite A3, negb_involutive.
  - destruct IHl as [(A1 & A2 & A3) (B1 & B2 & B3)].
    destruct IHr as [(C1 & C2 & C3) (D1 & D2 & D3)].
    repeat split.
    + now rewrite A1, C1.
    + intros H. apply andb_true_iff in H as [? ?]. rewrite A2, C2; auto.
    + intros m. now rewrite A3, C3.
    + now rewrite B1, D1.
    + intros H. apply andb_true_iff in H as [? ?]. rewrite B2, D2; auto.
    + intros m. now rewrite B3, D3, negb_andb.
  - destruct IHl as [(A1 & A2 & A3) (B1 & B2 & B3)].
    destruct IHr as [(C1 & C2 & C3) (D1 & D2 & D3)].
    repeat split.
    + now rewrite A1, C1.
    + intros H. apply andb_true_iff in H as [? ?]. rewrite A2, C2; auto.
    + intros m. now rewrite A3, C3.
    + now rewrite B1, D1.
    + intros H. apply andb_true_iff in H as [? ?]. rewrite B2, D2; auto.
    + intros m. now rewrite B3, D3, negb_orb.
  - repeat split; auto.
Qed.



Lemma dnfb_app d1 d2 m : dnfb (d1 ++ d2)%list m = dnfb d1 m || dnfb d2 m.
Proof. apply existsb_app. Qed.

Lemma conjb_app (g1 g2 : list macroTest) m :
  conjb (g1 ++ g2)%list m = conjb g1 m && conjb g2 m.
Proof. apply forallb_app. Qed.

Lemma dnfb_distribute d1 d2 m :
  dnfb (distribute d1 d2) m = dnfb d1 m && dnfb d2 m.
Proof.
  unfold distribute. induction d1 as [|lt d1 IH]; simpl; [reflexivity|].
  rewrite dnfb_app, IH. clear IH.
  assert (dnfb (map (fun rt => (lt ++ rt)%list) d2) m = conjb lt m && dnfb d2 m) as ->.
  { induction d2 as [|rt d2 IH2]; simpl.
    - now rewrite andb_false_r.
    - rewrite IH2, conjb_app. destruct (conjb lt m); reflexivity. }
  destruct (conjb lt m), (dnfb d1 m), (dnfb d2 m); reflexivity.
Qed.

Lemma dnfValid_distribute d1 d2 :
  dnfValid d1 = true -> dnfValid d2 = true -> dnfValid (distribute d1 d2) = true.
Proof.
  unfold dnfValid, distribute. rewrite !forallb_forall.
  intros H1 H2 conj Hin. apply in_flat_map in Hin as (lt & Hlt & Hin).
  apply in_map_iff in Hin as (rt & <- & Hrt).
  rewrite forallb_app. rewrite (H1 _ Hlt), (H2 _ Hrt). reflexivity.
Qed.

Lemma extractMacro_Cmp c : exists nm, extractMacro (Cmp c) = Ok nm.
Proof.
  unfold extractMacro.
  destruct (extractValueMacro (Left c)) as [ln [|]],
           (extractValueMacro (Right c)) as [rn [|]]; simpl;
    try destruct (String.eqb ln rn); eauto.
Qed.

Lemma exprToDnf_correct e :
  isNNF e = true -> wellFormed e = true ->
  exists d, exprToDnf e = Ok d /\ dnfValid d = true
            /\ forall m, dnfb d m = evalb e m.
Proof.
  induction e as [n|x IH|l IHl r IHr|l IHl r IHr|c]; intros Hn Hw.
  - eexists; repeat split. intros m. unfold dnfb, conjb, litb; simpl.
    now rewrite andb_true_r, orb_false_r.
  - destruct x as [n| | | |c]; try discriminate.
    + eexists; repeat split. intros m. unfold dnfb, conjb, litb; simpl.
      rewrite andb_true_r, orb_false_r. reflexivity.
    + simpl in Hw. destruct (Negate_valid c Hw) as (c' & E & V & Hc').
      destruct (extractMacro_Cmp c) as [nm Hnm].
      cbn [exprToDnf]. rewrite Hnm. cbn [bind]. rewrite E. cbn [bind].
      eexists; repeat split.
      * unfold dnfValid, litValid; simpl. now rewrite V.
      * intros m. unfold dnfb, conjb, litb; simpl.
        rewrite andb_true_r, orb_false_r, Hc'.
        now destruct (cmpb c m).
  - simpl in Hn, Hw.
    apply andb_true_iff in Hn as [Hn1 Hn2]. apply andb_true_iff in Hw as [Hw1 Hw2].
    destruct (IHl Hn1 Hw1) as (d1 & E1' & V1 & E1).
    destruct (IHr Hn2 Hw2) as (d2 & E2' & V2 & E2).
    cbn [exprToDnf]. rewrite E1', E2'. cbn [bind].
    eexists; repeat split.
    + now apply dnfValid_distribute.
    + intros m. simpl. now rewrite dnfb_distribute, E1, E2.
  - simpl in Hn, Hw.
    apply andb_true_iff in Hn as [Hn1 Hn2]. apply andb_true_iff in Hw as [Hw1 Hw2].
    destruct (IHl Hn1 Hw1) as (d1 & E1' & V1 & E1).
    destruct (IHr Hn2 Hw2) as (d2 & E2' & V2 & E2).
    cbn [exprToDnf]. rewrite E1', E2'. cbn [bind].
    eexists; repeat split.
    + unfold dnfValid in *. now rewrite forallb_app, V1, V2.
    + intros m. simpl. now rewrite dnfb_app, E1, E2.
  - eexists; repeat split.
    + unfold dnfValid, litValid; simpl. simpl in Hw. now rewrite Hw.
    + intros m. unfold dnfb, conjb, litb; simpl.
      rewrite andb_true_r, orb_false_r. now destruct (cmpb c m).
Qed.

Lemma toDNF_correct e :
  wellFormed e = true ->
  exists d, toDNF e = Ok d /\ dnfValid d = true
            /\ forall m, dnfb d m = evalb e m.
Proof.
  intros Hw. destruct (nnf_facts e) as [(N & W & E) _].
  destruct (exprToDnf_correct _ N (W Hw)) as (d & Hd & V & Ed).
  exists d. repeat split; auto. intros m. now rewrite Ed, E.
Qed.

(** *** Evaluation of the DNF over the platform table *)

Lemma platformsForMacro_elem macro M p :
  p ∈ platformsForMacro macro M <-> is_Some (macrosOf M p !! macro).
Proof.
  unfold platformsForMacro, macrosOf. rewrite elem_of_dom. split.
  - intros [ms Hms]. apply map_lookup_filter_Some in Hms as [Hp Hm].
    now rewrite Hp.
  - intros Hm. destruct (M !! p) as [ms|] eqn:Hp; simpl in Hm.
    + exists ms. now apply map_lookup_filter_Some.
    + rewrite lookup_empty in Hm. now destruct Hm.
Qed.

Lemma slowPath_spec M c neg (ps : list Platform) :
  isBinaryCompareOperator (Op c) = true ->
  exists F, slowPath M c neg ps = Ok F
            /\ forall p, p ∈ F <-> p ∈ ps
                 /\ Bool.eqb (cmpb c (macrosOf M p)) (negb neg) = true.
Proof.
  intros V. induction ps as [|q ps IH]; simpl.
  2: destruct IH as (F & HF & Hin).
  - exists ∅. split; [reflexivity|]. intros p.
    split; [intros H; now apply not_elem_of_empty in H
           |intros [H _]; now apply not_elem_of_nil in H].
  - rewrite (Compare_Eval_valid _ _ V). cbn [bind]. rewrite HF. cbn [bind].
    eexists. split; [reflexivity|]. intros p.
    destruct (Bool.eqb (cmpb c (macrosOf M q)) (negb neg)) eqn:Hq.
    + rewrite elem_of_union, elem_of_singleton, Hin, elem_of_cons.
      split; [intros [->|[? ?]]; auto|intros [[->|?] ?]; auto].
    + rewrite Hin, elem_of_cons.
      split; [intros [? ?]; auto|intros [[->|?] ?]; auto; congruence].
Qed.

Lemma evalConjunct_spec M (conj : list macroTest) :
  forallb litValid conj = true ->
  forall T : gset Platform,
  exists T', evalConjunct M conj T = Ok T'
             /\ forall p, p ∈ T' <-> p ∈ T /\ conjb conj (macrosOf M p) = true.
Proof.
  induction conj as [|lit rest IH]; intros V T; simpl.
  - exists T. split; [reflexivity|]. intros p. tauto.
  - simpl in V. apply andb_true_iff in V as [Vl Vr].
    unfold litb, litValid in *.
    destruct (Comparsion lit) as [c|].
    + destruct (slowPath_spec M c (Negated lit) (elements T) Vl) as (F & -> & HF).
      cbn [bind]. destruct (IH Vr F) as (T' & -> & HT').
      exists T'. split; [reflexivity|]. intros p.
      rewrite HT', HF, elem_of_elements, andb_true_iff. tauto.
    + set (T1 := if Negated lit then T ∖ platformsForMacro (Macro lit) M
                 else T ∩ platformsForMacro (Macro lit) M).
      assert (HT1 : forall p, p ∈ T1 <->
                p ∈ T /\ xorb (Negated lit)
                           (bool_decide (is_Some (macrosOf M p !! Macro lit))) = true).
      { intros p. unfold T1. destruct (Negated lit).
        - rewrite elem_of_difference, platformsForMacro_elem.
          case_bool_decide; simpl; intuition congruence.
        - rewrite elem_of_intersection, platformsForMacro_elem.
          case_bool_decide; simpl; intuition congruence. }
      destruct (size T1 =? 0)%nat eqn:Hsz.
      * exists T1. split; [reflexivity|]. intros p.
        apply Nat.eqb_eq, size_empty_inv in Hsz.
        split; [intros Hp; apply Hsz in Hp; set_solver|].
        rewrite andb_true_iff. intros (? & ? & ?). apply HT1. auto.
      * destruct (IH Vr T1) as (T' & -> & HT').
        exists T'. split; [reflexivity|]. intros p.
        rewrite HT', HT1, andb_true_iff. tauto.
Qed.

Lemma evalDnf_spec M (d : list (list macroTest)) (en : list Platform) :
  dnfValid d = true ->
  forall matched : gset Platform,
  exists R, evalDnf M d en matched = Ok R
            /\ forall p, p ∈ R <-> p ∈ matched
                 \/ (p ∈ en /\ dnfb d (macrosOf M p) = true).
Proof.
  induction d as [|conj rest IH]; intros V matched; simpl.
  - exists matched. split; [reflexivity|]. intros p.
    split; [auto|intros [?|[_ ?]]; [auto|discriminate]].
  - simpl in V. apply andb_true_iff in V as [Vc Vr].
    destruct (evalConjunct_spec M conj Vc (list_to_set en)) as (T & -> & HT).
    cbn [bind]. destruct (IH Vr (matched ∪ T)) as (R & -> & HR).
    exists R. split; [reflexivity|]. intros p.
    rewrite HR, elem_of_union, HT, elem_of_list_to_set, orb_true_iff. tauto.
Qed.

(** *** The platform order *)

Lemma cmp_Compare_le_iff a b :
  cmp_Compare a b <= 0 <-> String_as_OT.lt a b \/ a = b.
Proof.
  unfold cmp_Compare. destruct (String.compare a b) eqn:E.
  - apply String_as_OT.cmp_eq in E. split; [auto|lia].
  - apply String_as_OT.cmp_lt in E. split; [auto|lia].
  - split; [lia|]. intros [H| ->].
    + apply String_as_OT.cmp_lt in H. unfold String_as_OT.cmp in H. congruence.
    + assert (String.compare b b = Eq) by now apply String_as_OT.cmp_eq.
      congruence.
Qed.

Lemma cmp_Compare_zero a b : cmp_Compare a b = 0 <-> a = b.
Proof.
  unfold cmp_Compare. destruct (String.compare a b) eqn:E.
  - apply String_as_OT.cmp_eq in E. tauto.
  - split; [lia|]. intros ->.
    assert (String.compare b b = Eq) by now apply String_as_OT.cmp_eq. congruence.
  - split; [lia|]. intros ->.
    assert (String.compare b b = Eq) by now apply String_as_OT.cmp_eq. congruence.
Qed.

Lemma cmp_Compare_lt_iff a b : cmp_Compare a b < 0 <-> String_as_OT.lt a b.
Proof.
  unfold cmp_Compare. destruct (String.compare a b) eqn:E.
  - split; [lia|]. intros H. apply String_as_OT.cmp_lt in H.
    unfold String_as_OT.cmp in H. congruence.
  - apply String_as_OT.cmp_lt in E. split; [auto|lia].
  - split; [lia|]. intros H. apply String_as_OT.cmp_lt in H.
    unfold String_as_OT.cmp in H. congruence.
Qed.

Lemma str_lt_total a b : String_as_OT.lt a b \/ a = b \/ String_as_OT.lt b a.
Proof.
  destruct (String.compare a b) eqn:E.
  - right; left. now apply String_as_OT.cmp_eq.
  - left. now apply String_as_OT.cmp_lt.
  - right; right. apply String_as_OT.cmp_lt. unfold String_as_OT.cmp.
    rewrite String.compare_antisym, E. reflexivity.
Qed.

Lemma platform_le_iff a b :
  platform_le a b <->
  String_as_OT.lt (OS a) (OS b)
  \/ (OS a = OS b /\ (String_as_OT.lt (Arch a) (Arch b) \/ Arch a = Arch b)).
Proof.
  unfold platform_le, ComparePlatform.
  destruct (Z.eqb_spec (cmp_Compare (OS a) (OS b)) 0) as [E|E]; simpl.
  - rewrite cmp_Compare_le_iff. apply cmp_Compare_zero in E. split.
    + intros H. right. auto.
    + intros [H|[_ H]]; [|exact H].
      rewrite E in H. exfalso. now apply (String_as_OT.lt_not_eq _ _ H).
  - split.
    + intros H. left. apply cmp_Compare_lt_iff. lia.
    + intros [H|[H _]].
      * apply cmp_Compare_lt_iff in H. lia.
      * apply cmp_Compare_zero in H. contradiction.
Qed.

#[local] Instance platform_le_total : Total platform_le.
Proof.
  intros a b. rewrite !platform_le_iff.
  destruct (str_lt_total (OS a) (OS b)) as [H|[H|H]]; auto.
  destruct (str_lt_total (Arch a) (Arch b)) as [H'|[H'|H']]; auto 6.
Qed.

#[local] Instance platform_le_trans : Transitive platform_le.
Proof.
  intros a b c. rewrite !platform_le_iff.
  intros [H1|[E1 H1]] [H2|[E2 H2]].
  - left. eapply String_as_OT.lt_trans; eauto.
  - left. now rewrite <- E2.
  - left. now rewrite E1.
  - right. split; [congruence|].
    destruct H1 as [H1|H1], H2 as [H2|H2].
    + left. eapply String_as_OT.lt_trans; eauto.
    + left. now rewrite <- H2.
    + left. now rewrite H1.
    + right. congruence.
Qed.

#[local] Instance platform_le_antisym : AntiSymm (=) platform_le.
Proof.
  intros a b. rewrite !platform_le_iff.
  assert (irr : forall s, ~ String_as_OT.lt s s).
  { intros s H. now apply (String_as_OT.lt_not_eq _ _ H). }
  assert (asym : forall s t, String_as_OT.lt s t -> String_as_OT.lt t s -> False).
  { intros s t H1 H2. apply (irr s). eapply String_as_OT.lt_trans; eauto. }
  destruct a as [oa aa], b as [ob ab]; simpl.
  intros [H1|[E1 H1]] [H2|[E2 H2]]; subst.
  - destruct (asym _ _ H1 H2).
  - destruct (irr _ H1).
  - destruct (irr _ H2).
  - destruct H1 as [H1|H1], H2 as [H2|H2]; subst; auto; exfalso; eauto.
Qed.

Lemma SortFunc_sorted (l : list Platform) : StronglySorted platform_le (SortFunc l).
Proof. apply StronglySorted_merge_sort; apply _. Qed.

Lemma SortFunc_perm (l : list Platform) : SortFunc l ≡ₚ l.
Proof. apply merge_sort_Permutation. Qed.

End SolverFacts.

(** ** The condition solver *)
Section SolverTheorems.

(** [collections.Set.Values]: some enumeration of the set, possibly a nil
    slice when the set is empty. *)
Variable Values : gset Platform -> option (list Platform).

Lemma enabledPlatforms_elem (M : gmap Platform (gmap string Z)) p :
  p ∈ (map_to_list M).*1 <-> is_Some (M !! p).
Proof.
  rewrite list_elem_of_fmap. split.
  - intros ([q ms] & -> & Hin). apply elem_of_map_to_list in Hin. eauto.
  - intros [ms Hms]. exists (p, ms). split; [reflexivity|].
    now apply elem_of_map_to_list.
Qed.

Lemma matched_spec e (M : gmap Platform (gmap string Z)) :
  wellFormed e = true ->
  exists d R, toDNF e = Ok d
    /\ evalDnf M d (map_to_list M).*1 ∅ = Ok R
    /\ forall p, p ∈ R <->
         exists macros, M !! p = Some macros /\ Eval e macros = Ok true.
Proof.
  intros Hw. destruct (toDNF_correct e Hw) as (d & Hd & V & Ed).
  destruct (evalDnf_spec M d (map_to_list M).*1 V ∅) as (R & HR & Hin).
  exists d, R. repeat split; auto.
  - intros Hp. apply Hin in Hp as [Hp|[Hp Hb]].
    + now apply not_elem_of_empty in Hp.
    + apply enabledPlatforms_elem in Hp as [ms Hms]. exists ms. split; [auto|].
      rewrite Eval_wellFormed by auto. rewrite Ed in Hb.
      unfold macrosOf in Hb. rewrite Hms in Hb. simpl in Hb. now rewrite Hb.
  - intros (ms & Hms & He). apply Hin. right. split.
    + apply enabledPlatforms_elem. eauto.
    + rewrite Ed. unfold macrosOf. rewrite Hms. simpl.
      rewrite Eval_wellFormed in He by auto. congruence.
Qed.

(** C1. For a well-formed guard [e] and any platform table [M],
    [PlatformsForExpr] returns exactly the platforms of [M] on whose
    macros [e] evaluates to true ([Expr.Eval]), without duplicates and
    sorted by [ComparePlatform]: the DNF with its fast and slow paths
    agrees with evaluating [e] directly on each platform. *)
Theorem PlatformsForExpr_exact e (M : gmap Platform (gmap string Z)) :
  ValuesSpec Values -> wellFormed e = true ->
  exists l, PlatformsForExpr Values (Some e) M = Ok (Some l)
    /\ (forall p, p ∈ l <->
          exists macros, M !! p = Some macros /\ Eval e macros = Ok true)
    /\ NoDup l
    /\ StronglySorted platform_le l.
Proof.
  intros HV Hw. destruct (matched_spec e M Hw) as (d & R & Hd & HR & Hin).
  unfold PlatformsForExpr. rewrite Hd. cbn [bind]. rewrite HR. cbn [bind].
  eexists. split; [reflexivity|].
  assert (Hperm : match Values R with Some r => r | None => [] end ≡ₚ elements R).
  { specialize (HV R). destruct (Values R); [exact HV|].
    subst R. now rewrite elements_empty. }
  repeat split.
  - intros Hp. apply Hin. apply elem_of_elements.
    now rewrite <- Hperm, <- (SortFunc_perm _).
  - intros Hp. rewrite (SortFunc_perm _), Hperm. apply elem_of_elements.
    now apply Hin.
  - rewrite (SortFunc_perm _), Hperm. apply NoDup_elements.
  - apply SortFunc_sorted.
Qed.

(** C9. [PlatformsForExpr] returns the nil slice for the nil expression
    and only for it: on a well-formed non-nil expression it returns a
    non-nil slice (possibly empty) whatever the platform table is, the
    empty one included, and whatever [Values] returns. *)
Theorem PlatformsForExpr_nil_iff e (M : gmap Platform (gmap string Z)) :
  wellFormed e = true ->
  (exists l, PlatformsForExpr Values (Some e) M = Ok (Some l))
  /\ PlatformsForExpr Values None M = Ok None
  /\ (forall e', PlatformsForExpr Values e' M = Ok None -> e' = None).
Proof.
  intros Hw. repeat split.
  - destruct (matched_spec e M Hw) as (d & R & Hd & HR & _).
    unfold PlatformsForExpr. rewrite Hd. cbn [bind]. rewrite HR. cbn [bind].
    eauto.
  - intros [e'|] H; [|reflexivity]. exfalso. unfold PlatformsForExpr in H.
    destruct (toDNF e') as [d| |]; cbn [bind] in H; try discriminate.
    destruct (evalDnf M d _ ∅) as [R| |]; cbn [bind] in H; discriminate.
Qed.

End SolverTheorems.

Lemma ValuesNonNil_spec : ValuesSpec ValuesNonNil.
Proof. intros s. simpl. apply Permutation_refl. Qed.

Lemma ValuesNilOnEmpty_spec : ValuesSpec ValuesNilOnEmpty.
Proof.
  intros s. unfold ValuesNilOnEmpty. destruct (elements s) eqn:E.
  - now apply elements_empty_inv, leibniz_equiv in E.
  - apply Permutation_refl.
Qed.

(** The theorem of C1 at the table of the tests. *)
Lemma PlatformsForExpr_exact_witness :
  ValuesSpec ValuesNonNil /\ wellFormed comboExpr = true
  /\ exists l, PlatformsForExpr ValuesNonNil (Some comboExpr) freshPlatformMacros
               = Ok (Some l)
      /\ (forall p, p ∈ l <->
            exists macros, freshPlatformMacros !! p = Some macros
                           /\ Eval comboExpr macros = Ok true)
      /\ NoDup l
      /\ StronglySorted platform_le l.
Proof.
  split; [intros s; apply Permutation_refl|]. split; [reflexivity|].
  apply (PlatformsForExpr_exact ValuesNonNil comboExpr freshPlatformMacros);
    [intros s; apply Permutation_refl|reflexivity].
Defined.

(** The theorem of C9 at the empty table, with a [Values] that returns the
    nil slice on the empty set. *)
Lemma PlatformsForExpr_nil_iff_witness :
  wellFormed (Defined "LINUX") = true
  /\ (exists l, PlatformsForExpr ValuesNilOnEmpty (Some (Defined "LINUX")) ∅
                = Ok (Some l))
  /\ PlatformsForExpr ValuesNilOnEmpty None ∅ = Ok None
  /\ (forall e', PlatformsForExpr ValuesNilOnEmpty e' ∅ = Ok None -> e' = None).
Proof.
  split; [reflexivity|].
  apply (PlatformsForExpr_nil_iff ValuesNilOnEmpty (Defined "LINUX") ∅).
  reflexivity.
Defined.

(** The solver on the cases of its tests. *)
Example PlatformsForExpr_combo :
  PlatformsForExpr ValuesNonNil (Some comboExpr) freshPlatformMacros
  = Ok (Some [linuxAMD64; windowsAMD64]).
Proof. vm_compute. reflexivity. Qed.

Example PlatformsForExpr_negated_flag :
  PlatformsForExpr ValuesNilOnEmpty
    (Some (Not (Cmp (mkCompare (Ident "SHARED_FLAG") "!=" (Constant 0)))))
    freshPlatformMacros
  = Ok (Some [windowsAMD64]).
Proof. vm_compute. reflexivity. Qed.

(** Outside the well-formed expressions the solver panics, as [Eval] does. *)
Example PlatformsForExpr_unknown_operator :
  PlatformsForExpr ValuesNonNil
    (Some (Cmp (mkCompare (Ident "SHARED_FLAG") "~" (Constant 0))))
    freshPlatformMacros
  = Panic "Unknown compare operation type"
  /\ Eval (Cmp (mkCompare (Ident "SHARED_FLAG") "~" (Constant 0))) ∅
     = Panic "Unknown compare operation type".
Proof. split; vm_compute; reflexivity. Qed.

Example PlatformsForExpr_unknown_macro :
  PlatformsForExpr ValuesNilOnEmpty (Some (Defined "OTHER")) freshPlatformMacros
  = Ok (Some []).
Proof. vm_compute. reflexivity. Qed.

(** ** The platform table *)

(** C5. The table is not what the claim describes: [init] registers
    [__x86_64__] on the platforms returned by
    [archOsPlatforms aarch64 allKnownOs]. On linux/x86_64 the macro is
    undefined, on linux/aarch64 it is defined. *)
Theorem x86_64_macro_on_wrong_arch :
  hasMacro KnownPlatformMacros (mkPlatform linux x86_64) "__x86_64__" = false
  /\ hasMacro KnownPlatformMacros (mkPlatform linux aarch64) "__x86_64__" = true
  /\ Forall (fun os => hasMacro KnownPlatformMacros (mkPlatform os x86_64) "__x86_64__"
                       = false) allKnownOs
  /\ Forall (fun os => hasMacro KnownPlatformMacros (mkPlatform os aarch64) "__x86_64__"
                       = true) allKnownOs.
Proof.
  split; [vm_compute; reflexivity|]. split; [vm_compute; reflexivity|].
  split; unfold allKnownOs;
    repeat (apply List.Forall_cons; [vm_compute; reflexivity|]);
    apply List.Forall_nil.
Qed.

(** ** The source parser *)

(** C4. A [#if] directly followed by the end of the line makes
    [tokensStream.next] panic, and the panic leaves [ParseSource]. *)
Theorem ParseSource_panics_on_empty_if :
  ParseSource ("#if" ++ nl) = Crash "unexpected EOL in expression"
  /\ ParseSource ("#if defined" ++ nl) = Crash "unexpected EOL in expression"
  /\ ParseSource ("#if A ==" ++ nl) = Crash "unexpected EOL in expression".
Proof. repeat split; vm_compute; reflexivity. Qed.

Section ParserFacts.

Implicit Types (p : parser) (r : tokenReader) (tok : string).

(** *** Stack primitives on a non-empty stack *)

Lemma popCondition_snoc p cs c :
  conditionStack p = (cs ++ [c])%list ->
  popCondition p = (true, with_conditionStack p cs).
Proof.
  intros H. unfold popCondition. rewrite H.
  destruct (cs ++ [c])%list eqn:E; [now destruct cs|].
  now rewrite <- E, removelast_last.
Qed.

Lemma popGroup_snoc p gs (g : list Expr) :
  exprGroupStack p = (gs ++ [g])%list ->
  popGroup p = (true, with_exprGroupStack p gs).
Proof.
  intros H. unfold popGroup. rewrite H.
  destruct (gs ++ [g])%list eqn:E; [now destruct gs|].
  now rewrite <- E, removelast_last.
Qed.

Lemma currentGroup_snoc p gs (g : list Expr) :
  exprGroupStack p = (gs ++ [g])%list -> currentGroup p = Some g.
Proof. intros H. unfold currentGroup. rewrite H. apply last_snoc. Qed.

Lemma appendToCurrentGroup_snoc p gs (g : list Expr) e :
  exprGroupStack p = (gs ++ [g])%list ->
  appendToCurrentGroup e p
  = Ok (with_exprGroupStack p (gs ++ [(g ++ [e])%list])%list).
Proof.
  intros H. unfold appendToCurrentGroup. rewrite H, last_snoc.
  now rewrite removelast_last.
Qed.

Lemma foldl_Or_snoc (x : Expr) xs y :
  foldl Or x (xs ++ [y])%list = Or (foldl Or x xs) y.
Proof. apply foldl_snoc. Qed.

(** What [#else] does on a state inside a block. *)
Lemma handleElse_spec p cs c gs g0 (g : list Expr) :
  conditionStack p = (cs ++ [c])%list ->
  exprGroupStack p = (gs ++ [g0 :: g])%list ->
  handleElse p
  = Ret tt (mkParser (tr p) (lastToken p) (sourceInfo p)
                     (cs ++ [Not (foldl Or g0 g)])%list
                     (gs ++ [(g0 :: g ++ [Not (foldl Or g0 g)])%list])%list).
Proof.
  intros Hc Hg. unfold handleElse.
  rewrite (currentGroup_snoc _ _ _ Hg), (popCondition_snoc _ _ _ Hc).
  cbn [orAll liftRes obind].
  erewrite appendToCurrentGroup_snoc by (simpl; exact Hg).
  reflexivity.
Qed.

(** What [#elif] does on a state inside a block, once its expression has
    been parsed. *)
Lemma handleElif_spec p cs c gs g0 (g : list Expr) e r :
  conditionStack p = (cs ++ [c])%list ->
  exprGroupStack p = (gs ++ [g0 :: g])%list ->
  parseExprFrom (tr p) = Ret e r ->
  handleElif "#elif" p
  = Ret tt (mkParser r (lastToken p) (sourceInfo p)
                     (cs ++ [And e (Not (foldl Or g0 g))])%list
                     (gs ++ [(g0 :: g ++ [e])%list])%list).
Proof.
  intros Hc Hg He. unfold handleElif.
  rewrite (currentGroup_snoc _ _ _ Hg), (popCondition_snoc _ _ _ Hc).
  cbn [String.eqb Ascii.eqb Bool.eqb]. unfold parseExpr. cbn [tr with_conditionStack].
  rewrite He. cbn [orAll liftRes obind].
  erewrite appendToCurrentGroup_snoc by (simpl; exact Hg).
  reflexivity.
Qed.

End ParserFacts.

(** *** [#elif] after [#else] *)

(** C7, as stated, fails: with the [#elif] line the include is guarded by
    [B != 0 && !(defined(A) || !defined(A))], without it by [!defined(A)]. *)
Lemma elif_after_else_changes_conditions :
  conditionsOf (ParseSource elifAfterElse)
  = [Some (And (Cmp (mkCompare (Ident "B") "!=" (Constant 0)))
               (Not (Or (Defined "A") (Not (Defined "A")))))]
  /\ conditionsOf (ParseSource elifRemoved) = [Some (Not (Defined "A"))]
  /\ conditionsOf (ParseSource elifAfterElse)
     <> conditionsOf (ParseSource elifRemoved).
Proof.
  split; [vm_compute; reflexivity|]. split; [vm_compute; reflexivity|].
  vm_compute. discriminate.
Qed.

(** C7, amended. The parser keeps no record of an [#else] having been seen:
    an [#elif] after it raises no error and is a branch like any other. The
    [#else] replaces the branch condition by the negation [Not D] of the
    branches seen so far and remembers it; the [#elif], once its expression
    [e] is parsed, replaces that by [And e (Not (Or D (Not D)))], which
    guards the includes that follow. *)
Theorem elif_after_else_is_a_branch p r1 cs c gs g0 (g : list Expr) :
  conditionStack p = (cs ++ [c])%list ->
  exprGroupStack p = (gs ++ [g0 :: g])%list ->
  next (tr p) = (Some "#else", r1) ->
  exists p1,
    loopBody p = Continue p1
    /\ tr p1 = r1
    /\ conditionStack p1 = (cs ++ [Not (foldl Or g0 g)])%list
    /\ forall r2 r3 e,
         next r1 = (Some "#elif", r2) ->
         parseExprFrom r2 = Ret e r3 ->
         exists p3,
           loopBody p1 = Continue p3
           /\ tr p3 = r3
           /\ sourceInfo p3 = sourceInfo p
           /\ conditionStack p3
              = (cs ++ [And e (Not (Or (foldl Or g0 g) (Not (foldl Or g0 g))))])%list
           /\ currentGuard p3
              = Some (match cs with
                      | [] => And e (Not (Or (foldl Or g0 g) (Not (foldl Or g0 g))))
                      | c0 :: cs' =>
                          And (foldl And c0 cs')
                              (And e (Not (Or (foldl Or g0 g) (Not (foldl Or g0 g)))))
                      end).
Proof.
  intros Hc Hg Hn.
  eexists. split.
  { unfold loopBody. rewrite Hn. cbn [String.prefix].
    unfold parseDirective. cbn [String.eqb Ascii.eqb Bool.eqb orb].
    erewrite handleElse_spec by (simpl; eassumption). reflexivity. }
  split; [reflexivity|]. split; [reflexivity|].
  intros r2 r3 e Hn2 He.
  eexists. split.
  { unfold loopBody. cbn [tr with_tr with_lastToken]. rewrite Hn2.
    cbn [String.prefix].
    unfold parseDirective. cbn [String.eqb Ascii.eqb Bool.eqb orb].
    erewrite handleElif_spec; [reflexivity|simpl; reflexivity|simpl; reflexivity|].
    simpl. exact He. }
  split; [reflexivity|]. split; [reflexivity|].
  split.
  - cbn [conditionStack]. now rewrite foldl_Or_snoc.
  - unfold currentGuard. cbn [conditionStack]. rewrite foldl_Or_snoc.
    destruct cs as [|c0 cs']; [reflexivity|].
    cbn [app]. now rewrite foldl_snoc.
Qed.

(** The theorem of C7 on [elifAfterElse], from the state reached after the
    [#ifdef] line. *)
Lemma elif_after_else_is_a_branch_witness :
  let p := stateAfter 1 (parserOn elifAfterElse) in
  let r1 := mkReader ["<EOL>"; "#elif"; "B"; "<EOL>"; "#include"; "<"; "x.h"; ">";
                      "<EOL>"; "#endif"; "<EOL>"] None in
  conditionStack p = ([] ++ [Defined "A"])%list
  /\ exprGroupStack p = ([] ++ [Defined "A" :: []])%list
  /\ next (tr p) = (Some "#else", r1)
  /\ exists p1,
       loopBody p = Continue p1
       /\ tr p1 = r1
       /\ conditionStack p1 = ([] ++ [Not (foldl Or (Defined "A") [])])%list
       /\ forall r2 r3 e,
            next r1 = (Some "#elif", r2) ->
            parseExprFrom r2 = Ret e r3 ->
            exists p3,
              loopBody p1 = Continue p3
              /\ tr p3 = r3
              /\ sourceInfo p3 = sourceInfo p
              /\ conditionStack p3
                 = ([] ++ [And e (Not (Or (foldl Or (Defined "A") [])
                                          (Not (foldl Or (Defined "A") []))))])%list
              /\ currentGuard p3
                 = Some (And e (Not (Or (foldl Or (Defined "A") [])
                                        (Not (foldl Or (Defined "A") []))))).
Proof.
  intros p r1.
  split; [reflexivity|]. split; [reflexivity|]. split; [reflexivity|].
  apply (elif_after_else_is_a_branch p r1 [] (Defined "A") [] (Defined "A") []);
    reflexivity.
Defined.

(** *** The tokenizer terminates *)

Lemma skipLineComment_length s :
  (String.length (skipLineComment s) <= String.length s)%nat.
Proof.
  induction s as [|c s IH]; simpl; [lia|].
  destruct (isEOL c); simpl; lia.
Qed.

Lemma skipBlockComment_cons2 c1 c2 rest :
  skipBlockComment (String c1 (String c2 rest))
  = if (c1 =? "*")%char && (c2 =? "/")%char then rest
    else skipBlockComment (String c2 rest).
Proof. reflexivity. Qed.

Lemma skipBlockComment_length s :
  (String.length (skipBlockComment s) <= String.length s)%nat.
Proof.
  induction s as [|c1 s IH]; [simpl; lia|].
  destruct s as [|c2 rest]; [simpl; lia|].
  rewrite skipBlockComment_cons2.
  destruct ((c1 =? "*")%char && (c2 =? "/")%char).
  - cbn [String.length]. lia.
  - change (String.length (String c1 (String c2 rest)))
      with (S (String.length (String c2 rest))). lia.
Qed.

Lemma drop2_length c s : (String.length (drop2 (String c s)) <= String.length s)%nat.
Proof. destruct s; simpl; lia. Qed.

Lemma scanWord_cons c rest :
  scanWord (String c rest)
  = if isEOL c || isOperatorChar c || isSpace c || isParanthesis c
    then (EmptyString, String c rest)
    else let '(w, r) := scanWord rest in (String c w, r).
Proof. reflexivity. Qed.

Lemma scanWord_length s :
  (String.length (scanWord s).2 <= String.length s)%nat.
Proof.
  induction s as [|c s IH]; [simpl; lia|].
  rewrite scanWord_cons.
  destruct (isEOL c || isOperatorChar c || isSpace c || isParanthesis c);
    [simpl; lia|].
  destruct (scanWord s) as [w r]. simpl in *. lia.
Qed.

Lemma operator_rest c rest :
  exists tok rest',
    match rest with
    | String "=" rest0 => Some (Some (String c (String "=" EmptyString), rest0))
    | _ => Some (Some (String c EmptyString, rest))
    end = Some (Some (tok, rest'))
    /\ (String.length rest' <= String.length rest)%nat.
Proof.
  destruct rest as [|c' rest']; [eexists _, _; split; [reflexivity|lia]|].
  destruct (Ascii.eqb_spec c' "="%char) as [->|Hne].
  - eexists _, _. split; [reflexivity|]. simpl. lia.
  - exists (String c EmptyString), (String c' rest'). split; [|lia].
    destruct c' as [[] [] [] [] [] [] [] []]; try reflexivity.
    now contradiction Hne.
Qed.

(** With fuel above the length of the input, [tokenizer] answers, and the
    input left after a token is shorter. *)
Lemma tokenizer_enough fuel s :
  (String.length s < fuel)%nat ->
  exists res, tokenizer fuel s = Some res
    /\ match res with
       | Some (_, rest) => (String.length rest < String.length s)%nat
       | None => True
       end.
Proof.
  revert s. induction fuel as [|fuel IH]; intros s Hlen; [lia|].
  destruct s as [|c rest]; [exists None; split; [reflexivity|exact I]|].
  cbn [tokenizer]. cbn [String.length] in Hlen.
  assert (Hrec : forall s', (String.length s' <= String.length rest)%nat ->
            exists res, tokenizer fuel s' = Some res
              /\ match res with
                 | Some (_, r) => (String.length r < String.length (String c rest))%nat
                 | None => True
                 end).
  { intros s' Hs'. destruct (IH s') as (res & Hres & Hr); [lia|].
    exists res. split; [exact Hres|]. destruct res as [[t r]|]; [|exact I].
    cbn [String.length]. lia. }
  destruct (isEOL c) eqn:D1.
  { eexists. split; [reflexivity|]. cbn [String.length]. lia. }
  destruct (String.prefix "//" (String c rest)).
  { apply Hrec. etransitivity; [apply skipLineComment_length|apply drop2_length]. }
  destruct (String.prefix "/*" (String c rest)).
  { apply Hrec. etransitivity; [apply skipBlockComment_length|apply drop2_length]. }
  destruct (isSpace c) eqn:D2.
  { apply Hrec. lia. }
  destruct (isParanthesis c) eqn:D3.
  { eexists. split; [reflexivity|]. cbn [String.length]. lia. }
  destruct (isOperatorChar c) eqn:D4.
  { destruct (operator_rest c rest) as (tok & rest' & -> & Hl).
    eexists. split; [reflexivity|]. cbn [String.length]. lia. }
  eexists. split; [reflexivity|].
  rewrite scanWord_cons, D1, D2, D3, D4. cbn [orb].
  pose proof (scanWord_length rest) as Hr.
  destruct (scanWord rest) as [w' r']. simpl in Hr.
  cbn [String.length]. lia.
Qed.

Lemma tokenizer_fuel_irrelevant f1 f2 s :
  (String.length s < f1)%nat -> (String.length s < f2)%nat ->
  tokenizer f1 s = tokenizer f2 s.
Proof.
  revert f2 s. induction f1 as [|f1 IH]; intros f2 s H1 H2; [lia|].
  destruct f2 as [|f2]; [lia|].
  destruct s as [|c rest]; [reflexivity|].
  cbn [tokenizer]. cbn [String.length] in H1, H2.
  destruct (isEOL c); [reflexivity|].
  destruct (String.prefix "//" (String c rest)).
  { pose proof (skipLineComment_length (drop2 (String c rest))).
    pose proof (drop2_length c rest). apply IH; lia. }
  destruct (String.prefix "/*" (String c rest)).
  { pose proof (skipBlockComment_length (drop2 (String c rest))).
    pose proof (drop2_length c rest). apply IH; lia. }
  destruct (isSpace c); [apply IH; lia|].
  reflexivity.
Qed.

Lemma splitAll_enough fuel s :
  (String.length s < fuel)%nat -> exists toks, splitAll fuel s = Some toks.
Proof.
  revert s. induction fuel as [|fuel IH]; intros s Hlen; [lia|].
  cbn [splitAll].
  destruct (tokenizer_enough (S (String.length s)) s) as (res & -> & Hres); [lia|].
  destruct res as [[tok rest]|]; [|eauto].
  destruct (IH rest) as (toks & ->); [lia|]. eauto.
Qed.

Lemma splitAll_fuel_irrelevant f1 f2 s :
  (String.length s < f1)%nat -> (String.length s < f2)%nat ->
  splitAll f1 s = splitAll f2 s.
Proof.
  revert f2 s. induction f1 as [|f1 IH]; intros f2 s H1 H2; [lia|].
  destruct f2 as [|f2]; [lia|].
  cbn [splitAll].
  destruct (tokenizer_enough (S (String.length s)) s) as (res & -> & Hres); [lia|].
  destruct res as [[tok rest]|]; [|reflexivity].
  rewrite (IH f2 rest) by lia. reflexivity.
Qed.

(** [bufferTokens] never runs out of fuel. *)
Lemma bufferTokens_total input : exists toks, bufferTokens input = Some toks.
Proof. apply splitAll_enough. lia. Qed.

(** The tokens of an input: the first token, then the tokens of the rest. *)
Lemma bufferTokens_step input :
  bufferTokens input
  = match tokenizer (S (String.length input)) input with
    | Some (Some (tok, rest)) =>
        match bufferTokens rest with
        | Some toks => Some (tok :: toks)
        | None => None
        end
    | Some None => Some []
    | None => None
    end.
Proof.
  unfold bufferTokens at 1. cbn [splitAll].
  destruct (tokenizer_enough (S (String.length input)) input) as (res & -> & Hres);
    [lia|].
  destruct res as [[tok rest]|]; [|reflexivity].
  unfold bufferTokens.
  rewrite (splitAll_fuel_irrelevant (String.length input) (S (String.length rest)))
    by lia.
  reflexivity.
Qed.

(** *** The scanner

    The invariant of the scanner over a string reader, the termination of
    [Scan], the tokens of an input that fits the first buffer, and the
    tokens of a longer input, piece by piece. *)

Lemma append_cons c (w s : string) : (String c w ++ s) = String c (w ++ s).
Proof. reflexivity. Qed.

Lemma String_length_app (a b : string) :
  String.length (a ++ b) = (String.length a + String.length b)%nat.
Proof.
  induction a as [|c a IH]; [reflexivity|].
  rewrite append_cons. cbn [String.length]. now rewrite IH.
Qed.

Lemma startBufSize_pos : (0 < startBufSize)%nat.
Proof. unfold startBufSize. lia. Qed.

Lemma scanner_sizes :
  Nat.leb MaxScanTokenSize 0 = false
  /\ Nat.leb MaxScanTokenSize startBufSize = false
  /\ Nat.min startBufSize MaxScanTokenSize = startBufSize.
Proof. repeat split; vm_compute; reflexivity. Qed.

Lemma splitAt_spec n s :
  ((splitAt n s).1 ++ (splitAt n s).2) = s
  /\ String.length (splitAt n s).1 = Nat.min n (String.length s).
Proof.
  revert s. induction n as [|n IH]; intros s; [split; reflexivity|].
  destruct s as [|c s]; [split; reflexivity|].
  cbn [splitAt]. specialize (IH s). destruct (splitAt n s) as [a b].
  cbn [fst snd] in *. destruct IH as [IH1 IH2]. split.
  - change (String c (a ++ b) = String c s). now rewrite IH1.
  - cbn [String.length]. rewrite IH2. reflexivity.
Qed.

Lemma splitAt_all n s :
  (String.length s <= n)%nat -> splitAt n s = (s, EmptyString).
Proof.
  revert s. induction n as [|n IH]; intros s H.
  - destruct s; [reflexivity|cbn [String.length] in H; lia].
  - destruct s as [|c s]; [reflexivity|]. cbn [String.length] in H.
    cbn [splitAt]. rewrite IH by lia. reflexivity.
Qed.

Lemma splitAt_rest n s :
  String.length (splitAt n s).2 = (String.length s - n)%nat.
Proof.
  destruct (splitAt_spec n s) as [H1 H2].
  apply (f_equal String.length) in H1. rewrite String_length_app in H1. lia.
Qed.

Lemma length_zero_empty (s : string) : String.length s = 0%nat -> s = EmptyString.
Proof. destruct s; [reflexivity|discriminate]. Qed.

(** Reading more data into an empty buffer. *)
Lemma fill_empty r st len :
  (st <= len)%nat -> (len = 0%nat \/ len = startBufSize) ->
  ((st < len)%nat -> r = EmptyString) ->
  fill (mkScanner r EmptyString st len None)
  = match r with
    | EmptyString =>
        Loop (mkScanner r EmptyString
                (if Nat.ltb 0 st && (Nat.eqb st len || Nat.ltb (len / 2) st)
                 then 0%nat else if Nat.eqb len 0 then 0%nat else st)
                startBufSize (Some EOF))
    | _ => Loop (mkScanner (splitAt startBufSize r).2 (splitAt startBufSize r).1
                   0 startBufSize None)
    end.
Proof.
  intros Hle Hlen Hr. destruct scanner_sizes as (S0 & S1 & S2).
  pose proof startBufSize_pos as Hpos.
  unfold fill. cbn [sc_start sc_data sc_len sc_r sc_err String.length].
  rewrite Nat.add_0_r.
  assert (Hread : forall st',
            (st' = 0%nat \/ r = EmptyString) ->
            readMore (mkScanner r EmptyString st' startBufSize None)
            = match r with
              | EmptyString => Loop (mkScanner r EmptyString st' startBufSize (Some EOF))
              | _ => Loop (mkScanner (splitAt startBufSize r).2
                             (splitAt startBufSize r).1 0 startBufSize None)
              end).
  { intros st' Hst. unfold readMore.
    cbn [sc_start sc_data sc_len sc_r sc_err String.length].
    destruct r as [|c r']; [reflexivity|].
    destruct Hst as [->|Hst]; [|discriminate].
    cbn [Read Nat.add]. rewrite Nat.sub_0_r.
    pose proof (splitAt_spec startBufSize (String c r')) as [_ Hl].
    destruct (splitAt startBufSize (String c r')) as [a b]. cbn [fst snd] in *.
    cbn [String.length] in Hl.
    destruct (Nat.eqb_spec (String.length a) 0) as [E|_]; [lia|].
    reflexivity. }
  destruct Hlen as [->| ->].
  - assert (st = 0%nat) as -> by lia.
    cbn [Nat.ltb Nat.leb andb Nat.eqb sc_start sc_data sc_len sc_r sc_err
         String.length Nat.add Nat.mul].
    rewrite S0, S2. rewrite Hread by (left; reflexivity).
    destruct r; reflexivity.
  - destruct (Nat.eqb_spec st startBufSize) as [->|Hne].
    + destruct (Nat.ltb_spec 0 startBufSize) as [_|?]; [|lia].
      cbn [andb orb sc_start sc_data sc_len sc_r sc_err String.length Nat.add].
      destruct (Nat.eqb_spec 0 startBufSize) as [?|_]; [lia|].
      rewrite Hread by (left; reflexivity). destruct r; reflexivity.
    + assert (r = EmptyString) as -> by (apply Hr; lia).
      cbn [orb].
      destruct (Nat.ltb 0 st && Nat.ltb (startBufSize / 2) st);
        cbn [sc_start sc_data sc_len sc_r sc_err String.length Nat.add].
      * destruct (Nat.eqb_spec 0 startBufSize) as [?|_]; [lia|].
        rewrite Hread by (right; reflexivity). reflexivity.
      * rewrite Nat.add_0_r.
        destruct (Nat.eqb_spec st startBufSize) as [?|_]; [lia|].
        rewrite Hread by (right; reflexivity).
        destruct (Nat.eqb_spec startBufSize 0) as [?|_]; [lia|]. reflexivity.
Qed.

(** What one iteration of the loop of [Scan] does. *)
Lemma scanPass_ok s :
  scanInv s ->
  match scanPass s with
  | Token tok s' =>
      scanInv s' /\ (scanMeasure s' < scanMeasure s)%nat
      /\ tokenizer (S (String.length (sc_data s))) (sc_data s)
         = Some (Some (tok, sc_data s'))
      /\ sc_r s' = sc_r s /\ sc_err s' = None /\ sc_err s = None
  | Loop s' =>
      scanInv s' /\ (scanMeasure s' < scanMeasure s)%nat
      /\ tokenizer (S (String.length (sc_data s))) (sc_data s) = Some None
      /\ sc_err s = None
      /\ match sc_r s with
         | EmptyString => sc_r s' = EmptyString /\ sc_data s' = EmptyString
                          /\ sc_err s' = Some EOF
         | _ => s' = mkScanner (splitAt startBufSize (sc_r s)).2
                       (splitAt startBufSize (sc_r s)).1 0 startBufSize None
         end
  | Done s' => ScannerErr s' = None /\ sc_err s = Some EOF
  | Stuck => False
  end.
Proof.
  destruct s as [r d st len e]. unfold scanInv, scanPass.
  cbn [sc_start sc_data sc_len sc_r sc_err].
  destruct e as [e|].
  - intros [-> ->]. rewrite orb_true_r. cbn [tokenizer String.length].
    rewrite bool_decide_eq_true_2 by eauto. split; reflexivity.
  - intros (Hle & Hlen & Hr).
    rewrite bool_decide_eq_false_2 by (intros [? ?]; discriminate).
    rewrite orb_false_r.
    assert (Hfill : forall st', (st' <= len)%nat ->
              ((st' < len)%nat -> r = EmptyString) ->
              tokenizer (S (String.length d)) d = Some None ->
              match fill (mkScanner r EmptyString st' len None) with
              | Token _ _ => False
              | Loop s' =>
                  scanInv s'
                  /\ (scanMeasure s' < scanMeasure (mkScanner r d st len None))%nat
                  /\ tokenizer (S (String.length d)) d = Some None
                  /\ @None ScanError = None
                  /\ match r with
                     | EmptyString => sc_r s' = EmptyString /\ sc_data s' = EmptyString
                                      /\ sc_err s' = Some EOF
                     | _ => s' = mkScanner (splitAt startBufSize r).2
                                   (splitAt startBufSize r).1 0 startBufSize None
                     end
              | Done _ => False
              | Stuck => False
              end).
    { intros st' Hle' Hr' Htok. rewrite fill_empty by assumption.
      destruct r as [|c r'].
      - split; [split; reflexivity|]. split.
        + unfold scanMeasure. cbn [sc_start sc_data sc_len sc_r sc_err String.length]. lia.
        + repeat split; assumption.
      - pose proof (splitAt_spec startBufSize (String c r')) as [Happ Hl].
        pose proof (splitAt_rest startBufSize (String c r')) as Hrest.
        pose proof startBufSize_pos.
        destruct (splitAt startBufSize (String c r')) as [a b]. cbn [fst snd] in *.
        cbn [String.length] in *.
        split; [|split; [|repeat split; assumption]].
        + unfold scanInv. cbn [sc_start sc_data sc_len sc_r sc_err].
          split; [lia|]. split; [now right|].
          intros Hlt. apply length_zero_empty. lia.
        + unfold scanMeasure. cbn [sc_start sc_data sc_len sc_r sc_err String.length]. lia. }
    destruct (Nat.ltb_spec 0 (String.length d)) as [Hd|Hd].
    + destruct (tokenizer_enough (S (String.length d)) d) as (res & Hres & Hrest); [lia|].
      rewrite Hres. destruct res as [[tok rest]|].
      * cbn [sc_start sc_data sc_len sc_r sc_err]. split.
        { unfold scanInv. cbn [sc_start sc_data sc_len sc_r sc_err].
          split; [lia|]. split; [assumption|]. intros H. apply Hr. lia. }
        split; [unfold scanMeasure; cbn [sc_start sc_data sc_len sc_r sc_err]; lia|].
        repeat split; reflexivity.
      * cbn [sc_start sc_data sc_len sc_r sc_err].
        specialize (Hfill (st + String.length d)%nat Hle Hr Hres).
        destruct (fill _); try contradiction.
        destruct Hfill as (A & B & _ & _ & E).
        split; [exact A|]. split; [exact B|]. split; [reflexivity|].
        split; [reflexivity|exact E].
    + assert (d = EmptyString) as -> by (apply length_zero_empty; lia).
      cbn [sc_start sc_data sc_len sc_r sc_err String.length] in *.
      assert (Hle' : (st <= len)%nat) by lia.
      assert (Hr' : (st < len)%nat -> r = EmptyString) by (intros; apply Hr; lia).
      specialize (Hfill st Hle' Hr' eq_refl).
      destruct (fill _); try contradiction.
      destruct Hfill as (A & B & _ & _ & E).
      split; [exact A|]. split; [exact B|]. split; [reflexivity|].
      split; [reflexivity|exact E].
Qed.

Lemma NewScanner_inv input : scanInv (NewScanner input).
Proof.
  unfold scanInv, NewScanner. cbn. split; [lia|]. split; [now left|lia].
Qed.

(** With fuel above the measure, the scanner delivers its tokens and ends
    without an error. *)
Lemma scanTokens_enough fuel s :
  scanInv s -> (scanMeasure s < fuel)%nat ->
  exists toks, scanTokens fuel s = Some (toks, None).
Proof.
  revert s. induction fuel as [|fuel IH]; intros s Hinv Hm; [lia|].
  cbn [scanTokens]. pose proof (scanPass_ok s Hinv) as H.
  destruct (scanPass s) as [tok s'|s'|s'|]; [| | |contradiction].
  - destruct H as (Hi & Hlt & _). destruct (IH s' Hi) as [toks ->]; [lia|]. eauto.
  - destruct H as [-> _]. eauto.
  - destruct H as (Hi & Hlt & _). destruct (IH s' Hi) as [toks ->]; [lia|]. eauto.
Qed.

Lemma scanTokens_fuel_irrelevant f1 f2 s :
  scanInv s -> (scanMeasure s < f1)%nat -> (scanMeasure s < f2)%nat ->
  scanTokens f1 s = scanTokens f2 s.
Proof.
  revert f2 s. induction f1 as [|f1 IH]; intros f2 s Hinv H1 H2; [lia|].
  destruct f2 as [|f2]; [lia|].
  cbn [scanTokens]. pose proof (scanPass_ok s Hinv) as H.
  destruct (scanPass s) as [tok s'|s'|s'|]; [| | |contradiction].
  - destruct H as (Hi & Hlt & _). rewrite (IH f2 s' Hi) by lia. reflexivity.
  - reflexivity.
  - destruct H as (Hi & Hlt & _). apply IH; [assumption|lia|lia].
Qed.

Lemma scanInput_total input : exists toks, scanInput input = Some (toks, None).
Proof.
  apply scanTokens_enough; [apply NewScanner_inv|].
  unfold scanMeasure, scanFuel, NewScanner. cbn [sc_r sc_data sc_err String.length]. lia.
Qed.

Lemma tokenize_total input : exists toks, tokenize input = Some toks.
Proof.
  unfold tokenize. destruct (scanInput_total input) as [toks ->]. eauto.
Qed.

(** Once the reader is exhausted, the scanner delivers the tokens of the
    data it holds. *)
Lemma scanTokens_drain fuel : forall s,
  scanInv s -> sc_r s = EmptyString -> sc_err s = None ->
  (scanMeasure s < fuel)%nat ->
  scanTokens (S fuel) s
  = match splitAll (S (String.length (sc_data s))) (sc_data s) with
    | Some toks => Some (toks, None)
    | None => None
    end.
Proof.
  induction fuel as [|fuel IH]; intros s Hinv Hr He Hm; [lia|].
  pose proof (scanPass_ok s Hinv) as H.
  change (scanTokens (S (S fuel)) s)
    with (match scanPass s with
          | Token tok s' =>
              match scanTokens (S fuel) s' with
              | Some (toks, e) => Some (tok :: toks, e)
              | None => None
              end
          | Loop s' => scanTokens (S fuel) s'
          | Done s' => Some ([], ScannerErr s')
          | Stuck => None
          end).
  cbn [splitAll].
  destruct (scanPass s) as [tok s'|s'|s'|]; [| | |contradiction].
  - destruct H as (Hi & Hlt & Htok & Hr' & He' & _). rewrite Htok.
    rewrite IH; [|assumption|congruence|assumption|lia].
    pose proof (tokenizer_enough (S (String.length (sc_data s))) (sc_data s)) as Hen.
    destruct Hen as (res & Hres & Hlen); [lia|]. rewrite Htok in Hres.
    injection Hres as <-.
    rewrite (splitAll_fuel_irrelevant (String.length (sc_data s))
               (S (String.length (sc_data s')))) by lia.
    destruct (splitAll _ _); reflexivity.
  - destruct H as [_ H]. congruence.
  - destruct H as (Hi & Hlt & Htok & _ & Hs'). rewrite Htok. rewrite Hr in Hs'.
    destruct Hs' as (R1 & R2 & R3).
    cbn [scanTokens]. pose proof (scanPass_ok s' Hi) as H'.
    destruct (scanPass s') as [tok s''|s''|s''|]; [| | |contradiction].
    + destruct H' as (_ & _ & _ & _ & _ & H'). congruence.
    + destruct H' as [-> _]. reflexivity.
    + destruct H' as (_ & _ & _ & H' & _). congruence.
Qed.

(** An input that fits the scanner's first buffer is tokenized as one
    buffer. *)
Lemma tokenize_short input :
  (String.length input <= startBufSize)%nat ->
  tokenize input = bufferTokens input.
Proof.
  intros Hlen. unfold tokenize, scanInput, bufferTokens.
  destruct input as [|c input].
  - vm_compute. reflexivity.
  - unfold scanFuel.
    replace (3 * String.length (String c input) + 3)%nat
      with (S (3 * String.length (String c input) + 2)) by lia.
    cbn [scanTokens]. pose proof (scanPass_ok _ (NewScanner_inv (String c input))) as H.
    destruct (scanPass (NewScanner (String c input))) as [tok s'|s'|s'|];
      [| | |contradiction].
    + destruct H as (_ & _ & H & _). discriminate H.
    + destruct H as [_ H]. discriminate H.
    + destruct H as (Hi & Hlt & _ & _ & Hs'). cbn [NewScanner sc_r] in Hs'.
      rewrite splitAt_all in Hs' by assumption. cbn [fst snd] in Hs'. subst s'.
      rewrite (scanTokens_fuel_irrelevant _
                 (S (3 * String.length (String c input) + 1))); [|assumption| |].
      * rewrite scanTokens_drain; [|assumption|reflexivity|reflexivity|].
        -- cbn [sc_data].
           destruct (splitAll _ _); reflexivity.
        -- unfold scanMeasure. cbn [sc_r sc_data sc_err String.length]. lia.
      * unfold scanMeasure. cbn [sc_r sc_data sc_err String.length]. lia.
      * unfold scanMeasure. cbn [sc_r sc_data sc_err String.length]. lia.
Qed.


(** The scanner hands the split function one piece of [startBufSize]
    bytes after the other: the tokens of the data it holds, then those of
    the pieces the reader still has. *)
Lemma scanTokens_pieces fuel : forall s f2,
  scanInv s -> sc_err s = None ->
  (scanMeasure s < fuel)%nat -> (String.length (sc_r s) < f2)%nat ->
  scanTokens fuel s
  = match splitAll (S (String.length (sc_data s))) (sc_data s),
          pieceTokens f2 (sc_r s) with
    | Some t1, Some t2 => Some ((t1 ++ t2)%list, None)
    | _, _ => None
    end.
Proof.
  induction fuel as [|fuel IH]; intros s f2 Hinv He Hm Hf; [lia|].
  pose proof (scanPass_ok s Hinv) as H.
  cbn [scanTokens splitAll].
  destruct (scanPass s) as [tok s'|s'|s'|]; [| | |contradiction].
  - destruct H as (Hi & Hlt & Htok & Hr' & He' & _). rewrite Htok.
    rewrite (IH s' f2 Hi He'); [|lia|now rewrite Hr'].
    pose proof (tokenizer_enough (S (String.length (sc_data s))) (sc_data s)) as Hen.
    destruct Hen as (res & Hres & Hlen); [lia|]. rewrite Htok in Hres.
    injection Hres as <-.
    rewrite (splitAll_fuel_irrelevant (String.length (sc_data s))
               (S (String.length (sc_data s')))) by lia.
    rewrite Hr'.
    destruct (splitAll _ _); [|reflexivity].
    destruct (pieceTokens f2 (sc_r s)); reflexivity.
  - destruct H as [_ H]. congruence.
  - destruct H as (Hi & Hlt & Htok & _ & Hs'). rewrite Htok.
    destruct f2 as [|f2]; [lia|].
    destruct (sc_r s) as [|c r] eqn:Er.
    + destruct Hs' as (R1 & R2 & R3). cbn [pieceTokens app].
      destruct fuel as [|fuel];
        [unfold scanMeasure in Hm; rewrite He in Hm; lia|].
      cbn [scanTokens]. pose proof (scanPass_ok s' Hi) as H'.
      destruct (scanPass s') as [tok s''|s''|s''|]; [| | |contradiction].
      * destruct H' as (_ & _ & _ & _ & _ & H'). congruence.
      * destruct H' as [-> _]. reflexivity.
      * destruct H' as (_ & _ & _ & H' & _). congruence.
    + subst s'. pose proof (splitAt_rest startBufSize (String c r)) as Hrest.
      pose proof startBufSize_pos as Hpos. cbn [String.length] in Hrest, Hf.
      rewrite (IH _ f2 Hi eq_refl); [| |cbn [sc_r]; lia].
      * cbn [sc_data sc_r pieceTokens app]. unfold bufferTokens.
        destruct (splitAll _ _); [|reflexivity].
        destruct (pieceTokens f2 _); reflexivity.
      * lia.
Qed.

(** The tokens of an input are those of its pieces of [startBufSize]
    bytes. *)
Lemma tokenize_pieces input :
  tokenize input = pieceTokens (S (String.length input)) input.
Proof.
  unfold tokenize, scanInput.
  rewrite (scanTokens_pieces _ _ (S (String.length input)) (NewScanner_inv input));
    [|reflexivity| |cbn [NewScanner sc_r]; lia].
  - cbn [NewScanner sc_data sc_r String.length splitAll tokenizer].
    destruct (pieceTokens _ _); reflexivity.
  - unfold scanMeasure, scanFuel, NewScanner.
    cbn [sc_r sc_data sc_err String.length]. lia.
Qed.

(** [ParseSource] parses the tokens of its input. *)
Lemma ParseSource_tokens input :
  exists toks, tokenize input = Some toks /\ ParseSource input = parse toks.
Proof.
  unfold tokenize, ParseSource. destruct (scanInput_total input) as [toks ->].
  eauto.
Qed.

Lemma legacy_ParseSource_tokens input :
  exists toks, tokenize input = Some toks
    /\ legacy.ParseSource input = legacy.extractSourceInfo toks.
Proof.
  unfold tokenize, legacy.ParseSource. destruct (scanInput_total input) as [toks ->].
  eauto.
Qed.

(** *** [#include] operands and their classification *)

(** One iteration of the main loop on [#include] followed by a token other
    than the opening angle bracket. *)
Lemma loopBody_include p r1 r2 tok :
  next (tr p) = (Some "#include", r1) ->
  next r1 = (Some tok, r2) ->
  tok <> "<" ->
  loopBody p
  = Continue (mkParser r2 "#include"
                (mkSourceInfo
                   (Includes (sourceInfo p)
                    ++ [mkInclude (TrimQuotes tok) (negb (containsQuote tok))
                                  (currentGuard p)])%list
                   (HasMain (sourceInfo p)))
                (conditionStack p) (exprGroupStack p)).
Proof.
  intros H1 H2 Hne. unfold loopBody. rewrite H1. cbn [String.prefix].
  unfold parseDirective. cbn [String.eqb Ascii.eqb Bool.eqb].
  unfold handleInclude. cbn [tr with_tr with_lastToken]. rewrite H2.
  apply String.eqb_neq in Hne. rewrite Hne. reflexivity.
Qed.

Lemma dropLeading_id (f : ascii -> bool) l :
  forallb (fun c => negb (f c)) l = true -> dropLeading f l = l.
Proof.
  destruct l as [|c l]; [reflexivity|]. simpl.
  intros H. apply andb_true_iff in H as [H _].
  now destruct (f c).
Qed.

Lemma plainWord_no_quote w :
  plainWord w = true ->
  forallb (fun c => negb (c =? "034")%char) (list_ascii_of_string w) = true.
Proof.
  unfold plainWord. rewrite !forallb_forall. intros H c Hc.
  specialize (H c Hc). now apply andb_true_iff in H as [_ H].
Qed.

Lemma TrimQuotes_quoted_plain w :
  plainWord w = true -> TrimQuotes (String "034" w) = w.
Proof.
  intros H. apply plainWord_no_quote in H. unfold TrimQuotes.
  cbn [list_ascii_of_string dropLeading]. cbn [Ascii.eqb Bool.eqb].
  rewrite (dropLeading_id _ _ H).
  rewrite dropLeading_id.
  - rewrite rev_involutive. apply string_of_list_ascii_of_string.
  - rewrite forallb_forall in *. intros c Hc. apply H. now apply in_rev.
Qed.

Lemma append_nil_l (s : string) : ("" ++ s) = s.
Proof. reflexivity. Qed.

Lemma scanWord_plain w d rest :
  plainWord w = true -> isDelimiter d = true ->
  scanWord (w ++ String d rest) = (w, String d rest).
Proof.
  intros Hw Hd. induction w as [|c w IH].
  - rewrite append_nil_l, scanWord_cons. unfold isDelimiter in Hd. now rewrite Hd.
  - unfold plainWord in Hw. cbn [list_ascii_of_string forallb] in Hw.
    apply andb_true_iff in Hw as [Hc Hw]. apply andb_true_iff in Hc as [Hc _].
    rewrite append_cons, scanWord_cons. unfold isDelimiter in Hc.
    apply negb_true_iff in Hc. rewrite Hc. now rewrite (IH Hw).
Qed.

(** The default branch of the tokenizer. *)
Lemma tokenizer_word fuel c rest :
  isDelimiter c = false -> c <> "/"%char ->
  tokenizer (S fuel) (String c rest) = Some (Some (scanWord (String c rest))).
Proof.
  intros Hd Hc. unfold isDelimiter in Hd.
  apply orb_false_iff in Hd as [Hd D4]. apply orb_false_iff in Hd as [Hd D3].
  apply orb_false_iff in Hd as [D1 D2].
  cbn [tokenizer]. rewrite D1, D2, D3, D4.
  cbn [String.prefix].
  destruct (ascii_dec "/" c) as [E|_]; [now contradiction Hc|]. reflexivity.
Qed.

Lemma tokenizer_space fuel rest :
  tokenizer (S fuel) (String " " rest) = tokenizer fuel rest.
Proof.
  cbn [tokenizer isEOL isSpace Ascii.eqb Bool.eqb orb String.prefix].
  destruct (ascii_dec "/" " ") as [E|_]; [discriminate E|]. reflexivity.
Qed.

(** The tokens of an include line whose opening quote is never closed. *)
Lemma bufferTokens_unterminated_include w :
  plainWord w = true ->
  bufferTokens ("#include " ++ dq ++ w ++ nl)
  = Some ["#include"; String "034" w; EOL].
Proof.
  intros Hw.
  assert (Hnl : bufferTokens (String "010" EmptyString) = Some [EOL]) by reflexivity.
  assert (Hq : bufferTokens (String "034" (w ++ String "010" EmptyString))
               = Some [String "034" w; EOL]).
  { rewrite bufferTokens_step, tokenizer_word by (reflexivity || discriminate).
    rewrite scanWord_cons.
    cbn [isEOL isSpace isParanthesis isOperatorChar Ascii.eqb Bool.eqb orb].
    rewrite (scanWord_plain w "010"%char EmptyString Hw eq_refl).
    now rewrite Hnl. }
  assert (Hs : bufferTokens (String " " (String "034" (w ++ String "010" EmptyString)))
               = Some [String "034" w; EOL]).
  { rewrite bufferTokens_step, tokenizer_space. cbn [String.length].
    rewrite tokenizer_word by (reflexivity || discriminate).
    rewrite scanWord_cons.
    cbn [isEOL isSpace isParanthesis isOperatorChar Ascii.eqb Bool.eqb orb].
    rewrite (scanWord_plain w "010"%char EmptyString Hw eq_refl).
    now rewrite Hnl. }
  change ("#include " ++ dq ++ w ++ nl)
    with (String "#" (String "i" (String "n" (String "c" (String "l" (String "u"
           (String "d" (String "e" (String " " (String "034"
             (w ++ String "010" EmptyString))))))))))).
  rewrite bufferTokens_step, tokenizer_word by (reflexivity || discriminate).
  repeat (rewrite scanWord_cons;
          cbn [isEOL isSpace isParanthesis isOperatorChar Ascii.eqb Bool.eqb orb]).
  now rewrite Hs.
Qed.

(** C6, as stated, fails: the unterminated quoted include of the parser's
    own test is recorded with [IsSystemInclude = false], unlike the
    bracketed form. *)
Lemma unterminated_quote_is_not_system :
  ParseSource ("#include " ++ dq ++ "stdio.h" ++ nl)
  = Return (mkSourceInfo [mkInclude "stdio.h" false None] false) None
  /\ ParseSource ("#include <stdio.h>" ++ nl)
     = Return (mkSourceInfo [mkInclude "stdio.h" true None] false) None.
Proof. split; vm_compute; reflexivity. Qed.

(** One iteration of the main loop on [#include] followed by the opening
    angle bracket and one more token. *)
Lemma loopBody_include_bracket p r1 r2 r3 tok :
  next (tr p) = (Some "#include", r1) ->
  next r1 = (Some "<", r2) ->
  next r2 = (Some tok, r3) ->
  loopBody p
  = Continue (mkParser r3 "#include"
                (mkSourceInfo
                   (Includes (sourceInfo p)
                    ++ [mkInclude (TrimQuotes tok) true (currentGuard p)])%list
                   (HasMain (sourceInfo p)))
                (conditionStack p) (exprGroupStack p)).
Proof.
  intros H1 H2 H3. unfold loopBody. rewrite H1. cbn [String.prefix].
  unfold parseDirective. cbn [String.eqb Ascii.eqb Bool.eqb].
  unfold handleInclude. cbn [tr with_tr with_lastToken]. rewrite H2.
  cbn [String.eqb Ascii.eqb Bool.eqb tr]. rewrite H3. reflexivity.
Qed.

(** C6, amended. An include is a system include when it is written with
    an opening angle bracket or when its operand holds no double quote at
    all; an operand with a double quote, closed or not, is a quoted
    include. In particular [#include] followed by a quote, a path and the
    end of the line, all within the scanner's first buffer, records the
    path with [IsSystemInclude = false]; whatever token follows the
    opening angle bracket is recorded with [IsSystemInclude = true]. *)
Theorem unterminated_quote_include_is_quoted :
  (forall w, plainWord w = true ->
     (String.length ("#include " ++ dq ++ w ++ nl) <= startBufSize)%nat ->
     ParseSource ("#include " ++ dq ++ w ++ nl)
     = Return (mkSourceInfo [mkInclude w false None] false) None)
  /\ (forall p r1 r2 tok,
        next (tr p) = (Some "#include", r1) ->
        next r1 = (Some tok, r2) ->
        tok <> "<" ->
        exists p', loopBody p = Continue p'
          /\ Includes (sourceInfo p')
             = (Includes (sourceInfo p)
                ++ [mkInclude (TrimQuotes tok) (negb (containsQuote tok))
                              (currentGuard p)])%list)
  /\ (forall p r1 r2 r3 tok,
        next (tr p) = (Some "#include", r1) ->
        next r1 = (Some "<", r2) ->
        next r2 = (Some tok, r3) ->
        exists p', loopBody p = Continue p'
          /\ Includes (sourceInfo p')
             = (Includes (sourceInfo p)
                ++ [mkInclude (TrimQuotes tok) true (currentGuard p)])%list).
Proof.
  split; [|split].
  - intros w Hw Hlen.
    destruct (ParseSource_tokens ("#include " ++ dq ++ w ++ nl)) as (toks & Ht & ->).
    rewrite (tokenize_short _ Hlen), (bufferTokens_unterminated_include w Hw) in Ht.
    injection Ht as <-.
    unfold parse. cbn [length parseLoop].
    rewrite (loopBody_include (newParser ["#include"; String "034" w; EOL])
               (mkReader [String "034" w; EOL] None) (mkReader [EOL] None)
               (String "034" w));
      [|reflexivity|reflexivity|discriminate].
    cbn [newParser sourceInfo Includes HasMain conditionStack exprGroupStack app].
    rewrite (TrimQuotes_quoted_plain w Hw).
    reflexivity.
  - intros p r1 r2 tok H1 H2 Hne. eexists. split.
    + exact (loopBody_include p r1 r2 tok H1 H2 Hne).
    + reflexivity.
  - intros p r1 r2 r3 tok H1 H2 H3. eexists. split.
    + exact (loopBody_include_bracket p r1 r2 r3 tok H1 H2 H3).
    + reflexivity.
Qed.

(** The theorem of C6 on the include line of the parser's test, and on its
    bracketed form. *)
Lemma unterminated_quote_include_is_quoted_witness :
  plainWord "stdio.h" = true
  /\ ParseSource ("#include " ++ dq ++ "stdio.h" ++ nl)
     = Return (mkSourceInfo [mkInclude "stdio.h" false None] false) None
  /\ exists p', loopBody (parserOn ("#include <stdio.h>" ++ nl)) = Continue p'
       /\ Includes (sourceInfo p') = [mkInclude "stdio.h" true None].
Proof.
  split; [reflexivity|]. split.
  - apply (proj1 unterminated_quote_include_is_quoted "stdio.h"); [reflexivity|].
    apply Nat.leb_le. vm_compute. reflexivity.
  - apply (proj2 (proj2 unterminated_quote_include_is_quoted)
             (parserOn ("#include <stdio.h>" ++ nl))
             (mkReader ["<"; "stdio.h"; ">"; EOL] None)
             (mkReader ["stdio.h"; ">"; EOL] None)
             (mkReader [">"; EOL] None) "stdio.h");
      vm_compute; reflexivity.
Defined.

(** *** The tokens a reader delivers *)

Lemma nextFrom_split k toks :
  match nextFrom k toks with
  | (Some t, rest) => exists pre, toks = (pre ++ t :: rest)%list
  | (None, rest) => rest = []
  end.
Proof.
  induction toks as [|t toks IH]; simpl; [reflexivity|].
  destruct (String.eqb t EOL && negb k).
  - destruct (nextFrom k toks) as [[t'|] rest]; [|exact IH].
    destruct IH as [pre ->]. now exists (t :: pre).
  - now exists [].
Qed.

Lemma length_suffix {A} (pre : list A) t rest :
  (length rest < length (pre ++ t :: rest))%nat.
Proof. rewrite length_app. simpl. lia. Qed.

Lemma next_mkReader toks :
  next (mkReader toks None)
  = ((nextFrom false toks).1, mkReader (nextFrom false toks).2 None).
Proof.
  unfold next, nextInternal, pending. cbn [buf scanner].
  now destruct (nextFrom false toks).
Qed.

(** *** The two stacks move in lockstep *)

Lemma lockstep_iff p :
  lockstep p = true <->
  length (conditionStack p) = length (exprGroupStack p)
  /\ Forall (fun g => g <> []) (exprGroupStack p).
Proof.
  unfold lockstep.
  rewrite andb_true_iff, Nat.eqb_eq, forallb_forall, List.Forall_forall.
  split; intros [H1 H2]; (split; [exact H1|]); intros g Hg.
  - specialize (H2 g Hg). intros ->. discriminate H2.
  - specialize (H2 g Hg). destruct g; [now contradiction H2|reflexivity].
Qed.

Lemma snoc_cases {A} (l : list A) : l = [] \/ exists l' x, l = (l' ++ [x])%list.
Proof.
  destruct l as [|a l]; [now left|right].
  destruct (@exists_last _ (a :: l)) as (l' & x & E); [discriminate|]. eauto.
Qed.

Lemma lockstep_cases p :
  lockstep p = true ->
  (conditionStack p = [] /\ exprGroupStack p = [])
  \/ exists cs c gs g0 g,
       conditionStack p = (cs ++ [c])%list
       /\ exprGroupStack p = (gs ++ [g0 :: g])%list.
Proof.
  intros H. apply lockstep_iff in H as [Hlen Hne].
  destruct (snoc_cases (conditionStack p)) as [Hc|(cs & c & Hc)];
    destruct (snoc_cases (exprGroupStack p)) as [Hg|(gs & g & Hg)];
    rewrite Hc, Hg in Hlen; rewrite ?length_app in Hlen; simpl in Hlen;
    try lia.
  - now left.
  - right. rewrite Hg in Hne. apply Forall_app in Hne as [_ Hne].
    apply Forall_inv in Hne. destruct g as [|g0 g]; [now contradiction Hne|].
    now exists cs, c, gs, g0, g.
Qed.

Lemma handleInclude_stacks p p' :
  handleInclude p = Ret tt p' ->
  conditionStack p' = conditionStack p /\ exprGroupStack p' = exprGroupStack p.
Proof.
  unfold handleInclude. destruct (next (tr p)) as [[inc|] r]; [|discriminate].
  destruct (String.eqb inc "<").
  - cbn [tr with_tr]. destruct (next r) as [[inc2|] r2]; [|discriminate].
    intros [= <-]. split; reflexivity.
  - intros [= <-]. split; reflexivity.
Qed.

Lemma parseIdent_stacks p t p' :
  parseIdent p = Ret t p' ->
  conditionStack p' = conditionStack p /\ exprGroupStack p' = exprGroupStack p.
Proof.
  unfold parseIdent. destruct (parseIdentFrom (pending (tr p))) as [[t'|] rest];
    [|discriminate].
  intros [= _ <-]. split; reflexivity.
Qed.

Lemma parseExpr_stacks p e p' :
  parseExpr p = Ret e p' ->
  conditionStack p' = conditionStack p /\ exprGroupStack p' = exprGroupStack p.
Proof.
  unfold parseExpr. destruct (parseExprFrom (tr p)) as [e' r| | |]; try discriminate.
  intros [= _ <-]. split; reflexivity.
Qed.

(** A successful directive changes the stacks in one of the four ways. *)
Lemma parseDirective_shape tok p p' :
  lockstep p = true ->
  parseDirective tok p = Ret tt p' ->
  stackShape (conditionStack p) (exprGroupStack p)
             (conditionStack p') (exprGroupStack p').
Proof.
  intros Hl. unfold parseDirective.
  destruct (String.eqb tok "#include").
  { intros H. apply handleInclude_stacks in H as [-> ->]. constructor. }
  destruct (String.eqb tok "#ifdef" || String.eqb tok "#ifndef").
  { unfold handleIfdef. destruct (parseIdent p) as [t p2| | |] eqn:E;
      cbn [obind]; try discriminate.
    apply parseIdent_stacks in E as [Ec Eg]. intros [= <-].
    cbn [pushNewGroup pushCondition conditionStack exprGroupStack
         with_conditionStack with_exprGroupStack].
    rewrite Ec, Eg. constructor. }
  destruct (String.eqb tok "#if").
  { unfold handleIf. destruct (parseExpr p) as [e p2| | |] eqn:E;
      cbn [obind]; try discriminate.
    apply parseExpr_stacks in E as [Ec Eg]. intros [= <-].
    cbn [pushNewGroup pushCondition conditionStack exprGroupStack
         with_conditionStack with_exprGroupStack].
    rewrite Ec, Eg. constructor. }
  destruct (lockstep_cases p Hl) as [[Hc Hg]|(cs & c & gs & g0 & g & Hc & Hg)].
  - (* no block is open: #else, #elif and #endif change nothing *)
    assert (Hpop : popCondition p = (false, p))
      by (unfold popCondition; now rewrite Hc).
    assert (Hcur : currentGroup p = None)
      by (unfold currentGroup; now rewrite Hg).
    assert (Hpg : popGroup p = (false, p))
      by (unfold popGroup; now rewrite Hg).
    destruct (String.eqb tok "#else").
    { unfold handleElse. rewrite Hcur, Hpop. intros [= <-]. constructor. }
    destruct (String.eqb tok "#elif" || String.eqb tok "#elifdef"
              || String.eqb tok "#elifndef").
    { unfold handleElif. rewrite Hcur, Hpop. intros [= <-]. constructor. }
    destruct (String.eqb tok "#endif").
    { rewrite Hpop. cbn [snd]. rewrite Hpg. intros [= <-]. constructor. }
    intros [= <-]. constructor.
  - destruct (String.eqb tok "#else").
    { rewrite (handleElse_spec p cs c gs g0 g Hc Hg). intros [= <-].
      cbn [conditionStack exprGroupStack]. rewrite Hc, Hg.
      change (g0 :: g ++ [Not (foldl Or g0 g)])%list
        with ((g0 :: g) ++ [Not (foldl Or g0 g)])%list.
      eapply shape_replace; reflexivity. }
    destruct (String.eqb tok "#elif" || String.eqb tok "#elifdef"
              || String.eqb tok "#elifndef").
    { unfold handleElif.
      rewrite (currentGroup_snoc _ _ _ Hg), (popCondition_snoc _ _ _ Hc).
      set (p0 := with_conditionStack p cs).
      assert (Hg0 : exprGroupStack p0 = (gs ++ [g0 :: g])%list) by exact Hg.
      assert (Hfin : forall e p2,
                conditionStack p2 = cs -> exprGroupStack p2 = (gs ++ [g0 :: g])%list ->
                obind (liftRes (orAll (g0 :: g)) p2)
                  (fun disj p3 =>
                     obind (liftRes (appendToCurrentGroup e
                                       (pushCondition (And e (Not disj)) p3)) p3)
                           (fun p4 _ => Ret tt p4)) = Ret tt p' ->
                stackShape (conditionStack p) (exprGroupStack p)
                           (conditionStack p') (exprGroupStack p')).
      { intros e p2 Hc2 Hg2. cbn [orAll liftRes obind].
        erewrite appendToCurrentGroup_snoc by (simpl; exact Hg2).
        cbn [liftRes obind]. intros [= <-].
        cbn [conditionStack exprGroupStack pushCondition with_conditionStack
             with_exprGroupStack].
        rewrite Hc, Hg, Hc2.
        change (g0 :: g ++ [e])%list with ((g0 :: g) ++ [e])%list.
        eapply shape_replace; reflexivity. }
      destruct (String.eqb tok "#elif").
      - destruct (parseExpr p0) as [e p2| | |] eqn:E; cbn [obind]; try discriminate.
        apply parseExpr_stacks in E as [Ec Eg]. apply Hfin.
        + now rewrite Ec.
        + now rewrite Eg.
      - destruct (parseIdent p0) as [t p2| | |] eqn:E; cbn [obind]; try discriminate.
        apply parseIdent_stacks in E as [Ec Eg]. apply Hfin.
        + now rewrite Ec.
        + now rewrite Eg. }
    destruct (String.eqb tok "#endif").
    { rewrite (popCondition_snoc _ _ _ Hc). cbn [snd].
      erewrite popGroup_snoc by (simpl; exact Hg).
      intros [= <-]. cbn [snd conditionStack exprGroupStack with_exprGroupStack
                          with_conditionStack].
      rewrite Hc, Hg. eapply shape_pop; reflexivity. }
    intros [= <-]. constructor.
Qed.

Lemma loopBody_shape p p' :
  lockstep p = true ->
  loopBody p = Continue p' ->
  stackShape (conditionStack p) (exprGroupStack p)
             (conditionStack p') (exprGroupStack p').
Proof.
  intros Hl. unfold loopBody.
  destruct (next (tr p)) as [[tok|] r]; [|discriminate].
  set (p1 := with_lastToken (with_tr p r) tok).
  assert (Hl1 : lockstep p1 = true) by exact Hl.
  destruct (String.prefix "#" tok).
  - destruct (parseDirective tok p1) as [[] p2| | |] eqn:E; try discriminate.
    intros [= <-]. exact (parseDirective_shape tok p1 p2 Hl1 E).
  - destruct (String.eqb tok "main").
    + destruct (next (tr p1)) as [[a|] r2].
      * destruct (String.eqb a "(" && String.eqb (lastToken p) "int");
          intros [= <-]; constructor.
      * intros [= <-]. constructor.
    + intros [= <-]. constructor.
Qed.

Lemma stackShape_lockstep cs (gs : list (list Expr)) cs' gs' :
  length cs = length gs -> Forall (fun g => g <> []) gs ->
  stackShape cs gs cs' gs' ->
  length cs' = length gs' /\ Forall (fun g => g <> []) gs'.
Proof.
  intros Hlen Hne Hs. destruct Hs as [|e|cs' c gs' g Ec Eg|cs' c gs' g x y Ec Eg].
  - now split.
  - rewrite !length_app. simpl. split; [lia|].
    apply Forall_app. split; [exact Hne|]. now repeat constructor.
  - subst cs gs. rewrite !length_app in Hlen. simpl in Hlen.
    split; [lia|]. now apply Forall_app in Hne as [Hne _].
  - subst cs gs. rewrite !length_app in *. simpl in *.
    split; [lia|]. apply Forall_app in Hne as [Hne _].
    apply Forall_app. split; [exact Hne|]. constructor; [|constructor].
    now destruct g.
Qed.



Lemma shape_lockstep p p' :
  lockstep p = true ->
  stackShape (conditionStack p) (exprGroupStack p)
             (conditionStack p') (exprGroupStack p') ->
  lockstep p' = true.
Proof.
  intros Hl Hs. apply lockstep_iff in Hl as [Hlen Hne]. apply lockstep_iff.
  exact (stackShape_lockstep _ _ _ _ Hlen Hne Hs).
Qed.



(** Every state the main loop reaches from the start is in lockstep. *)
Lemma stateAfter_lockstep n p :
  lockstep p = true -> lockstep (stateAfter n p) = true.
Proof.
  revert p. induction n as [|n IH]; intros p Hl; cbn [stateAfter]; [exact Hl|].
  destruct (loopBody p) as [p'| | |] eqn:E; try exact Hl.
  apply IH. exact (shape_lockstep p p' Hl (loopBody_shape p p' Hl E)).
Qed.





(** The parse of [nestedThenElse]: the include after the outer [#else] is
    guarded by the negation of the outer branch alone. *)
Example nested_then_else_conditions :
  conditionsOf (ParseSource nestedThenElse) = [Some (Not (Defined "A"))].
Proof. vm_compute. reflexivity. Qed.

(** ** The source grouper *)
Section GroupGraph.

#[local] Set Warnings "-clear-no-such-hyp".

Variable E : list (string * string).
Variable nodes : list string.
Hypothesis edges_in_nodes : forall x y, (x, y) ∈ E -> x ∈ nodes /\ y ∈ nodes.
Hypothesis nodes_nodup : NoDup nodes.

Let edge (x y : string) : Prop := (x, y) ∈ E.
Let V : gset string := list_to_set nodes.

Lemma elem_of_successors (S : gset string) y :
  y ∈ successors E S <-> exists x, x ∈ S /\ (x, y) ∈ E.
Proof.
  unfold successors. rewrite elem_of_list_to_set, list_elem_of_fmap. split.
  - intros ([x y'] & -> & Hin). apply list_elem_of_filter in Hin as [Hx Hin].
    exists x. auto.
  - intros (x & Hx & Hin). exists (x, y). split; [reflexivity|].
    apply list_elem_of_filter. auto.
Qed.

Lemma closure_incl n (S : gset string) : S ⊆ closure E n S.
Proof.
  revert S. induction n as [|n IH]; intros S; cbn [closure]; [done|].
  etransitivity; [|apply IH]. set_solver.
Qed.

Lemma closure_sound n (S : gset string) x :
  x ∈ closure E n S -> exists s, s ∈ S /\ rtc edge s x.
Proof.
  revert S. induction n as [|n IH]; intros S; cbn [closure].
  - intros Hx. exists x. split; [exact Hx|constructor].
  - intros Hx. destruct (IH _ Hx) as (s & Hs & Hsx).
    apply elem_of_union in Hs as [Hs|Hs]; [eauto|].
    apply elem_of_successors in Hs as (s0 & Hs0 & He).
    exists s0. split; [exact Hs0|]. eapply rtc_l; [exact He|exact Hsx].
Qed.

Lemma successors_in_V (S : gset string) : successors E S ⊆ V.
Proof.
  intros y Hy. apply elem_of_successors in Hy as (x & _ & He).
  apply elem_of_list_to_set. now apply edges_in_nodes in He.
Qed.

Lemma closure_fixed n (S : gset string) :
  S ∪ successors E S = S -> closure E n S = S.
Proof.
  intros Hfix. induction n as [|n IH]; cbn [closure]; [reflexivity|].
  now rewrite Hfix.
Qed.

(** After enough rounds nothing new is added. *)
Lemma closure_closed n (S : gset string) :
  S ⊆ V -> (size V <= n + size S)%nat ->
  successors E (closure E n S) ⊆ closure E n S.
Proof.
  revert S. induction n as [|n IH]; intros S HS Hsz; cbn [closure].
  - assert (S = V) as -> by (apply set_subseteq_size_eq; [exact HS|lia]).
    apply successors_in_V.
  - destruct (decide (S ∪ successors E S = S)) as [Hfix|Hgrow].
    + rewrite Hfix, (closure_fixed n S Hfix). set_solver.
    + apply IH.
      * pose proof (successors_in_V S). set_solver.
      * assert (S ⊂ S ∪ successors E S) as Hlt.
        { split; [set_solver|]. intros Hsub. apply Hgrow.
          apply set_eq. intros x. split; [apply Hsub|set_solver]. }
        apply subset_size in Hlt. lia.
Qed.

Lemma reachable_iff a x :
  a ∈ nodes -> (x ∈ reachableFrom E nodes a <-> rtc edge a x).
Proof.
  intros Ha. unfold reachableFrom. split.
  - intros Hx. apply closure_sound in Hx as (s & Hs & Hsx).
    apply elem_of_singleton in Hs. now subst s.
  - intros Hax.
    assert (Hcl : successors E (closure E (length nodes) {[a]})
                  ⊆ closure E (length nodes) {[a]}).
    { apply closure_closed.
      - intros y Hy. apply elem_of_singleton in Hy. subst y.
        now apply elem_of_list_to_set.
      - unfold V. rewrite size_list_to_set by exact nodes_nodup. lia. }
    assert (Ha0 : a ∈ closure E (length nodes) {[a]})
      by (apply closure_incl; set_solver).
    revert Hcl Ha0. generalize (closure E (length nodes) {[a]}). clear Ha.
    induction Hax as [|x y z Hxy Hyz IH]; intros C Hcl Hx; [exact Hx|].
    apply IH; [exact Hcl|]. apply Hcl. apply elem_of_successors. eauto.
Qed.

Lemma rtc_edge_in_nodes a x : a ∈ nodes -> rtc edge a x -> x ∈ nodes.
Proof.
  intros Ha Hax. induction Hax as [|x y z Hxy Hyz IH]; [exact Ha|].
  apply IH. now apply edges_in_nodes in Hxy.
Qed.

Lemma elem_of_sccOf a b :
  a ∈ nodes -> (b ∈ sccOf E nodes a <-> rtc edge a b /\ rtc edge b a).
Proof.
  intros Ha. unfold sccOf. rewrite list_elem_of_filter. split.
  - intros [[Hab Hba] Hb]. split.
    + now apply reachable_iff in Hab.
    + now apply reachable_iff in Hba.
  - intros [Hab Hba]. assert (Hb : b ∈ nodes) by eauto using rtc_edge_in_nodes.
    split; [|exact Hb]. split; now apply reachable_iff.
Qed.

Lemma sccOf_refl a : a ∈ nodes -> a ∈ sccOf E nodes a.
Proof. intros Ha. apply elem_of_sccOf; [exact Ha|]. split; constructor. Qed.

Lemma sccOf_in_nodes a b : b ∈ sccOf E nodes a -> b ∈ nodes.
Proof. unfold sccOf. rewrite list_elem_of_filter. tauto. Qed.

Lemma sccOf_eq a b :
  a ∈ nodes -> b ∈ sccOf E nodes a -> sccOf E nodes b = sccOf E nodes a.
Proof.
  intros Ha Hb. pose proof (sccOf_in_nodes _ _ Hb) as Hbn.
  apply elem_of_sccOf in Hb as [Hab Hba]; [|exact Ha].
  unfold sccOf. apply list_filter_iff. intros x. split.
  - intros [Hbx Hxb]. destruct (decide (x ∈ nodes)) as [Hx|Hx].
    + apply reachable_iff in Hbx; [|exact Hbn].
      apply reachable_iff in Hxb; [|exact Hx].
      split; apply reachable_iff; auto; eapply rtc_trans; eauto.
    + exfalso. apply Hx. apply reachable_iff in Hbx; [|exact Hbn].
      eauto using rtc_edge_in_nodes.
  - intros [Hax Hxa]. destruct (decide (x ∈ nodes)) as [Hx|Hx].
    + apply reachable_iff in Hax; [|exact Ha].
      apply reachable_iff in Hxa; [|exact Hx].
      split; apply reachable_iff; auto; eapply rtc_trans; eauto.
    + exfalso. apply Hx. apply reachable_iff in Hax; [|exact Ha].
      eauto using rtc_edge_in_nodes.
Qed.

Lemma representative_in_scc a :
  a ∈ nodes -> representative E nodes a ∈ sccOf E nodes a.
Proof.
  intros Ha. unfold representative, sortStrings.
  pose proof (merge_sort_Permutation string_le (sccOf E nodes a)) as Hperm.
  destruct (merge_sort string_le (sccOf E nodes a)) as [|r l] eqn:Es.
  - simpl. now apply sccOf_refl.
  - simpl. rewrite <- Hperm. now left.
Qed.

Lemma representative_eq a b :
  a ∈ nodes -> b ∈ sccOf E nodes a ->
  representative E nodes b = representative E nodes a.
Proof.
  intros Ha Hb. unfold representative. rewrite (sccOf_eq a b Ha Hb).
  pose proof (sccOf_refl a Ha) as Haa.
  pose proof (merge_sort_Permutation string_le (sccOf E nodes a)) as Hperm.
  unfold sortStrings.
  destruct (merge_sort string_le (sccOf E nodes a)) as [|r l]; [|reflexivity].
  apply Permutation_nil_l in Hperm. rewrite <- Hperm in Haa.
  now apply not_elem_of_nil in Haa.
Qed.

(** An edge that leaves the component of [r], named by the merged group of
    its target, cannot lead back to [r]. *)
Lemma leaving_edge_no_return r s t :
  r ∈ nodes -> s ∈ sccOf E nodes r -> (s, t) ∈ E -> t ∉ sccOf E nodes r ->
  rtc edge r (representative E nodes t)
  /\ ~ rtc edge (representative E nodes t) r.
Proof.
  intros Hr Hs He Ht.
  apply elem_of_sccOf in Hs as [Hrs Hsr]; [|exact Hr].
  assert (Htn : t ∈ nodes) by now apply edges_in_nodes in He.
  pose proof (representative_in_scc t Htn) as Hrep.
  apply elem_of_sccOf in Hrep as [Htr' Hr't]; [|exact Htn].
  assert (Hrt : rtc edge r t) by (eapply rtc_r; [exact Hrs|exact He]).
  split; [eapply rtc_trans; eauto|].
  intros Hback. apply Ht. apply elem_of_sccOf; [exact Hr|]. split; [exact Hrt|].
  eapply rtc_trans; eauto.
Qed.

End GroupGraph.

Lemma groupEdges_in_nodes files infos x y :
  (x, y) ∈ groupEdges files infos ->
  x ∈ initialIds files /\ y ∈ initialIds files.
Proof.
  unfold groupEdges, initialIds. rewrite !elem_of_remove_dups.
  intros H. apply list_elem_of_In, in_flat_map in H as (f & Hf & H).
  unfold fileEdges in H. apply in_flat_map in H as (inc & _ & H).
  destruct (IsSystemInclude inc); [destruct H|].
  destruct (Condition inc); [destruct H|].
  unfold resolveInclude in H.
  destruct (existsb (fun f0 => String.eqb (baseName f0) (baseName (Path inc))) files)
    eqn:Hex; [|destruct H].
  destruct (String.eqb (groupIdOf (Path inc)) (groupIdOf f)); [destruct H|].
  destruct H as [[= <- <-]|[]]. split.
  - apply list_elem_of_In, in_map, Hf.
  - apply existsb_exists in Hex as (f' & Hf' & Heq).
    apply String.eqb_eq in Heq. unfold groupIdOf. rewrite <- Heq.
    apply list_elem_of_In. apply (in_map (fun f0 => stripExt (baseName f0))), Hf'.
Qed.

Lemma groupSourcesByUnits_lookup files infos r g :
  groupSourcesByUnits files infos !! r = Some g ->
  (exists a, a ∈ initialIds files
             /\ r = representative (groupEdges files infos) (initialIds files) a)
  /\ g = mergedGroup files (groupEdges files infos) (initialIds files) r.
Proof.
  unfold groupSourcesByUnits. intros H.
  apply elem_of_list_to_map_2, list_elem_of_In, in_map_iff in H
    as (r' & [= <- <-] & Hr).
  split; [|reflexivity].
  apply list_elem_of_In, elem_of_remove_dups, list_elem_of_In, in_map_iff in Hr
    as (a & <- & Ha).
  exists a. split; [now apply list_elem_of_In|reflexivity].
Qed.

(** A dependency of an output group follows the edges of the group graph
    and cannot be followed back. *)
Lemma dependsEdge_no_return files infos r r' :
  dependsEdge (groupSourcesByUnits files infos) r r' ->
  rtc (fun x y => (x, y) ∈ groupEdges files infos) r r'
  /\ ~ rtc (fun x y => (x, y) ∈ groupEdges files infos) r' r.
Proof.
  intros (g & Hg & Hin).
  apply groupSourcesByUnits_lookup in Hg as [(a & Ha & Hr) ->].
  set (E := groupEdges files infos) in *. set (nodes := initialIds files) in *.
  assert (HE : forall x y, (x, y) ∈ E -> x ∈ nodes /\ y ∈ nodes)
    by apply groupEdges_in_nodes.
  assert (Hnd : NoDup nodes) by apply NoDup_remove_dups.
  assert (Hrs : r ∈ sccOf E nodes a)
    by (rewrite Hr; now apply representative_in_scc).
  assert (Hrn : r ∈ nodes) by (eapply sccOf_in_nodes; exact Hrs).
  cbn [mergedGroup dependsOn] in Hin. unfold sortStrings in Hin.
  rewrite merge_sort_Permutation, elem_of_remove_dups, list_elem_of_fmap in Hin.
  destruct Hin as ([s t] & -> & Hin).
  apply list_elem_of_filter in Hin as [[Hs Ht] He]. cbn [fst snd] in *.
  exact (leaving_edge_no_return E nodes HE Hnd r s t Hrn Hs He Ht).
Qed.

(** C8. In the map of groups the grouper returns, the graph induced by
    the [dependsOn] lists has no cycle, and no group depends on itself. *)
Theorem groupSourcesByUnits_acyclic files infos :
  (forall a, ~ tc (dependsEdge (groupSourcesByUnits files infos)) a a)
  /\ (forall a g, groupSourcesByUnits files infos !! a = Some g ->
                  a ∉ dependsOn g).
Proof.
  set (G := groupSourcesByUnits files infos).
  set (edge := fun x y => (x, y) ∈ groupEdges files infos).
  assert (Hreach : forall x y, tc (dependsEdge G) x y -> rtc edge x y).
  { intros x y H. induction H as [x y H|x y z H _ IH].
    - now apply dependsEdge_no_return in H as [H _].
    - apply dependsEdge_no_return in H as [H _]. eapply rtc_trans; eauto. }
  assert (Hacyc : forall a, ~ tc (dependsEdge G) a a).
  { intros a H. inversion H as [x y Hd|x y z Hd Htc]; subst.
    - apply dependsEdge_no_return in Hd as [_ Hno]. apply Hno. constructor.
    - apply dependsEdge_no_return in Hd as [_ Hno]. apply Hno.
      now apply Hreach. }
  split; [exact Hacyc|].
  intros a g Hg Hin. apply (Hacyc a). apply tc_once. now exists g.
Qed.

(** The grouper on the cyclic case of its test: [a] and [b] are merged
    under [a], and [c] depends on the merged group. *)
Example groupSourcesByUnits_cyclic :
  map_to_list (groupSourcesByUnits cyclicFiles cyclicInput)
  = [("c", mkGroup ["c.h"] ["a"] []);
     ("a", mkGroup ["a.c"; "a.h"; "b.cc"; "b.h"] [] ["a"; "b"])].
Proof. vm_compute. reflexivity. Qed.

(** ** The fuel of the model is never exhausted *)

Lemma nextFrom_length k toks :
  (length (nextFrom k toks).2 <= length toks)%nat
  /\ (is_Some (nextFrom k toks).1 ->
      (length (nextFrom k toks).2 < length toks)%nat).
Proof.
  induction toks as [|t toks [IH1 IH2]]; simpl.
  - split; [lia|]. intros [? H]. discriminate H.
  - destruct (String.eqb t EOL && negb k); simpl; split; lia.
Qed.

Lemma nextInternal_plen k r :
  (plen (nextInternal k r).2 <= plen r)%nat
  /\ (is_Some (nextInternal k r).1 -> (plen (nextInternal k r).2 < plen r)%nat).
Proof.
  unfold nextInternal, plen. pose proof (nextFrom_length k (pending r)) as H.
  destruct (nextFrom k (pending r)) as [t rest]. exact H.
Qed.

Lemma peekInternal_plen k r : (plen (peekInternal k r).2 <= plen r)%nat.
Proof.
  unfold peekInternal. destruct (buf r) as [b|] eqn:Hb.
  - destruct (negb k && String.eqb b EOL); [apply nextInternal_plen|simpl; lia].
  - pose proof (nextInternal_plen k r) as [H1 H2].
    destruct (nextInternal k r) as [[tok|] r']; simpl in *; [|exact H1].
    specialize (H2 (ex_intro _ tok eq_refl)).
    unfold plen, pending in *. simpl. destruct (buf r'); simpl in *; lia.
Qed.

Lemma collect_settled fuel acc r :
  (plen r < fuel)%nat -> settled plen (plen r) (collect fuel acc r).
Proof.
  revert acc r. induction fuel as [|fuel IH]; intros acc r Hlen; [lia|].
  cbn [collect]. pose proof (nextInternal_plen true r) as [H1 H2].
  destruct (nextInternal true r) as [[token|] r1]; simpl in H1, H2; [|exact H1].
  specialize (H2 (ex_intro _ token eq_refl)).
  assert (Hrec : forall acc' r', (plen r' <= plen r1)%nat ->
            settled plen (plen r) (collect fuel acc' r')).
  { intros acc' r' Hr'. specialize (IH acc' r' ltac:(lia)).
    unfold settled in *. destruct (collect fuel acc' r'); try exact IH; lia. }
  destruct (String.eqb token "\").
  - pose proof (peekInternal_plen false r1) as Hp. unfold peek.
    destruct (peekInternal false r1) as [[nx|] r2]; simpl in Hp.
    + destruct (String.eqb nx EOL); [|now apply Hrec].
      apply Hrec. pose proof (nextInternal_plen false r2) as [Hn _].
      unfold next. lia.
    + now apply Hrec.
  - destruct (String.eqb token EOL); [simpl; lia|]. apply Hrec. lia.
Qed.

Lemma settled_mono {S A} (m : S -> nat) b b' (out : Out S A) :
  settled m b out -> (b <= b')%nat -> settled m b' out.
Proof. destruct out; simpl; try tauto; lia. Qed.

Lemma settled_obind {S A B} (m : S -> nat) b (out : Out S A) (k : A -> S -> Out S B) :
  settled m b out ->
  (forall a s, (m s <= b)%nat -> settled m b (k a s)) ->
  settled m b (obind out k).
Proof. destruct out; simpl; auto. Qed.

Lemma ts_peek_rem s ts : ts_peek s ts = true -> (1 <= rem ts)%nat.
Proof.
  unfold ts_peek, rem. destruct (tokens ts !! idx ts) eqn:E; [|discriminate].
  apply lookup_lt_Some in E. lia.
Qed.

Lemma rem_advance ts : rem (advance ts) = (rem ts - 1)%nat.
Proof. unfold rem, advance. simpl. lia. Qed.

Lemma ts_next_settled ts : settled rem (rem ts) (ts_next ts).
Proof.
  unfold ts_next. destruct (tokens ts !! idx ts); simpl; [|exact I].
  rewrite rem_advance. lia.
Qed.

Lemma ts_consume_settled s ts : settled rem (rem ts) (ts_consume s ts).
Proof.
  unfold ts_consume. destruct (ts_peek s ts); simpl; [|lia].
  rewrite rem_advance. lia.
Qed.

(** Three units of fuel for every token left, and three more, let the
    expression parser finish. *)
Lemma exprParser_settled fuel :
  (forall ts, (3 * rem ts + 3 <= fuel)%nat ->
     settled rem (rem ts) (parseOr fuel ts))
  /\ (forall l ts, (3 * rem ts + 2 <= fuel)%nat ->
        settled rem (rem ts) (parseOrLoop fuel l ts))
  /\ (forall ts, (3 * rem ts + 2 <= fuel)%nat ->
        settled rem (rem ts) (parseAnd fuel ts))
  /\ (forall l ts, (3 * rem ts + 1 <= fuel)%nat ->
        settled rem (rem ts) (parseAndLoop fuel l ts))
  /\ (forall ts, (3 * rem ts + 1 <= fuel)%nat ->
        settled rem (rem ts) (parseUnary fuel ts)).
Proof.
  induction fuel as [|fuel (IHO & IHOL & IHA & IHAL & IHU)].
  { repeat split; intros; lia. }
  assert (Hsub : forall {A} ts ts' (out : Out tokensStream A),
            (rem ts' <= rem ts)%nat -> settled rem (rem ts') out ->
            settled rem (rem ts) out).
  { intros A ts ts' out Hle H. eapply settled_mono; eauto. }
  repeat split.
  - intros ts Hf. cbn [parseOr]. apply settled_obind; [apply IHA; lia|].
    intros left_ ts' Hle. apply (Hsub _ ts ts'); [exact Hle|]. apply IHOL. lia.
  - intros l ts Hf. cbn [parseOrLoop].
    destruct (ts_peek "||" ts) eqn:Hp; [|simpl; lia].
    apply ts_peek_rem in Hp. pose proof (rem_advance ts) as Hadv.
    apply (Hsub _ ts (advance ts)); [lia|].
    apply settled_obind; [apply IHA; lia|].
    intros right_ ts' Hle. apply (Hsub _ (advance ts) ts'); [exact Hle|].
    apply IHOL. lia.
  - intros ts Hf. cbn [parseAnd]. apply settled_obind; [apply IHU; lia|].
    intros left_ ts' Hle. apply (Hsub _ ts ts'); [exact Hle|]. apply IHAL. lia.
  - intros l ts Hf. cbn [parseAndLoop].
    destruct (ts_peek "&&" ts) eqn:Hp; [|simpl; lia].
    apply ts_peek_rem in Hp. pose proof (rem_advance ts) as Hadv.
    apply (Hsub _ ts (advance ts)); [lia|].
    apply settled_obind; [apply IHU; lia|].
    intros right_ ts' Hle. apply (Hsub _ (advance ts) ts'); [exact Hle|].
    apply IHAL. lia.
  - intros ts Hf. cbn [parseUnary]. pose proof (rem_advance ts) as Hadv.
    destruct (ts_peek "!" ts) eqn:Hp1.
    { apply ts_peek_rem in Hp1. apply (Hsub _ ts (advance ts)); [lia|].
      apply settled_obind; [apply IHU; lia|]. intros e ts' Hle. exact Hle. }
    destruct (ts_peek "(" ts) eqn:Hp2.
    { apply ts_peek_rem in Hp2. apply (Hsub _ ts (advance ts)); [lia|].
      apply settled_obind; [apply IHO; lia|]. intros e ts' Hle.
      apply (Hsub _ (advance ts) ts'); [exact Hle|].
      apply settled_obind; [apply ts_consume_settled|]. intros _ ts'' Hle'. exact Hle'. }
    destruct (ts_peek "defined" ts) eqn:Hp3.
    { apply (Hsub _ ts (advance ts)); [lia|].
      destruct (ts_peek "(" (advance ts)).
      - pose proof (rem_advance (advance ts)) as Hadv2.
        apply (Hsub _ (advance ts) (advance (advance ts))); [lia|].
        apply settled_obind; [apply ts_next_settled|]. intros name ts' Hle.
        apply (Hsub _ (advance (advance ts)) ts'); [exact Hle|].
        apply settled_obind; [apply ts_consume_settled|]. intros _ ts'' Hle'. exact Hle'.
      - apply settled_obind; [apply ts_next_settled|]. intros name ts' Hle. exact Hle. }
    apply settled_obind; [apply ts_next_settled|]. intros token ts1 Hle1.
    apply (Hsub _ ts ts1); [exact Hle1|].
    destruct (tokens ts1 !! idx ts1) as [tok'|]; [|simpl; lia].
    destruct (isBinaryCompareOperator tok'); [|simpl; lia].
    apply settled_obind; [apply ts_next_settled|]. intros op ts2 Hle2.
    destruct (interpretValue token) as [lValue|e|m]; [|simpl; lia|exact I].
    apply (Hsub _ ts1 ts2); [exact Hle2|].
    apply settled_obind; [apply ts_next_settled|]. intros rightToken ts3 Hle3.
    destruct (interpretValue rightToken) as [rValue|e|m]; simpl; [lia|lia|exact I].
Qed.

Lemma parseExprFrom_settled r : settled plen (plen r) (parseExprFrom r).
Proof.
  unfold parseExprFrom. apply settled_obind.
  - apply collect_settled. unfold plen. lia.
  - intros toks r' Hle.
    destruct (exprParser_settled (exprFuel toks)) as (HO & _).
    assert (H : settled rem (rem (mkStream toks 0))
                  (parseOr (exprFuel toks) (mkStream toks 0))).
    { apply HO. unfold exprFuel, rem. simpl. lia. }
    destruct (parseOr (exprFuel toks) (mkStream toks 0)); simpl in *;
      try exact Hle; try exact I. exact H.
Qed.

Lemma parseIdentFrom_length toks :
  (length (parseIdentFrom toks).2 <= length toks)%nat.
Proof.
  induction toks as [|t toks IH]; simpl; [lia|].
  destruct (String.eqb t EOL); [lia|]. destruct (String.eqb t "\"); simpl; lia.
Qed.

Lemma parseIdent_settled p : settled pplen (pplen p) (parseIdent p).
Proof.
  unfold parseIdent. pose proof (parseIdentFrom_length (pending (tr p))) as H.
  destruct (parseIdentFrom (pending (tr p))) as [[t|] rest]; simpl in *; exact H.
Qed.

Lemma parseExpr_settled p : settled pplen (pplen p) (parseExpr p).
Proof.
  unfold parseExpr. pose proof (parseExprFrom_settled (tr p)) as H.
  destruct (parseExprFrom (tr p)); simpl in *; exact H.
Qed.

Lemma next_plen r :
  (plen (next r).2 <= plen r)%nat.
Proof. apply nextInternal_plen. Qed.

Lemma handleInclude_settled p : settled pplen (pplen p) (handleInclude p).
Proof.
  unfold handleInclude. pose proof (next_plen (tr p)) as H1.
  destruct (next (tr p)) as [[inc|] r1]; simpl in H1; [|exact H1].
  destruct (String.eqb inc "<"); [|exact H1].
  cbn [tr with_tr]. pose proof (next_plen r1) as H2.
  destruct (next r1) as [[inc2|] r2]; simpl in H2; unfold settled, pplen; simpl; lia.
Qed.

Lemma appendToCurrentGroup_tr e p p' :
  appendToCurrentGroup e p = Ok p' -> tr p' = tr p.
Proof.
  unfold appendToCurrentGroup. destruct (last (exprGroupStack p)); [|discriminate].
  now intros [= <-].
Qed.

(** The tail shared by [handleElse] and [handleElif]: it leaves the reader
    alone. *)
Lemma branch_tail_settled (cur : list Expr) (mk : Expr -> Expr * Expr) p b :
  (pplen p <= b)%nat ->
  settled pplen b
    (obind (liftRes (orAll cur) p) (fun disj p0 =>
       obind (liftRes (appendToCurrentGroup (mk disj).2
                         (pushCondition (mk disj).1 p0)) p0)
             (fun p' _ => Ret tt p'))).
Proof.
  intros Hb. destruct cur as [|x xs]; [exact I|]. cbn [orAll liftRes obind].
  destruct (appendToCurrentGroup _ _) as [p'| |] eqn:E; cbn [liftRes obind];
    [|exact Hb|exact I].
  apply appendToCurrentGroup_tr in E. unfold settled, pplen in *. now rewrite E.
Qed.

Lemma handleElse_settled p : settled pplen (pplen p) (handleElse p).
Proof.
  unfold handleElse, popCondition.
  destruct (conditionStack p) as [|c0 cs0]; destruct (currentGroup p) as [cur|];
    try (simpl; unfold pplen; simpl; lia).
  apply (branch_tail_settled cur (fun disj => (Not disj, Not disj))).
  unfold pplen. simpl. lia.
Qed.

Lemma handleElif_settled kind p : settled pplen (pplen p) (handleElif kind p).
Proof.
  unfold handleElif, popCondition.
  destruct (conditionStack p) as [|c0 cs0]; destruct (currentGroup p) as [cur|];
    try (simpl; unfold pplen; simpl; lia).
  set (p0 := with_conditionStack p (removelast (c0 :: cs0))).
  change (pplen p) with (pplen p0).
  apply settled_obind.
  - destruct (String.eqb kind "#elif"); [apply parseExpr_settled|].
    apply settled_obind; [apply parseIdent_settled|].
    intros ident p1 H. exact H.
  - intros expr p1 H.
    exact (branch_tail_settled cur (fun disj => (And expr (Not disj), expr)) p1 _ H).
Qed.

Lemma parseDirective_settled tok p : settled pplen (pplen p) (parseDirective tok p).
Proof.
  unfold parseDirective.
  destruct (String.eqb tok "#include"); [apply handleInclude_settled|].
  destruct (String.eqb tok "#ifdef" || String.eqb tok "#ifndef").
  { unfold handleIfdef. apply settled_obind; [apply parseIdent_settled|].
    intros ident p1 H. exact H. }
  destruct (String.eqb tok "#if").
  { unfold handleIf. apply settled_obind; [apply parseExpr_settled|].
    intros e p1 H. exact H. }
  destruct (String.eqb tok "#else"); [apply handleElse_settled|].
  destruct (String.eqb tok "#elif" || String.eqb tok "#elifdef"
            || String.eqb tok "#elifndef"); [apply handleElif_settled|].
  destruct (String.eqb tok "#endif").
  { unfold popCondition, popGroup, settled, pplen.
    destruct (conditionStack p); simpl; destruct (exprGroupStack p); simpl; lia. }
  simpl. lia.
Qed.

(** An iteration of the main loop never starves and, when the loop goes
    on, has consumed a token. *)
Lemma loopBody_progress p :
  match loopBody p with
  | Starved => False
  | Continue p' => (pplen p' < pplen p)%nat
  | _ => True
  end.
Proof.
  unfold loopBody. pose proof (nextInternal_plen false (tr p)) as [H1 H2].
  fold (next (tr p)) in H1, H2.
  destruct (next (tr p)) as [[tok|] r]; simpl in H1, H2; [|exact I].
  specialize (H2 (ex_intro _ tok eq_refl)).
  set (p1 := with_lastToken (with_tr p r) tok).
  assert (Hp1 : (pplen p1 < pplen p)%nat) by exact H2.
  destruct (String.prefix "#" tok).
  - pose proof (parseDirective_settled tok p1) as Hs.
    destruct (parseDirective tok p1) as [[] p2|e p2|m|]; simpl in Hs;
      [lia|exact I|exact I|exact Hs].
  - destruct (String.eqb tok "main"); [|exact Hp1].
    pose proof (next_plen (tr p1)) as Hn.
    destruct (next (tr p1)) as [[a|] r2]; simpl in Hn.
    + destruct (String.eqb a "(" && String.eqb (lastToken p) "int");
        unfold pplen in *; simpl; lia.
    + unfold pplen in *. simpl. lia.
Qed.

Lemma parseLoop_not_starved fuel p :
  (pplen p < fuel)%nat -> parseLoop fuel p <> Starved.
Proof.
  revert p. induction fuel as [|fuel IH]; intros p Hlen; [lia|].
  cbn [parseLoop]. pose proof (loopBody_progress p) as H.
  destruct (loopBody p) as [p'|si e|m|]; try discriminate; [|destruct H].
  apply IH. lia.
Qed.

(** [ParseSource] is total: on every input the model returns or panics
    without exhausting its fuel. *)
Lemma ParseSource_not_starved input : ParseSource input <> Starved.
Proof.
  destruct (ParseSource_tokens input) as (toks & _ & ->).
  unfold parse. apply parseLoop_not_starved.
  change (length toks < S (length toks))%nat. lia.
Qed.

(** ** The look-ahead after [main] *)

(** An iteration on a token that is neither a directive nor [main]. *)
Lemma loopBody_inert p t r :
  next (tr p) = (Some t, r) -> inert t = true ->
  loopBody p = Continue (with_lastToken (with_tr p r) t).
Proof.
  intros H Hi. unfold inert in Hi. apply andb_true_iff in Hi as [H1 H2].
  apply negb_true_iff in H1, H2. unfold loopBody. now rewrite H, H1, H2.
Qed.

(** An iteration on [main] followed by a token other than the opening
    parenthesis. *)
Lemma loopBody_main p r1 r2 tok :
  next (tr p) = (Some "main", r1) ->
  next r1 = (Some tok, r2) ->
  tok <> "(" ->
  loopBody p
  = Continue (mkParser r2 "main" (sourceInfo p) (conditionStack p)
                       (exprGroupStack p)).
Proof.
  intros H1 H2 Hne. unfold loopBody. rewrite H1. cbn [String.prefix]. simpl.
  rewrite H2. apply String.eqb_neq in Hne. rewrite Hne. reflexivity.
Qed.

(** Over tokens that are neither directives nor [main] the loop runs to
    the end of the input and returns what it had gathered. *)
Lemma parseLoop_inert n : forall p fuel,
  (length (pending (tr p)) <= n)%nat ->
  forallb inert (pending (tr p)) = true ->
  (n < fuel)%nat ->
  parseLoop fuel p = Return (sourceInfo p) None.
Proof.
  induction n as [|n IH]; intros p fuel Hlen Hin Hf;
    (destruct fuel as [|fuel]; [lia|]); cbn [parseLoop].
  - destruct (pending (tr p)) eqn:Ep; [|cbn in Hlen; lia].
    unfold loopBody, next, nextInternal. rewrite Ep. reflexivity.
  - pose proof (nextFrom_split false (pending (tr p))) as Hs.
    pose proof (nextFrom_length false (pending (tr p))) as [_ Hl].
    destruct (nextFrom false (pending (tr p))) as [[t|] rest] eqn:En.
    + destruct Hs as [pre Hs]. rewrite Hs in Hin.
      rewrite forallb_app in Hin. apply andb_true_iff in Hin as [_ Hin].
      cbn [forallb] in Hin. apply andb_true_iff in Hin as [Ht Hrest].
      cbn [fst snd] in Hl. specialize (Hl (ex_intro _ t eq_refl)).
      rewrite (loopBody_inert p t (mkReader rest None));
        [|unfold next, nextInternal; now rewrite En|exact Ht].
      rewrite IH; [reflexivity| | |lia].
      * cbn [tr with_tr with_lastToken pending buf scanner]. lia.
      * exact Hrest.
    + unfold loopBody, next, nextInternal. rewrite En. reflexivity.
Qed.

(** The loop on inert tokens followed by [main], the token [next]
    delivers after it, and inert tokens again. *)
Lemma parseLoop_bare_main pre : forall p rest tok rest' fuel,
  buf (tr p) = None ->
  scanner (tr p) = (pre ++ "main" :: rest)%list ->
  forallb inert pre = true ->
  nextFrom false rest = (Some tok, rest') ->
  tok <> "(" ->
  forallb inert rest' = true ->
  (length (scanner (tr p)) < fuel)%nat ->
  parseLoop fuel p = Return (sourceInfo p) None.
Proof.
  induction pre as [|t pre IH]; intros p rest tok rest' fuel Hb Hs Hpre Hn Hne Hin Hf;
    (destruct fuel as [|fuel]; [lia|]); cbn [parseLoop].
  - pose proof (nextFrom_length false rest) as [_ Hl]. rewrite Hn in Hl.
    cbn [fst snd] in Hl. specialize (Hl (ex_intro _ tok eq_refl)).
    rewrite Hs in Hf. cbn [app length] in Hf.
    rewrite (loopBody_main p (mkReader rest None) (mkReader rest' None) tok).
    + rewrite (parseLoop_inert (length rest')); [reflexivity| |exact Hin|lia].
      cbn [tr pending buf scanner]. lia.
    + unfold next, nextInternal, pending. rewrite Hb, Hs. reflexivity.
    + unfold next, nextInternal, pending. cbn [buf scanner]. now rewrite Hn.
    + exact Hne.
  - cbn [forallb] in Hpre. apply andb_true_iff in Hpre as [Ht Hpre].
    rewrite Hs in Hf. cbn [app length] in Hf.
    destruct (String.eqb t EOL) eqn:Et.
    + (* an end-of-line marker is skipped by [next] *)
      set (p0 := with_tr p (mkReader (pre ++ "main" :: rest) None)).
      assert (E : loopBody p = loopBody p0).
      { unfold loopBody, next, nextInternal, pending.
        rewrite Hb, Hs. cbn [app nextFrom tr with_tr p0 buf scanner].
        rewrite Et. reflexivity. }
      rewrite E.
      change (match loopBody p0 with
              | Continue p1 => parseLoop fuel p1
              | r => r
              end) with (parseLoop (S fuel) p0).
      apply (IH p0 rest tok rest'); try assumption; try reflexivity.
      cbn [p0 tr with_tr scanner]. lia.
    + rewrite (loopBody_inert p t (mkReader (pre ++ "main" :: rest) None));
        [| |exact Ht].
      * change (sourceInfo p)
          with (sourceInfo (with_lastToken
                  (with_tr p (mkReader (pre ++ "main" :: rest) None)) t)).
        apply (IH _ rest tok rest'); try assumption; try reflexivity.
        cbn [tr with_tr with_lastToken scanner]. lia.
      * unfold next, nextInternal, pending. rewrite Hb, Hs.
        cbn [app nextFrom]. rewrite Et. reflexivity.
Qed.

(** C10, as stated, fails: a [main] that is itself taken as the look-ahead
    of a preceding [main] is never read by the main loop, so the
    directive that follows it is dispatched and its include recorded. *)
Lemma directive_after_lookahead_main_is_kept :
  ParseSource ("main main" ++ nl ++ "#include <a.h>" ++ nl)
  = Return (mkSourceInfo [mkInclude "a.h" true None] false) None.
Proof. vm_compute. reflexivity. Qed.

(** C10, amended. When the main loop itself reads the token [main] it
    takes the following token as look-ahead whatever it is: unless that
    token is an opening parenthesis, the iteration changes nothing but
    [lastToken] and the reader, which is left after the look-ahead token.
    A directive token in that position (say [#include]) is therefore never
    dispatched: when the tokens after it are neither directives nor
    [main], the loop returns the [SourceInfo] it had before [main]. So an
    input of tokens that are neither directives nor [main], then [main],
    then a directive, has no include in the [SourceInfo] returned. A
    [main] that is the look-ahead of a preceding [main] is not read by
    the loop and protects no directive. *)
Theorem main_consumes_lookahead p r1 r2 tok :
  next (tr p) = (Some "main", r1) ->
  next r1 = (Some tok, r2) ->
  tok <> "(" ->
  loopBody p
  = Continue (mkParser r2 "main" (sourceInfo p) (conditionStack p)
                       (exprGroupStack p))
  /\ (forall fuel,
        parseLoop (S fuel) p
        = parseLoop fuel (mkParser r2 "main" (sourceInfo p) (conditionStack p)
                                   (exprGroupStack p)))
  /\ (forallb inert (pending r2) = true ->
      forall fuel, (length (pending r2) + 1 < fuel)%nat ->
        parseLoop fuel p = Return (sourceInfo p) None)
  /\ (forall pre rest tok' rest',
        forallb inert pre = true ->
        nextFrom false rest = (Some tok', rest') ->
        tok' <> "(" ->
        forallb inert rest' = true ->
        parse (pre ++ "main" :: rest) = Return (mkSourceInfo [] false) None).
Proof.
  intros H1 H2 Hne.
  pose proof (loopBody_main p r1 r2 tok H1 H2 Hne) as E.
  split; [exact E|]. split; [|split].
  - intros fuel. cbn [parseLoop]. now rewrite E.
  - intros Hin fuel Hf. destruct fuel as [|fuel]; [lia|].
    cbn [parseLoop]. rewrite E.
    rewrite (parseLoop_inert (length (pending r2))); [reflexivity| |exact Hin|lia].
    cbn [tr]. lia.
  - intros pre rest tok' rest' Hpre Hn Hne' Hin. unfold parse.
    apply (parseLoop_bare_main pre (newParser (pre ++ "main" :: rest))
             rest tok' rest'); try assumption; try reflexivity.
    cbn [newParser tr newTokenReader scanner]. lia.
Qed.

(** The theorem of C10 on [main] followed by an include line. *)
Lemma main_consumes_lookahead_witness :
  let p := parserOn ("main" ++ nl ++ "#include <a.h>" ++ nl) in
  next (tr p) = (Some "main", mkReader ["<EOL>"; "#include"; "<"; "a.h"; ">"; "<EOL>"] None)
  /\ next (mkReader ["<EOL>"; "#include"; "<"; "a.h"; ">"; "<EOL>"] None)
     = (Some "#include", mkReader ["<"; "a.h"; ">"; "<EOL>"] None)
  /\ "#include" <> "("
  /\ loopBody p
     = Continue (mkParser (mkReader ["<"; "a.h"; ">"; "<EOL>"] None) "main"
                          (sourceInfo p) (conditionStack p) (exprGroupStack p))
  /\ parseLoop 6 p = Return (mkSourceInfo [] false) None
  /\ parse (["int"; "x"; EOL] ++ "main" :: [EOL; "#include"; "<"; "a.h"; ">"; EOL])
     = Return (mkSourceInfo [] false) None.
Proof.
  intros p.
  split; [reflexivity|]. split; [reflexivity|]. split; [discriminate|].
  destruct (main_consumes_lookahead p
              (mkReader ["<EOL>"; "#include"; "<"; "a.h"; ">"; "<EOL>"] None)
              (mkReader ["<"; "a.h"; ">"; "<EOL>"] None) "#include")
    as (W1 & _ & W3 & W4); [reflexivity|reflexivity|discriminate|].
  split; [exact W1|]. split.
  - apply W3; [reflexivity|]. cbn. lia.
  - apply (W4 ["int"; "x"; EOL] [EOL; "#include"; "<"; "a.h"; ">"; EOL]
              "#include" ["<"; "a.h"; ">"; EOL]);
      [reflexivity|reflexivity|discriminate|reflexivity].
Defined.

(** The include that follows a bare [main] is absent from the result. *)
Example include_after_main_is_lost :
  ParseSource ("main" ++ nl ++ "#include <a.h>" ++ nl ++ "#include <b.h>" ++ nl)
  = Return (mkSourceInfo [mkInclude "b.h" true None] false) None.
Proof. vm_compute. reflexivity. Qed.

(** ** Which directives make [parse] return an error *)

Lemma directivesOK_suffix pre l :
  directivesOK (pre ++ l) = true -> directivesOK l = true.
Proof.
  induction pre as [|t pre IH]; [auto|]. cbn [app directivesOK].
  intros H. apply andb_true_iff in H as [_ H]. auto.
Qed.

Lemma parseIdentFrom_split toks :
  exists pre, toks = (pre ++ (parseIdentFrom toks).2)%list.
Proof.
  induction toks as [|t toks [pre IH]]; [now exists []|].
  cbn [parseIdentFrom].
  destruct (String.eqb t EOL); [exists (t :: pre); cbn [app]; now rewrite <- IH|].
  destruct (String.eqb t "\"); [exists (t :: pre); cbn [app]; now rewrite <- IH|].
  now exists [t].
Qed.

Lemma readerOK_pending r : readerOK r -> directivesOK (pending r) = true.
Proof. intros [Hb H]. unfold pending. now rewrite Hb. Qed.

Lemma nextInternal_reader k r :
  directivesOK (pending r) = true ->
  readerOK (nextInternal k r).2
  /\ forall t, (nextInternal k r).1 = Some t ->
       directivesOK (t :: scanner (nextInternal k r).2) = true.
Proof.
  intros H. unfold nextInternal. pose proof (nextFrom_split k (pending r)) as Hs.
  destruct (nextFrom k (pending r)) as [[t|] rest]; cbn [fst snd].
  - destruct Hs as [pre Hs]. rewrite Hs in H. apply directivesOK_suffix in H.
    split; [|intros t' [= <-]; exact H].
    split; [reflexivity|]. cbn [scanner directivesOK] in *.
    now apply andb_true_iff in H as [_ H].
  - subst rest. split; [split; reflexivity|discriminate].
Qed.

Lemma peek_pending r :
  directivesOK (pending r) = true -> directivesOK (pending (peek r).2) = true.
Proof.
  intros H. unfold peek, peekInternal. destruct (buf r) as [b|] eqn:Eb.
  - cbn [negb andb]. destruct (String.eqb b EOL); [|exact H].
    apply readerOK_pending. exact (proj1 (nextInternal_reader false r H)).
  - pose proof (nextInternal_reader false r H) as [Hr Ht].
    destruct (nextInternal false r) as [[t|] r']; cbn [fst snd] in *.
    + unfold pending. cbn [buf scanner]. now apply Ht.
    + now apply readerOK_pending.
Qed.

(** The reader [parseExpr] leaves behind. *)
Lemma collect_reader fuel : forall acc r,
  directivesOK (pending r) = true ->
  match collect fuel acc r with
  | Ret _ r' | Raise _ r' => readerOK r'
  | _ => True
  end.
Proof.
  induction fuel as [|fuel IH]; intros acc r H; [exact I|].
  cbn [collect]. pose proof (nextInternal_reader true r H) as [Hr _].
  destruct (nextInternal true r) as [[token|] r1]; cbn [fst snd] in Hr; [|exact Hr].
  destruct (String.eqb token "\").
  { pose proof (peek_pending r1 (readerOK_pending r1 Hr)) as Hp.
    destruct (peek r1) as [[next_|] r2]; cbn [snd] in Hp; [|now apply IH].
    destruct (String.eqb next_ EOL); [|now apply IH].
    apply IH. apply readerOK_pending.
    exact (proj1 (nextInternal_reader false r2 Hp)). }
  destruct (String.eqb token EOL); [exact Hr|].
  apply IH. now apply readerOK_pending.
Qed.

Lemma parseExprFrom_reader r :
  directivesOK (pending r) = true ->
  match parseExprFrom r with
  | Ret _ r' | Raise _ r' => readerOK r'
  | _ => True
  end.
Proof.
  intros H. unfold parseExprFrom.
  pose proof (collect_reader (S (length (pending r))) [] r H) as Hc.
  destruct (collect _ _ _) as [toks r'|e r'|m|]; cbn [obind]; try exact I;
    [|exact Hc].
  now destruct (parseOr _ _).
Qed.

Lemma readerOK_eta r : buf r = None -> r = mkReader (scanner r) None.
Proof. destruct r as [sc b]. cbn. now intros ->. Qed.

Lemma parseIdent_reader p :
  directivesOK (pending (tr p)) = true ->
  match parseIdent p with
  | Ret _ p' | Raise _ p' => readerOK (tr p')
  | _ => True
  end.
Proof.
  intros Hp. unfold parseIdent.
  destruct (parseIdentFrom_split (pending (tr p))) as [pre Hs].
  rewrite Hs in Hp. apply directivesOK_suffix in Hp.
  destruct (parseIdentFrom (pending (tr p))) as [[t|] rest]; cbn [snd] in Hp;
    (split; [reflexivity|exact Hp]).
Qed.

Lemma parseExpr_reader p :
  directivesOK (pending (tr p)) = true ->
  match parseExpr p with
  | Ret _ p' | Raise _ p' => readerOK (tr p')
  | _ => True
  end.
Proof.
  intros Hp. unfold parseExpr. pose proof (parseExprFrom_reader (tr p) Hp) as H.
  now destruct (parseExprFrom (tr p)).
Qed.

(** The reader a directive handler leaves behind. *)
Lemma parseDirective_reader tok p :
  readerOK (tr p) ->
  match parseDirective tok p with
  | Ret _ p' | Raise _ p' => readerOK (tr p')
  | _ => True
  end.
Proof.
  intros Hr. pose proof (readerOK_pending _ Hr) as Hp.
  pose proof (parseIdent_reader p Hp) as Hident.
  pose proof (parseExpr_reader p Hp) as Hexpr.
  unfold parseDirective.
  destruct (String.eqb tok "#include").
  { unfold handleInclude. pose proof (nextInternal_reader false (tr p) Hp) as [H1 _].
    fold (next (tr p)) in H1.
    destruct (next (tr p)) as [[inc|] r1]; cbn [snd] in H1; [|exact H1].
    destruct (String.eqb inc "<"); [|exact H1]. cbn [tr with_tr].
    pose proof (nextInternal_reader false r1 (readerOK_pending _ H1)) as [H2 _].
    fold (next r1) in H2.
    destruct (next r1) as [[inc2|] r2]; exact H2. }
  destruct (String.eqb tok "#ifdef" || String.eqb tok "#ifndef").
  { unfold handleIfdef. destruct (parseIdent p); cbn [obind]; exact Hident. }
  destruct (String.eqb tok "#if").
  { unfold handleIf. destruct (parseExpr p); cbn [obind]; exact Hexpr. }
  assert (Htail : forall (cur : list Expr) (mk : Expr -> Expr * Expr) p2,
            readerOK (tr p2) ->
            match obind (liftRes (orAll cur) p2) (fun disj p3 =>
                    obind (liftRes (appendToCurrentGroup (mk disj).2
                                      (pushCondition (mk disj).1 p3)) p3)
                          (fun p4 _ => Ret tt p4)) with
            | Ret _ p' | Raise _ p' => readerOK (tr p')
            | _ => True
            end).
  { intros cur mk p2 H2. destruct cur as [|x cur]; [exact I|].
    cbn [orAll liftRes obind]. unfold appendToCurrentGroup.
    cbn [pushCondition exprGroupStack with_conditionStack].
    destruct (last (exprGroupStack p2)); cbn [liftRes obind]; [exact H2|exact I]. }
  destruct (String.eqb tok "#else").
  { unfold handleElse, popCondition.
    destruct (currentGroup p) as [cur|]; destruct (conditionStack p) eqn:Ec;
      try exact Hr.
    apply (Htail cur (fun disj => (Not disj, Not disj))). exact Hr. }
  destruct (String.eqb tok "#elif" || String.eqb tok "#elifdef"
            || String.eqb tok "#elifndef").
  { unfold handleElif, popCondition.
    destruct (currentGroup p) as [cur|]; destruct (conditionStack p) eqn:Ec;
      try exact Hr.
    set (p0 := with_conditionStack p (removelast (e :: l))).
    destruct (String.eqb tok "#elif").
    - pose proof (parseExpr_reader p0 Hp) as H0.
      destruct (parseExpr p0) as [ex p2|er p2|m|]; cbn [obind]; try exact H0.
      exact (Htail cur (fun disj => (And ex (Not disj), ex)) p2 H0).
    - pose proof (parseIdent_reader p0 Hp) as H0.
      destruct (parseIdent p0) as [id p2|er p2|m|]; cbn [obind]; try exact H0.
      exact (Htail cur (fun disj =>
                          (And (if String.eqb tok "#elifndef" then Not (Defined id)
                                else Defined id) (Not disj),
                           if String.eqb tok "#elifndef" then Not (Defined id)
                           else Defined id)) p2 H0). }
  destruct (String.eqb tok "#endif").
  { unfold popCondition, popGroup.
    destruct (conditionStack p); cbn [snd];
      destruct (exprGroupStack _); exact Hr. }
  exact Hr.
Qed.

(** A directive whose handler cannot fail where it stands, handled in a
    state in lockstep, returns without an error. *)
Lemma parseDirective_succeeds tok p :
  lockstep p = true -> buf (tr p) = None ->
  directiveOK tok (scanner (tr p)) = true ->
  exists p', parseDirective tok p = Ret tt p'.
Proof.
  intros Hl Hb Hok. pose proof (readerOK_eta _ Hb) as Heta.
  assert (Hpend : pending (tr p) = scanner (tr p))
    by (unfold pending; now rewrite Hb).
  unfold parseDirective, directiveOK in *.
  destruct (String.eqb tok "#include") eqn:E1.
  { unfold handleInclude. rewrite Heta, next_mkReader.
    destruct (nextFrom false (scanner (tr p))) as [[a|] rest]; [|discriminate].
    cbn [fst snd tr with_tr].
    destruct (String.eqb a "<"); [|eauto].
    rewrite next_mkReader. apply bool_decide_eq_true_1 in Hok as [b Hb'].
    rewrite Hb'. eauto. }
  destruct (String.eqb tok "#ifdef") eqn:E2.
  { cbn [orb] in *. unfold handleIfdef, parseIdent. rewrite Hpend.
    apply bool_decide_eq_true_1 in Hok as [t Ht].
    destruct (parseIdentFrom (scanner (tr p))) as [[t'|] rest]; [|discriminate].
    cbn [obind]. eauto. }
  destruct (String.eqb tok "#ifndef") eqn:E3.
  { cbn [orb] in *. unfold handleIfdef, parseIdent. rewrite Hpend.
    apply bool_decide_eq_true_1 in Hok as [t Ht].
    destruct (parseIdentFrom (scanner (tr p))) as [[t'|] rest]; [|discriminate].
    cbn [obind]. eauto. }
  cbn [orb] in *.
  destruct (String.eqb tok "#if") eqn:E4.
  { destruct (String.eqb tok "#elifdef" || String.eqb tok "#elifndef") eqn:E5.
    - apply String.eqb_eq in E4. subst tok. vm_compute in E5. discriminate E5.
    - cbn [orb] in Hok. unfold handleIf, parseExpr. rewrite Heta.
      destruct (parseExprFrom (mkReader (scanner (tr p)) None)) as [e r| | |];
        try discriminate. cbn [obind]. eauto. }
  destruct (lockstep_cases p Hl) as [[Hc Hg]|(cs & c & gs & g0 & g & Hc & Hg)].
  - (* no block is open *)
    assert (Hpop : popCondition p = (false, p))
      by (unfold popCondition; now rewrite Hc).
    assert (Hcur : currentGroup p = None)
      by (unfold currentGroup; now rewrite Hg).
    destruct (String.eqb tok "#else").
    { unfold handleElse. rewrite Hcur, Hpop. eauto. }
    destruct (String.eqb tok "#elif" || String.eqb tok "#elifdef"
              || String.eqb tok "#elifndef").
    { unfold handleElif. rewrite Hcur, Hpop. eauto. }
    destruct (String.eqb tok "#endif"); eauto.
  - destruct (String.eqb tok "#else").
    { rewrite (handleElse_spec p cs c gs g0 g Hc Hg). eauto. }
    destruct (String.eqb tok "#elif") eqn:E5.
    { cbn [orb] in *. unfold handleElif.
      rewrite (currentGroup_snoc _ _ _ Hg), (popCondition_snoc _ _ _ Hc).
      set (p0 := with_conditionStack p cs).
      destruct (String.eqb tok "#elifdef" || String.eqb tok "#elifndef") eqn:E6;
        [apply String.eqb_eq in E5; subst tok; vm_compute in E6; discriminate E6|].
      cbn [orb] in Hok. unfold parseExpr.
      change (tr p0) with (tr p). rewrite Heta.
      destruct (parseExprFrom (mkReader (scanner (tr p)) None)) as [e r| | |];
        try discriminate.
      rewrite E5. cbn [obind orAll liftRes].
      erewrite appendToCurrentGroup_snoc by (simpl; exact Hg).
      cbn [liftRes obind]. eauto. }
    cbn [orb] in *.
    destruct (String.eqb tok "#elifdef" || String.eqb tok "#elifndef") eqn:E6.
    { unfold handleElif.
      rewrite (currentGroup_snoc _ _ _ Hg), (popCondition_snoc _ _ _ Hc).
      set (p0 := with_conditionStack p cs).
      unfold parseIdent. change (tr p0) with (tr p). rewrite Hpend.
      apply bool_decide_eq_true_1 in Hok as [t Ht].
      destruct (parseIdentFrom (scanner (tr p))) as [[t'|] rest]; [|discriminate].
      rewrite E5. cbn [obind orAll liftRes].
      erewrite appendToCurrentGroup_snoc by (simpl; exact Hg).
      cbn [liftRes obind]. eauto. }
    destruct (String.eqb tok "#endif"); eauto.
Qed.

(** One iteration of the main loop when no directive to come can fail. *)
Lemma loopBody_tolerated p :
  lockstep p = true -> readerOK (tr p) ->
  match loopBody p with
  | Continue p' => lockstep p' = true /\ readerOK (tr p')
  | Return _ None => True
  | _ => False
  end.
Proof.
  intros Hl Hr. pose proof (loopBody_shape p) as Hshape.
  pose proof (readerOK_pending _ Hr) as Hp.
  unfold loopBody in *.
  pose proof (nextInternal_reader false (tr p) Hp) as [H1 Ht].
  fold (next (tr p)) in H1, Ht.
  destruct (next (tr p)) as [[tok|] r]; cbn [fst snd] in H1, Ht; [|exact I].
  specialize (Ht tok eq_refl). cbn [directivesOK] in Ht.
  apply andb_true_iff in Ht as [Htok _].
  set (p1 := with_lastToken (with_tr p r) tok) in *.
  assert (Hl1 : lockstep p1 = true) by exact Hl.
  assert (Hr1 : readerOK (tr p1)) by exact H1.
  destruct (String.prefix "#" tok).
  - destruct (parseDirective_succeeds tok p1 Hl1 (proj1 Hr1) Htok) as [p2 E].
    pose proof (parseDirective_reader tok p1 Hr1) as H2.
    rewrite E in *. split; [|exact H2].
    exact (shape_lockstep p p2 Hl (Hshape p2 Hl eq_refl)).
  - destruct (String.eqb tok "main"); [|split; assumption].
    pose proof (nextInternal_reader false (tr p1) (readerOK_pending _ Hr1)) as [H2 _].
    fold (next (tr p1)) in H2.
    destruct (next (tr p1)) as [[a|] r2]; cbn [snd] in H2.
    + destruct (String.eqb a "(" && String.eqb (lastToken p) "int");
        (split; [exact Hl|exact H2]).
    + split; [exact Hl|exact H2].
Qed.

Lemma parseLoop_tolerated fuel : forall p,
  lockstep p = true -> readerOK (tr p) -> (pplen p < fuel)%nat ->
  exists si, parseLoop fuel p = Return si None.
Proof.
  induction fuel as [|fuel IH]; intros p Hl Hr Hlen; [lia|].
  cbn [parseLoop]. pose proof (loopBody_tolerated p Hl Hr) as H.
  pose proof (loopBody_progress p) as Hprog.
  destruct (loopBody p) as [p'|si [e|]|m|]; try contradiction; [|eauto].
  destruct H as [Hl' Hr']. apply IH; [assumption|assumption|lia].
Qed.

(** *** The errors of the directive handlers *)

Lemma raiseOK_obind {S A B} (m : Out S A) (k : A -> S -> Out S B) :
  raiseOK m -> (forall a s, raiseOK (k a s)) -> raiseOK (obind m k).
Proof. destruct m; simpl; auto. Qed.

Lemma ts_next_raiseOK ts : raiseOK (ts_next ts).
Proof. unfold ts_next. now destruct (tokens ts !! idx ts). Qed.

Lemma ts_consume_raiseOK ts : raiseOK (ts_consume ")" ts).
Proof.
  unfold ts_consume. destruct (ts_peek ")" ts); [exact I|].
  cbn [raiseOK]. destruct (tokens ts !! idx ts) as [[|c s]|]; reflexivity.
Qed.

Lemma interpretValue_error token e :
  interpretValue token = Err e -> directiveError e = true.
Proof.
  unfold interpretValue. destruct (macroIdentifierRegex token); [discriminate|].
  destruct (parseIntLiteral token); [discriminate|]. now intros [= <-].
Qed.

Lemma exprParser_errors fuel :
  (forall ts, raiseOK (parseOr fuel ts))
  /\ (forall l ts, raiseOK (parseOrLoop fuel l ts))
  /\ (forall ts, raiseOK (parseAnd fuel ts))
  /\ (forall l ts, raiseOK (parseAndLoop fuel l ts))
  /\ (forall ts, raiseOK (parseUnary fuel ts)).
Proof.
  induction fuel as [|fuel (IHO & IHOL & IHA & IHAL & IHU)].
  { repeat split; intros; exact I. }
  repeat split.
  - intros ts. cbn [parseOr]. apply raiseOK_obind; [apply IHA|].
    intros e s. apply IHOL.
  - intros l ts. cbn [parseOrLoop].
    destruct (ts_peek "||" ts); [|exact I].
    apply raiseOK_obind; [apply IHA|]. intros e s. apply IHOL.
  - intros ts. cbn [parseAnd]. apply raiseOK_obind; [apply IHU|].
    intros e s. apply IHAL.
  - intros l ts. cbn [parseAndLoop].
    destruct (ts_peek "&&" ts); [|exact I].
    apply raiseOK_obind; [apply IHU|]. intros e s. apply IHAL.
  - intros ts. cbn [parseUnary].
    destruct (ts_peek "!" ts).
    { apply raiseOK_obind; [apply IHU|]. intros e s. exact I. }
    destruct (ts_peek "(" ts).
    { apply raiseOK_obind; [apply IHO|]. intros e s.
      apply raiseOK_obind; [apply ts_consume_raiseOK|]. intros _ s'. exact I. }
    destruct (ts_peek "defined" ts).
    { destruct (ts_peek "(" (advance ts)).
      - apply raiseOK_obind; [apply ts_next_raiseOK|]. intros name s.
        apply raiseOK_obind; [apply ts_consume_raiseOK|]. intros _ s'. exact I.
      - apply raiseOK_obind; [apply ts_next_raiseOK|]. intros name s. exact I. }
    apply raiseOK_obind; [apply ts_next_raiseOK|]. intros token ts1.
    destruct (tokens ts1 !! idx ts1) as [tok'|]; [|exact I].
    destruct (isBinaryCompareOperator tok'); [|exact I].
    apply raiseOK_obind; [apply ts_next_raiseOK|]. intros op ts2.
    destruct (interpretValue token) as [lValue|e|m] eqn:El;
      [|exact (interpretValue_error _ _ El)|exact I].
    apply raiseOK_obind; [apply ts_next_raiseOK|]. intros rightToken ts3.
    destruct (interpretValue rightToken) as [rValue|e|m] eqn:Er;
      [exact I|exact (interpretValue_error _ _ Er)|exact I].
Qed.

Lemma collect_raiseOK fuel : forall acc r, raiseOK (collect fuel acc r).
Proof.
  induction fuel as [|fuel IH]; intros acc r; [exact I|].
  cbn [collect]. destruct (nextInternal true r) as [[token|] r1]; [|reflexivity].
  destruct (String.eqb token "\").
  { destruct (peek r1) as [[next_|] r2]; [|apply IH].
    destruct (String.eqb next_ EOL); apply IH. }
  destruct (String.eqb token EOL); [exact I|apply IH].
Qed.

Lemma parseExpr_raiseOK p : raiseOK (parseExpr p).
Proof.
  unfold parseExpr, parseExprFrom.
  pose proof (collect_raiseOK (S (length (pending (tr p)))) [] (tr p)) as Hc.
  destruct (collect _ _ _) as [toks r'|e r'|m|]; cbn [obind]; try exact I;
    [|exact Hc].
  pose proof (proj1 (exprParser_errors (exprFuel toks)) (mkStream toks 0)) as H.
  now destruct (parseOr _ _).
Qed.

Lemma parseIdent_raiseOK p : raiseOK (parseIdent p).
Proof.
  unfold parseIdent. now destruct (parseIdentFrom (pending (tr p))) as [[t|] rest].
Qed.

Lemma branch_tail_raiseOK (cur : list Expr) (mk : Expr -> Expr * Expr) p :
  raiseOK (obind (liftRes (orAll cur) p) (fun disj p3 =>
             obind (liftRes (appendToCurrentGroup (mk disj).2
                               (pushCondition (mk disj).1 p3)) p3)
                   (fun p4 _ => Ret tt p4))).
Proof.
  destruct cur as [|x cur]; [exact I|]. cbn [orAll liftRes obind].
  unfold appendToCurrentGroup. now destruct (last _).
Qed.

(** A directive handler returns no other error than those of
    [directiveError]. *)
Lemma parseDirective_raiseOK tok p : raiseOK (parseDirective tok p).
Proof.
  unfold parseDirective.
  destruct (String.eqb tok "#include").
  { unfold handleInclude. destruct (next (tr p)) as [[inc|] r1]; [|reflexivity].
    destruct (String.eqb inc "<"); [|exact I]. cbn [tr with_tr].
    now destruct (next r1) as [[inc2|] r2]. }
  destruct (String.eqb tok "#ifdef" || String.eqb tok "#ifndef").
  { unfold handleIfdef. apply raiseOK_obind; [apply parseIdent_raiseOK|].
    intros; exact I. }
  destruct (String.eqb tok "#if").
  { unfold handleIf. apply raiseOK_obind; [apply parseExpr_raiseOK|].
    intros; exact I. }
  destruct (String.eqb tok "#else").
  { unfold handleElse, popCondition.
    destruct (currentGroup p) as [cur|]; destruct (conditionStack p) eqn:Ec;
      try exact I.
    apply (branch_tail_raiseOK cur (fun disj => (Not disj, Not disj))). }
  destruct (String.eqb tok "#elif" || String.eqb tok "#elifdef"
            || String.eqb tok "#elifndef").
  { unfold handleElif, popCondition.
    destruct (currentGroup p) as [cur|]; destruct (conditionStack p) eqn:Ec;
      try exact I.
    apply raiseOK_obind.
    - destruct (String.eqb tok "#elif"); [apply parseExpr_raiseOK|].
      apply raiseOK_obind; [apply parseIdent_raiseOK|]. intros; exact I.
    - intros ex p2.
      exact (branch_tail_raiseOK cur (fun disj => (And ex (Not disj), ex)) p2). }
  destruct (String.eqb tok "#endif"); exact I.
Qed.

Lemma parseLoop_errors fuel : forall p si err,
  parseLoop fuel p = Return si (Some err) -> directiveError err = true.
Proof.
  induction fuel as [|fuel IH]; intros p si err; [discriminate|].
  cbn [parseLoop]. destruct (loopBody p) as [p'|si' e'|m|] eqn:E;
    try discriminate; [apply IH|].
  intros [= -> ->]. unfold loopBody in E.
  destruct (next (tr p)) as [[tok|] r]; [|discriminate].
  destruct (String.prefix "#" tok).
  - pose proof (parseDirective_raiseOK tok (with_lastToken (with_tr p r) tok)) as H.
    destruct (parseDirective _ _) as [[] p2|e p2|m|]; try discriminate.
    injection E as _ <-. exact H.
  - destruct (String.eqb tok "main"); [|discriminate].
    destruct (next (tr (with_lastToken (with_tr p r) tok))) as [[a|] r2];
      [|discriminate].
    destruct (String.eqb a "(" && String.eqb (lastToken p) "int"); discriminate.
Qed.

(** C3, as stated, fails: an [#if] guard with an unbalanced parenthesis and
    an [#elif] whose expression does not parse make [ParseSource] return a
    non-nil error, with the reader in memory. *)
Lemma ParseSource_returns_directive_errors :
  ParseSource ("#if (A" ++ nl)
  = Return (mkSourceInfo [] false) (Some "expected ), got <EOF>")
  /\ ParseSource ("#include <a.h>" ++ nl ++ "#ifdef A" ++ nl ++ "#elif 1x == 2" ++ nl)
     = Return (mkSourceInfo [mkInclude "a.h" true None] false)
              (Some "neither a valid identifier of integer constant").
Proof. split; vm_compute; reflexivity. Qed.

(** C3, amended. [parse] hands back the error of a failing directive
    handler together with what it has gathered, and no other error: the
    end of the input after [#include] or after its opening angle bracket,
    no identifier before the end of the input after [#ifdef], [#ifndef],
    [#elifdef] or [#elifndef], and for the guard of an [#if] or [#elif]
    the end of the input before the end of its line, a parenthesis that is
    not closed, or a compared operand that is neither an identifier nor an
    integer literal. When none of the directives of the input can fail
    where it stands, conditional blocks included, the error is nil:
    malformed include operands, stray [#else], [#elif] and [#endif], and
    unknown directives are tolerated. *)
Theorem ParseSource_tolerates_closed_malformed input :
  (tolerated input = true -> exists si, ParseSource input = Return si None)
  /\ (forall si err,
        ParseSource input = Return si (Some err) -> directiveError err = true).
Proof.
  destruct (ParseSource_tokens input) as (toks & Ht & ->). split.
  - unfold tolerated. rewrite Ht. intros H.
    unfold parse. apply parseLoop_tolerated.
    + reflexivity.
    + split; [reflexivity|exact H].
    + change (length toks < S (length toks))%nat. lia.
  - intros si err. unfold parse. apply parseLoop_errors.
Qed.

(** The theorem of C3 on the malformed includes of the parser's test and on
    conditional blocks with a stray [#else], [#elif] and [#endif] after
    them. *)
Lemma ParseSource_tolerates_closed_malformed_witness :
  let input := "#include " ++ dq ++ "stdio.h" ++ nl
               ++ "#include stdlib.h" ++ dq ++ nl
               ++ "#include <math.h" ++ nl
               ++ "#include exception>" ++ nl
               ++ "#if defined(A) && (B > 2)" ++ nl ++ "#include <a.h>" ++ nl
               ++ "#elif !C" ++ nl ++ "#ifndef D" ++ nl ++ "#endif" ++ nl
               ++ "#else" ++ nl ++ "#endif" ++ nl
               ++ "#else" ++ nl ++ "#elif X" ++ nl ++ "#endif" ++ nl
               ++ "#pragma once" ++ nl in
  tolerated input = true
  /\ exists si, ParseSource input = Return si None.
Proof.
  intros input. split; [vm_compute; reflexivity|].
  apply (proj1 (ParseSource_tolerates_closed_malformed input)).
  vm_compute. reflexivity.
Defined.

(** ** The earlier extractor of parser.go

    The earlier revision differs from [parse] where C2 and C3 are
    concerned: its [#endif] clears the single [alreadySeen] list, so the
    outer [#else] after a nested block negates nothing, and it drops the
    error of a failing directive. It panics on an empty guard and consumes
    the token after [main] like [parse] does. *)
Example legacy_endif_forgets_outer_branches :
  legacy.ParseSource nestedThenElse
  = legacy.Return
      (legacy.mkInfo [] []
         [legacy.mkConditional "x.h" (legacy.LNot legacy.LNil)] false)
      None.
Proof. vm_compute. reflexivity. Qed.

Example legacy_drops_directive_errors :
  legacy.ParseSource ("#if (A" ++ nl ++ "#include <a.h>" ++ nl)
  = legacy.Return (legacy.mkInfo [] ["a.h"] [] false) None.
Proof. vm_compute. reflexivity. Qed.

Example legacy_panics_on_empty_if :
  legacy.ParseSource ("#if" ++ nl) = legacy.Crash "unexpected EOL in expression".
Proof. vm_compute. reflexivity. Qed.

Example legacy_include_after_main_is_lost :
  legacy.ParseSource ("main" ++ nl ++ "#include <a.h>" ++ nl ++ "#include "
                      ++ dq ++ "stdio.h" ++ nl)
  = legacy.Return (legacy.mkInfo ["stdio.h"] [] [] false) None.
Proof. vm_compute. reflexivity. Qed.

(** * Further properties of the embedded code *)

(** ** The expression AST and the normal forms of the solver *)

(** X1. On each of the six comparison operators [Negate] succeeds, keeps
    both operands, is undone by a second [Negate], and the negated
    comparison evaluates to the opposite truth value under every macro
    set. *)
Theorem Negate_involutive (c : Compare) :
  isBinaryCompareOperator (Op c) = true ->
  exists c', Negate c = Ok c' /\ Negate c' = Ok c
    /\ Left c' = Left c /\ Right c' = Right c
    /\ forall m, exists b, Compare_Eval c m = Ok b
                           /\ Compare_Eval c' m = Ok (negb b).
Proof.
  intros H. apply validOp_cases in H. destruct c as [l op r]. simpl in H.
  destruct H as [H|[H|[H|[H|[H|H]]]]]; subst op;
    (eexists; split; [reflexivity|]; split; [reflexivity|];
     split; [reflexivity|]; split; [reflexivity|]);
    intros m; unfold Compare_Eval; simpl;
    generalize (Resolve l m).1 (Resolve r m).1; intros x y;
    eexists; (split; [reflexivity|]); f_equal.
  - now rewrite negb_involutive.
  - rewrite Z.geb_leb. apply Z.leb_antisym.
  - rewrite Z.gtb_ltb. apply Z.ltb_antisym.
  - rewrite Z.gtb_ltb. now rewrite Z.ltb_antisym, negb_involutive.
  - rewrite Z.geb_leb. now rewrite Z.leb_antisym, negb_involutive.
Qed.

Lemma Negate_involutive_witness :
  isBinaryCompareOperator (Op (mkCompare (Ident "__GNUC__") ">=" (Constant 9))) = true
  /\ exists c', Negate (mkCompare (Ident "__GNUC__") ">=" (Constant 9)) = Ok c'
       /\ Negate c' = Ok (mkCompare (Ident "__GNUC__") ">=" (Constant 9))
       /\ Left c' = Ident "__GNUC__" /\ Right c' = Constant 9
       /\ forall m, exists b,
            Compare_Eval (mkCompare (Ident "__GNUC__") ">=" (Constant 9)) m = Ok b
            /\ Compare_Eval c' m = Ok (negb b).
Proof.
  split; [reflexivity|].
  apply (Negate_involutive (mkCompare (Ident "__GNUC__") ">=" (Constant 9))).
  reflexivity.
Defined.

Lemma nnf_Eval (e : Expr) :
  (forall m, Eval (toNegationNormalForm e) m = Eval e m)
  /\ (forall m, Eval (negated e) m = let! b := Eval e m in Ok (negb b)).
Proof.
  induction e as [n|x [IH1 IH2]|l [IHl1 IHl2] r [IHr1 IHr2]
                 |l [IHl1 IHl2] r [IHr1 IHr2]|c]; simpl.
  - split; reflexivity.
  - split; intros m; [apply IH2|].
    rewrite IH1. destruct (Eval x m) as [b| |]; simpl; [|reflexivity..].
    now rewrite negb_involutive.
  - split; intros m.
    + rewrite IHl1. destruct (Eval l m) as [[|]| |]; simpl; auto.
    + rewrite IHl2. destruct (Eval l m) as [[|]| |]; simpl; auto.
  - split; intros m.
    + rewrite IHl1. destruct (Eval l m) as [[|]| |]; simpl; auto.
    + rewrite IHl2. destruct (Eval l m) as [[|]| |]; simpl; auto.
  - split; reflexivity.
Qed.

Lemma nnf_fixed (e : Expr) : isNNF e = true -> toNegationNormalForm e = e.
Proof.
  induction e as [n|x IH|l IHl r IHr|l IHl r IHr|c]; simpl; intros H.
  - reflexivity.
  - destruct x; try discriminate; reflexivity.
  - apply andb_true_iff in H as [H1 H2]. now rewrite IHl, IHr.
  - apply andb_true_iff in H as [H1 H2]. now rewrite IHl, IHr.
  - reflexivity.
Qed.

(** X2. [toNegationNormalForm] returns an expression in which negations
    wrap literals only, which [Eval] cannot tell from the original: the
    same truth value, and the same error or panic where the original has
    one. Normalising twice changes nothing. *)
Theorem toNegationNormalForm_exact (e : Expr) :
  isNNF (toNegationNormalForm e) = true
  /\ (forall m, Eval (toNegationNormalForm e) m = Eval e m)
  /\ toNegationNormalForm (toNegationNormalForm e) = toNegationNormalForm e.
Proof.
  destruct (nnf_facts e) as [(N & _ & _) _].
  split; [exact N|]. split; [apply nnf_Eval|now apply nnf_fixed].
Qed.

Lemma distribute_shape (d1 d2 : list (list macroTest)) :
  dnfShape d1 = true -> dnfShape d2 = true -> dnfShape (distribute d1 d2) = true.
Proof.
  unfold dnfShape. rewrite !andb_true_iff, !negb_true_iff, !Nat.eqb_neq.
  rewrite !forallb_forall. intros [N1 F1] [N2 F2]. split.
  - destruct d1 as [|lt d1]; [contradiction|]. destruct d2 as [|rt d2]; [contradiction|].
    unfold distribute. simpl. lia.
  - intros conj Hin. apply in_flat_map in Hin as (lt & Hlt & Hin).
    apply in_map_iff in Hin as (rt & <- & Hrt).
    specialize (F1 _ Hlt). specialize (F2 _ Hrt).
    apply andb_true_iff in F1 as [A1 B1]. apply andb_true_iff in F2 as [A2 B2].
    rewrite forallb_app, B1, B2, andb_true_r.
    apply negb_true_iff, Nat.eqb_neq. rewrite length_app.
    apply negb_true_iff, Nat.eqb_neq in A1. lia.
Qed.

Lemma exprToDnf_shape (e : Expr) d : exprToDnf e = Ok d -> dnfShape d = true.
Proof.
  revert d. induction e as [n|x IH|l IHl r IHr|l IHl r IHr|c]; intros d H.
  - cbn in H. injection H as <-. reflexivity.
  - cbn [exprToDnf] in H.
    destruct (extractMacro x) as [nm| |]; cbn [bind] in H; try discriminate.
    destruct x; try (injection H as <-; reflexivity).
    destruct (Negate c) as [c'| |]; cbn [bind] in H; try discriminate.
    injection H as <-. reflexivity.
  - cbn [exprToDnf] in H.
    destruct (exprToDnf l) as [d1| |]; cbn [bind] in H; try discriminate.
    destruct (exprToDnf r) as [d2| |]; cbn [bind] in H; try discriminate.
    injection H as <-. apply distribute_shape; auto.
  - cbn [exprToDnf] in H.
    destruct (exprToDnf l) as [d1| |]; cbn [bind] in H; try discriminate.
    destruct (exprToDnf r) as [d2| |]; cbn [bind] in H; try discriminate.
    injection H as <-. specialize (IHl _ eq_refl). specialize (IHr _ eq_refl).
    unfold dnfShape in *. apply andb_true_iff in IHl as [A1 B1].
    apply andb_true_iff in IHr as [A2 B2].
    rewrite forallb_app, B1, B2, andb_true_r.
    apply negb_true_iff, Nat.eqb_neq. rewrite length_app.
    apply negb_true_iff, Nat.eqb_neq in A1. lia.
  - cbn in H. injection H as <-. reflexivity.
Qed.

(** X3. Whatever expression it is given, a DNF returned by [toDNF] has at
    least one conjunction, no conjunction is empty, and a literal that
    carries a comparison has [Negated] false and no macro name: a negated
    comparison is stored as the comparison with the opposite operator, so
    the [Negated] flag only ever marks the absence of a macro. *)
Theorem toDNF_shape (e : Expr) d :
  toDNF e = Ok d -> dnfShape d = true.
Proof. apply exprToDnf_shape. Qed.

Lemma toDNF_shape_witness :
  toDNF (Not comboExpr)
  = Ok [[mkTest "LINUX" true None; mkTest "WIN32" true None];
        [mkTest "" false
           (Some (mkCompare (Ident "SHARED_FLAG") "==" (Constant 0)));
         mkTest "WIN32" true None]]
  /\ dnfShape [[mkTest "LINUX" true None; mkTest "WIN32" true None];
               [mkTest "" false
                  (Some (mkCompare (Ident "SHARED_FLAG") "==" (Constant 0)));
                mkTest "WIN32" true None]] = true.
Proof.
  split; [reflexivity|].
  apply (toDNF_shape (Not comboExpr)). reflexivity.
Defined.

(** X4. For an expression whose comparisons use the six operators,
    [toDNF] succeeds and its result is logically equivalent to the
    expression: under every macro set some conjunction of the DNF has all
    its literals true exactly when [Eval] returns true. *)
Theorem toDNF_equivalent (e : Expr) :
  wellFormed e = true ->
  exists d, toDNF e = Ok d
    /\ forall m, dnfb d m = true <-> Eval e m = Ok true.
Proof.
  intros Hw. destruct (toDNF_correct e Hw) as (d & Hd & _ & Ed).
  exists d. split; [exact Hd|]. intros m.
  rewrite (Eval_wellFormed e m Hw), Ed. split; [now intros ->|congruence].
Qed.

Lemma toDNF_equivalent_witness :
  wellFormed comboExpr = true
  /\ exists d, toDNF comboExpr = Ok d
       /\ forall m, dnfb d m = true <-> Eval comboExpr m = Ok true.
Proof.
  split; [reflexivity|]. apply (toDNF_equivalent comboExpr). reflexivity.
Defined.

(** ** The solver on equivalent expressions *)

Lemma PlatformsForExpr_spec Values e (M : gmap Platform (gmap string Z)) :
  ValuesSpec Values -> wellFormed e = true ->
  exists l, PlatformsForExpr Values (Some e) M = Ok (Some l)
    /\ (forall p, p ∈ l <->
          exists macros, M !! p = Some macros /\ Eval e macros = Ok true)
    /\ NoDup l
    /\ StronglySorted platform_le l.
Proof.
  intros HV Hw. destruct (matched_spec e M Hw) as (d & R & Hd & HR & Hin).
  unfold PlatformsForExpr. rewrite Hd. cbn [bind]. rewrite HR. cbn [bind].
  eexists. split; [reflexivity|].
  assert (Hperm : match Values R with Some r => r | None => [] end ≡ₚ elements R).
  { specialize (HV R). destruct (Values R); [exact HV|].
    subst R. now rewrite elements_empty. }
  repeat split.
  - intros Hp. apply Hin. apply elem_of_elements.
    now rewrite <- Hperm, <- (SortFunc_perm _).
  - intros Hp. rewrite (SortFunc_perm _), Hperm. apply elem_of_elements.
    now apply Hin.
  - rewrite (SortFunc_perm _), Hperm. apply NoDup_elements.
  - apply SortFunc_sorted.
Qed.

Lemma sorted_platforms_unique (l1 l2 : list Platform) :
  NoDup l1 -> NoDup l2 -> (forall p, p ∈ l1 <-> p ∈ l2) ->
  StronglySorted platform_le l1 -> StronglySorted platform_le l2 -> l1 = l2.
Proof.
  intros N1 N2 Hel S1 S2.
  apply (@StronglySorted_unique _ platform_le platform_le_antisym); auto.
  now apply NoDup_Permutation.
Qed.

(** X5. The result of [PlatformsForExpr] depends on the meaning of the
    guard only. Two guards that [Eval] cannot tell apart on the macro sets
    of the table get the same slice, element for element, and so does one
    guard under two implementations of [Set.Values]: the order in which Go
    iterates over its maps does not show in the result. *)
Theorem PlatformsForExpr_semantic Values1 Values2 e1 e2
    (M : gmap Platform (gmap string Z)) :
  ValuesSpec Values1 -> ValuesSpec Values2 ->
  wellFormed e1 = true -> wellFormed e2 = true ->
  (forall p macros, M !! p = Some macros -> Eval e1 macros = Eval e2 macros) ->
  PlatformsForExpr Values1 (Some e1) M = PlatformsForExpr Values2 (Some e2) M.
Proof.
  intros HV1 HV2 Hw1 Hw2 Heq.
  destruct (PlatformsForExpr_spec Values1 e1 M HV1 Hw1) as (l1 & -> & E1 & N1 & S1).
  destruct (PlatformsForExpr_spec Values2 e2 M HV2 Hw2) as (l2 & -> & E2 & N2 & S2).
  do 2 f_equal. apply sorted_platforms_unique; auto.
  intros p. rewrite E1, E2. split; intros (ms & Hms & He); exists ms;
    (split; [exact Hms|]); [rewrite <- (Heq p ms Hms)|rewrite (Heq p ms Hms)];
    exact He.
Qed.

Lemma PlatformsForExpr_semantic_witness :
  ValuesSpec ValuesNonNil /\ ValuesSpec ValuesNilOnEmpty
  /\ wellFormed (Not (And (Defined "LINUX") (Defined "WIN32"))) = true
  /\ wellFormed (Or (Not (Defined "LINUX")) (Not (Defined "WIN32"))) = true
  /\ (forall p macros, freshPlatformMacros !! p = Some macros ->
        Eval (Not (And (Defined "LINUX") (Defined "WIN32"))) macros
        = Eval (Or (Not (Defined "LINUX")) (Not (Defined "WIN32"))) macros)
  /\ PlatformsForExpr ValuesNonNil
       (Some (Not (And (Defined "LINUX") (Defined "WIN32")))) freshPlatformMacros
     = PlatformsForExpr ValuesNilOnEmpty
         (Some (Or (Not (Defined "LINUX")) (Not (Defined "WIN32"))))
         freshPlatformMacros.
Proof.
  assert (H : forall (p : Platform) (macros : gmap string Z),
             freshPlatformMacros !! p = Some macros ->
             Eval (Not (And (Defined "LINUX") (Defined "WIN32"))) macros
             = Eval (Or (Not (Defined "LINUX")) (Not (Defined "WIN32"))) macros).
  { intros p macros _. simpl.
    destruct (bool_decide (is_Some (macros !! "LINUX"))); simpl; reflexivity. }
  split; [exact ValuesNonNil_spec|]. split; [exact ValuesNilOnEmpty_spec|].
  split; [reflexivity|]. split; [reflexivity|]. split; [exact H|].
  apply (PlatformsForExpr_semantic ValuesNonNil ValuesNilOnEmpty
           (Not (And (Defined "LINUX") (Defined "WIN32")))
           (Or (Not (Defined "LINUX")) (Not (Defined "WIN32")))
           freshPlatformMacros ValuesNonNil_spec ValuesNilOnEmpty_spec
           eq_refl eq_refl H).
Defined.

(** X6. A guard that holds whatever the macros are, [e || !e], selects
    every platform of the table, in the order of [ComparePlatform]; a guard
    that never holds, [e && !e], selects none and yields the empty slice,
    not the nil slice of an unconditional include. *)
Theorem PlatformsForExpr_excluded_middle Values e
    (M : gmap Platform (gmap string Z)) :
  ValuesSpec Values -> wellFormed e = true ->
  PlatformsForExpr Values (Some (Or e (Not e))) M
  = Ok (Some (SortFunc (map_to_list M).*1))
  /\ PlatformsForExpr Values (Some (And e (Not e))) M = Ok (Some []).
Proof.
  intros HV Hw. split.
  - assert (Hw' : wellFormed (Or e (Not e)) = true) by (simpl; now rewrite Hw).
    destruct (PlatformsForExpr_spec Values _ M HV Hw') as (l & -> & E & N & S).
    do 2 f_equal. apply sorted_platforms_unique; auto.
    + rewrite (SortFunc_perm _). apply NoDup_fst_map_to_list.
    + intros p. rewrite E, (SortFunc_perm _), enabledPlatforms_elem. split.
      * intros (ms & Hms & _). eauto.
      * intros [ms Hms]. exists ms. split; [exact Hms|].
        rewrite (Eval_wellFormed _ ms Hw'). simpl.
        now destruct (evalb e ms).
    + apply SortFunc_sorted.
  - assert (Hw' : wellFormed (And e (Not e)) = true) by (simpl; now rewrite Hw).
    destruct (PlatformsForExpr_spec Values _ M HV Hw') as (l & -> & E & N & S).
    do 2 f_equal. destruct l as [|p l]; [reflexivity|]. exfalso.
    destruct (proj1 (E p)) as (ms & _ & He); [left|].
    rewrite (Eval_wellFormed _ ms Hw') in He. simpl in He.
    destruct (evalb e ms); discriminate.
Qed.

Lemma PlatformsForExpr_excluded_middle_witness :
  ValuesSpec ValuesNilOnEmpty /\ wellFormed comboExpr = true
  /\ PlatformsForExpr ValuesNilOnEmpty (Some (Or comboExpr (Not comboExpr)))
       freshPlatformMacros
     = Ok (Some (SortFunc (map_to_list freshPlatformMacros).*1))
  /\ PlatformsForExpr ValuesNilOnEmpty (Some (And comboExpr (Not comboExpr)))
       freshPlatformMacros
     = Ok (Some []).
Proof.
  split; [exact ValuesNilOnEmpty_spec|]. split; [reflexivity|].
  apply (PlatformsForExpr_excluded_middle ValuesNilOnEmpty comboExpr
           freshPlatformMacros ValuesNilOnEmpty_spec eq_refl).
Defined.

(** ** The order on platforms *)

Lemma cmp_Compare_antisym a b : cmp_Compare b a = - cmp_Compare a b.
Proof.
  unfold cmp_Compare. rewrite (String.compare_antisym a b).
  destruct (String.compare b a); reflexivity.
Qed.

(** X7. [ComparePlatform] is a total order on platforms: it returns -1, 0
    or 1; it returns 0 on equal platforms only; swapping the arguments
    flips the sign; and [<= 0] is transitive. Sorting with it therefore
    has one possible outcome. *)
Theorem ComparePlatform_total_order (a b c : Platform) :
  (ComparePlatform a b = -1 \/ ComparePlatform a b = 0 \/ ComparePlatform a b = 1)
  /\ (ComparePlatform a b = 0 <-> a = b)
  /\ ComparePlatform b a = - ComparePlatform a b
  /\ (ComparePlatform a b <= 0 -> ComparePlatform b c <= 0 ->
      ComparePlatform a c <= 0).
Proof.
  repeat split.
  - unfold ComparePlatform, cmp_Compare.
    destruct (String.compare (OS a) (OS b)); simpl; auto.
    destruct (String.compare (Arch a) (Arch b)); auto.
  - unfold ComparePlatform.
    destruct (Z.eqb_spec (cmp_Compare (OS a) (OS b)) 0) as [E|E]; simpl.
    + intros H. apply cmp_Compare_zero in E, H.
      destruct a, b; simpl in *; congruence.
    + intros H. contradiction.
  - intros <-. unfold ComparePlatform.
    rewrite (proj2 (cmp_Compare_zero (OS a) (OS a)) eq_refl). simpl.
    now apply cmp_Compare_zero.
  - unfold ComparePlatform.
    rewrite (cmp_Compare_antisym (OS a) (OS b)), (cmp_Compare_antisym (Arch a) (Arch b)).
    destruct (Z.eqb_spec (cmp_Compare (OS a) (OS b)) 0) as [E|E].
    + rewrite E. reflexivity.
    + destruct (Z.eqb_spec (- cmp_Compare (OS a) (OS b)) 0) as [E'|E']; [lia|].
      reflexivity.
  - intros H1 H2. exact (platform_le_trans a b c H1 H2).
Qed.

(** ** The platform table *)

Lemma addMacroValue_lookup_eq name v (ps : list Platform)
    (known : gmap Platform (gmap string Z)) p :
  addMacroValue name v ps known !! p
  = if bool_decide (p ∈ ps)
    then Some (<[name := v]> (default ∅ (known !! p)))
    else known !! p.
Proof.
  unfold addMacroValue. revert known.
  induction ps as [|q ps IH]; intros known; simpl.
  - reflexivity.
  - rewrite IH. destruct (decide (p = q)) as [->|Hne].
    + rewrite lookup_insert_eq. simpl. rewrite insert_insert_eq.
      rewrite (bool_decide_eq_true_2 (q ∈ q :: ps)) by left.
      now destruct (bool_decide (q ∈ ps)).
    + rewrite lookup_insert_ne by congruence.
      destruct (decide (p ∈ ps)) as [Hin|Hnin].
      * rewrite !bool_decide_eq_true_2; [reflexivity|now right|exact Hin].
      * rewrite !bool_decide_eq_false_2; [reflexivity| |exact Hnin].
        intros [->|?]%elem_of_cons; contradiction.
Qed.

(** X8. [addMacroValue name v ps] sets the macro [name] to [v] on every
    platform of [ps], creating the platform's entry when the table has
    none, and changes nothing else: the other macros of these platforms
    and the entries of all other platforms are what they were. *)
Theorem addMacroValue_lookup name v (ps : list Platform)
    (known : gmap Platform (gmap string Z)) p :
  (p ∈ ps ->
     exists macros, addMacroValue name v ps known !! p = Some macros
       /\ macros !! name = Some v
       /\ forall other, other <> name ->
            macros !! other = default ∅ (known !! p) !! other)
  /\ (p ∉ ps -> addMacroValue name v ps known !! p = known !! p).
Proof.
  rewrite addMacroValue_lookup_eq. split; intros H.
  - rewrite bool_decide_eq_true_2 by exact H. eexists. split; [reflexivity|].
    split; [apply lookup_insert_eq|].
    intros other Hne. now rewrite lookup_insert_ne.
  - now rewrite bool_decide_eq_false_2.
Qed.

Lemma addMacro_allOnes name (ps : list Platform)
    (known : gmap Platform (gmap string Z)) :
  allOnes known -> allOnes (addMacro name ps known).
Proof.
  intros H p macros n v Hp Hn. unfold addMacro in Hp.
  rewrite addMacroValue_lookup_eq in Hp. case_bool_decide.
  - injection Hp as <-. destruct (decide (n = name)) as [->|Hne].
    + rewrite lookup_insert_eq in Hn. congruence.
    + rewrite lookup_insert_ne in Hn by congruence.
      destruct (known !! p) as [ms|] eqn:E; simpl in Hn.
      * exact (H p ms n v E Hn).
      * now rewrite lookup_empty in Hn.
  - exact (H p macros n v Hp Hn).
Qed.

Lemma addMacros_allOnes names (ps : list Platform)
    (known : gmap Platform (gmap string Z)) :
  allOnes known -> allOnes (addMacros names ps known).
Proof.
  unfold addMacros. revert known.
  induction names as [|n names IH]; intros known H; simpl; [exact H|].
  apply IH. now apply addMacro_allOnes.
Qed.

Lemma init_allOnes (known : gmap Platform (gmap string Z)) :
  allOnes known -> allOnes (init known).
Proof.
  unfold init. generalize init_steps. intros steps. revert known.
  induction steps as [|[names ps] steps IH]; intros known H; simpl; [exact H|].
  apply IH. now apply addMacros_allOnes.
Qed.

Lemma KnownPlatformMacros_allOnes : allOnes KnownPlatformMacros.
Proof.
  apply init_allOnes. intros p macros n v Hp. now rewrite lookup_empty in Hp.
Qed.

(** X9. [init] only ever stores the value 1: every macro of every platform
    of [KnownPlatformMacros] is 1. On the built-in table the guard of
    [#if NAME] (the comparison [NAME != 0]) and the guard [defined(NAME)]
    therefore select the same platforms, for every name. *)
Theorem KnownPlatformMacros_values_are_one Values name :
  ValuesSpec Values ->
  allOnes KnownPlatformMacros
  /\ PlatformsForExpr Values
       (Some (Cmp (mkCompare (Ident name) "!=" (Constant 0)))) KnownPlatformMacros
     = PlatformsForExpr Values (Some (Defined name)) KnownPlatformMacros.
Proof.
  intros HV. split; [exact KnownPlatformMacros_allOnes|].
  destruct (PlatformsForExpr_spec Values
              (Cmp (mkCompare (Ident name) "!=" (Constant 0)))
              KnownPlatformMacros HV eq_refl) as (l1 & -> & E1 & N1 & S1).
  destruct (PlatformsForExpr_spec Values (Defined name)
              KnownPlatformMacros HV eq_refl) as (l2 & -> & E2 & N2 & S2).
  do 2 f_equal. apply sorted_platforms_unique; auto.
  intros p. rewrite E1, E2.
  assert (Heq : forall ms, KnownPlatformMacros !! p = Some ms ->
            Eval (Cmp (mkCompare (Ident name) "!=" (Constant 0))) ms
            = Eval (Defined name) ms).
  { intros ms Hms. simpl. unfold Compare_Eval. simpl.
    destruct (ms !! name) as [v|] eqn:Ev; simpl.
    - rewrite (KnownPlatformMacros_allOnes p ms name v Hms Ev). reflexivity.
    - reflexivity. }
  split; intros (ms & Hms & He); exists ms; (split; [exact Hms|]);
    [rewrite <- (Heq ms Hms)|rewrite (Heq ms Hms)]; exact He.
Qed.

Lemma KnownPlatformMacros_values_are_one_witness :
  ValuesSpec ValuesNonNil
  /\ allOnes KnownPlatformMacros
  /\ PlatformsForExpr ValuesNonNil
       (Some (Cmp (mkCompare (Ident "_WIN64") "!=" (Constant 0)))) KnownPlatformMacros
     = PlatformsForExpr ValuesNonNil (Some (Defined "_WIN64")) KnownPlatformMacros.
Proof.
  split; [exact ValuesNonNil_spec|].
  apply (KnownPlatformMacros_values_are_one ValuesNonNil "_WIN64" ValuesNonNil_spec).
Defined.

Lemma platformsMatrix_elem (oss archs : list string) p :
  p ∈ platformsMatrix oss archs <-> OS p ∈ oss /\ Arch p ∈ archs.
Proof.
  unfold platformsMatrix. rewrite list_elem_of_In, in_flat_map. split.
  - intros (o & Ho & Hin). apply in_map_iff in Hin as (a & <- & Ha). simpl.
    split; now apply list_elem_of_In.
  - intros [Ho Ha]. exists (OS p). split; [now apply list_elem_of_In|].
    apply in_map_iff. exists (Arch p). split; [now destruct p|].
    now apply list_elem_of_In.
Qed.

(** X10. The platform lists of the table: [platformsMatrix] is the product
    of its arguments; [osArchPlatforms os archs] holds [os] with each
    architecture of [archs] and, in addition, the platform of [os] alone
    with the empty architecture; [archOsPlatforms] is its mirror image with
    the empty OS. *)
Theorem platform_lists_elem (os arch : string) (oss archs : list string) p :
  (p ∈ platformsMatrix oss archs <-> OS p ∈ oss /\ Arch p ∈ archs)
  /\ (p ∈ osArchPlatforms os archs <->
      OS p = os /\ (Arch p ∈ archs \/ Arch p = ""))
  /\ (p ∈ archOsPlatforms arch oss <->
      Arch p = arch /\ (OS p ∈ oss \/ OS p = ""))
  /\ length (platformsMatrix oss archs) = (length oss * length archs)%nat.
Proof.
  split; [apply platformsMatrix_elem|]. split; [|split].
  - unfold osArchPlatforms. rewrite elem_of_app, platformsMatrix_elem.
    rewrite !list_elem_of_singleton. destruct p as [o a]; simpl. split.
    + intros [[-> H]|[= -> ->]]; auto.
    + intros [-> [H| ->]]; auto.
  - unfold archOsPlatforms. rewrite elem_of_app, platformsMatrix_elem.
    rewrite !list_elem_of_singleton. destruct p as [o a]; simpl. split.
    + intros [[H ->]|[= -> ->]]; auto.
    + intros [-> [H| ->]]; auto.
  - unfold platformsMatrix. induction oss as [|o oss IH]; simpl; [reflexivity|].
    now rewrite length_app, length_map, IH.
Qed.

(** ** Parsing platforms *)

Lemma isField_cons c (s : string) :
  isField (String c s) = true ->
  (c =? "/")%char = false /\ (s = EmptyString \/ isField s = true).
Proof.
  unfold isField. simpl. intros H. apply andb_true_iff in H as [Hc Hs].
  apply negb_true_iff in Hc. split; [exact Hc|].
  destruct s as [|c' s']; [now left|right]. exact Hs.
Qed.

Lemma FieldsFunc_field (a : string) :
  isField a = true -> FieldsFunc (fun r => (r =? "/")%char) a = [a].
Proof.
  induction a as [|c a IH]; [discriminate|]. intros H.
  apply isField_cons in H as [Hc [-> |Ha]].
  - simpl. now rewrite Hc.
  - specialize (IH Ha). destruct a as [|c' a']; [discriminate|].
    apply isField_cons in Ha as [Hc' _].
    cbn [FieldsFunc] in *. rewrite Hc, Hc' in *. now rewrite IH.
Qed.

Lemma FieldsFunc_two (o a : string) :
  isField o = true -> isField a = true ->
  FieldsFunc (fun r => (r =? "/")%char) (o ++ "/" ++ a) = [o; a].
Proof.
  intros Ho Ha. induction o as [|c o IH]; [discriminate|].
  apply isField_cons in Ho as [Hc [-> |Ho]].
  - change (FieldsFunc (fun r => (r =? "/")%char)
              (String c (String "/" a)) = [String c EmptyString; a]).
    cbn [FieldsFunc]. rewrite Hc. cbn [Ascii.eqb Bool.eqb].
    f_equal. destruct a as [|c' a']; [discriminate|].
    exact (FieldsFunc_field _ Ha).
  - specialize (IH Ho). destruct o as [|c' o']; [discriminate|].
    apply isField_cons in Ho as [Hc' _].
    rewrite !append_cons in *. cbn [FieldsFunc] in *.
    rewrite Hc, Hc' in *. now rewrite IH.
Qed.

Lemma FieldsFunc_one (o : string) :
  isField o = true ->
  FieldsFunc (fun r => (r =? "/")%char) (o ++ "/") = [o].
Proof.
  intros Ho. induction o as [|c o IH]; [discriminate|].
  apply isField_cons in Ho as [Hc [-> |Ho]].
  - change (FieldsFunc (fun r => (r =? "/")%char)
              (String c (String "/" EmptyString)) = [String c EmptyString]).
    cbn [FieldsFunc]. rewrite Hc. reflexivity.
  - specialize (IH Ho). destruct o as [|c' o']; [discriminate|].
    apply isField_cons in Ho as [Hc' _].
    rewrite !append_cons in *. cbn [FieldsFunc] in *.
    rewrite Hc, Hc' in *. now rewrite IH.
Qed.

Lemma Contains_elem (l : list string) x : Contains l x = true <-> x ∈ l.
Proof.
  unfold Contains. rewrite existsb_exists, list_elem_of_In. split.
  - intros (y & Hy & E). apply String.eqb_eq in E. now subst.
  - intros H. exists x. split; [exact H|apply String.eqb_refl].
Qed.

Lemma Parse_ok_known value p :
  Parse value = (p, None) -> OS p ∈ allKnownOs /\ Arch p ∈ allKnownArch.
Proof.
  unfold Parse.
  destruct (FieldsFunc _ value) as [|f0 [|f1 [|? ?]]]; try discriminate.
  cbn [OS Arch].
  destruct (Contains allKnownOs (dealias f0 osAlias)) eqn:F1; cbn [negb];
    try discriminate.
  destruct (Contains allKnownArch (dealias f1 archAlias)) eqn:F2; cbn [negb];
    try discriminate.
  intros [= <-]. cbn [OS Arch]. rewrite <- !Contains_elem. auto.
Qed.

(** X11. [Parse] splits its argument at slashes, replaces an alias by the
    name it stands for and accepts exactly the names of the two
    catalogues: for two non-empty slash-free fields the platform returned
    is made of the de-aliased fields, with no error if and only if the OS
    is in [allKnownOs] and the architecture in [allKnownArch]; a platform
    returned without error has catalogue names on both sides. *)
Theorem Parse_fields (o a : string) :
  isField o = true -> isField a = true ->
  exists err,
    Parse (o ++ "/" ++ a)
    = (mkPlatform (dealias o osAlias) (dealias a archAlias), err)
    /\ (err = None <->
        dealias o osAlias ∈ allKnownOs /\ dealias a archAlias ∈ allKnownArch)
    /\ forall value p, Parse value = (p, None) ->
         OS p ∈ allKnownOs /\ Arch p ∈ allKnownArch.
Proof.
  intros Ho Ha. unfold Parse at 1. rewrite (FieldsFunc_two o a Ho Ha). cbn [OS Arch].
  destruct (Contains allKnownOs (dealias o osAlias)) eqn:E1; cbn [negb];
    [destruct (Contains allKnownArch (dealias a archAlias)) eqn:E2; cbn [negb]|];
    eexists; (split; [reflexivity|]); (split; [|exact Parse_ok_known]);
    rewrite <- !Contains_elem; intuition congruence.
Qed.

Lemma Parse_fields_witness :
  isField "macos" = true /\ isField "arm64" = true
  /\ exists err,
       Parse ("macos" ++ "/" ++ "arm64")
       = (mkPlatform (dealias "macos" osAlias) (dealias "arm64" archAlias), err)
       /\ (err = None <->
           dealias "macos" osAlias ∈ allKnownOs
           /\ dealias "arm64" archAlias ∈ allKnownArch)
       /\ forall value p, Parse value = (p, None) ->
            OS p ∈ allKnownOs /\ Arch p ∈ allKnownArch.
Proof.
  split; [reflexivity|]. split; [reflexivity|].
  apply (Parse_fields "macos" "arm64"); reflexivity.
Defined.

Lemma catalogue_names_plain :
  forallb (fun os => isField os && String.eqb (dealias os osAlias) os) allKnownOs
  = true
  /\ forallb (fun arch => isField arch && String.eqb (dealias arch archAlias) arch)
       allKnownArch = true.
Proof. split; vm_compute; reflexivity. Qed.

(** X12. Printing a platform and parsing it back is the identity on the
    platforms made of a catalogue OS and a catalogue architecture. The
    platforms of an OS alone, which the macro table also has as keys, print
    as the OS followed by a slash and are rejected as malformed. *)
Theorem Parse_String_roundtrip (os arch : string) :
  os ∈ allKnownOs -> arch ∈ allKnownArch ->
  Parse (Platform_String (mkPlatform os arch)) = (mkPlatform os arch, None)
  /\ Parse (Platform_String (mkPlatform os ""))
     = (mkPlatform "" "", Some (MalformedPlatform (os ++ "/"))).
Proof.
  intros Hos Harch. destruct catalogue_names_plain as [Co Ca].
  rewrite forallb_forall in Co, Ca.
  specialize (Co os (proj1 (list_elem_of_In _ _) Hos)).
  specialize (Ca arch (proj1 (list_elem_of_In _ _) Harch)).
  apply andb_true_iff in Co as [Fo Do], Ca as [Fa Da].
  apply String.eqb_eq in Do, Da. unfold Platform_String. cbn [OS Arch]. split.
  - unfold Parse. rewrite (FieldsFunc_two os arch Fo Fa). cbn [OS Arch].
    rewrite Do, Da.
    rewrite (proj2 (Contains_elem _ _) Hos), (proj2 (Contains_elem _ _) Harch).
    reflexivity.
  - unfold Parse. change (os ++ "/" ++ "") with (os ++ "/").
    rewrite (FieldsFunc_one os Fo). reflexivity.
Qed.

Lemma Parse_String_roundtrip_witness :
  linux ∈ allKnownOs /\ x86_64 ∈ allKnownArch
  /\ Parse (Platform_String (mkPlatform linux x86_64)) = (mkPlatform linux x86_64, None)
  /\ Parse (Platform_String (mkPlatform linux ""))
     = (mkPlatform "" "", Some (MalformedPlatform (linux ++ "/"))).
Proof.
  assert (H1 : linux ∈ allKnownOs) by (apply Contains_elem; reflexivity).
  assert (H2 : x86_64 ∈ allKnownArch) by (apply Contains_elem; reflexivity).
  split; [exact H1|]. split; [exact H2|].
  apply (Parse_String_roundtrip linux x86_64 H1 H2).
Defined.

(** ** Integer literals and [ParseMacros] *)

Lemma isHexDigit_ok c : isHexDigit c = true -> digitOK 16 c = true.
Proof.
  destruct c as [[|] [|] [|] [|] [|] [|] [|] [|]]; vm_compute; auto.
Qed.

Lemma isOctDigit_ok c :
  isOctDigit c = true ->
  digitOK 8 c = true
  /\ (lower c =? "b")%char = false /\ (lower c =? "o")%char = false
  /\ (lower c =? "x")%char = false.
Proof.
  destruct c as [[|] [|] [|] [|] [|] [|] [|] [|]]; vm_compute; auto;
    discriminate.
Qed.

Lemma isDigit_ok c :
  isDigit c = true ->
  digitOK 10 c = true /\ (c =? "-")%char = false /\ (c =? "+")%char = false
  /\ isIntSuffix c = false.
Proof.
  destruct c as [[|] [|] [|] [|] [|] [|] [|] [|]]; vm_compute; auto;
    discriminate.
Qed.

Lemma digitOK_not_suffix c : isHexDigit c = true -> isIntSuffix c = false.
Proof.
  destruct c as [[|] [|] [|] [|] [|] [|] [|] [|]]; vm_compute; auto.
Qed.

Lemma parseDigits_ok base (ds : list ascii) : forall acc,
  forallb (digitOK base) ds = true -> 0 <= acc -> 0 < base ->
  exists n, parseDigits base acc ds = Some n /\ 0 <= n
            /\ existsb (fun c => (c =? "_")%char) ds = false.
Proof.
  induction ds as [|c ds IH]; intros acc H Hacc Hb; simpl.
  - exists acc. auto.
  - simpl in H. apply andb_true_iff in H as [Hc Hds]. unfold digitOK in Hc.
    apply andb_true_iff in Hc as [Hu Hd]. apply negb_true_iff in Hu. rewrite Hu.
    destruct (digitVal c) as [d|]; [|discriminate].
    apply andb_true_iff in Hd as [Hd0 Hd1]. rewrite Hd1. simpl.
    apply IH; auto. apply Z.leb_le in Hd0. nia.
Qed.

Lemma forallb_impl {A} (f g : A -> bool) (l : list A) :
  (forall x, f x = true -> g x = true) -> forallb f l = true -> forallb g l = true.
Proof.
  intros Hfg. rewrite !forallb_forall. auto.
Qed.

Lemma ParseUint_digits base (s digits : list ascii) :
  forallb (digitOK base) digits = true -> 0 < base ->
  exists n, 0 <= n
    /\ match parseDigits base 0 digits with
       | None => None
       | Some n =>
           if existsb (fun c => (c =? "_")%char) digits && negb (underscoreOK s)
           then None else Some n
       end = Some n.
Proof.
  intros H Hb. destruct (parseDigits_ok base digits 0 H (Z.le_refl 0) Hb)
    as (n & -> & Hn & ->).
  exists n. auto.
Qed.

Lemma literal_ParseUint (body : list ascii) :
  hexLiteral body || octLiteral body || decLiteral body = true ->
  (exists c0 rest, body = c0 :: rest
     /\ (c0 =? "-")%char = false /\ (c0 =? "+")%char = false)
  /\ forallb (fun c => negb (isIntSuffix c)) body = true
  /\ exists n, 0 <= n /\ ParseUint body = Some n.
Proof.
  intros H. apply orb_true_iff in H as [H|H]; [apply orb_true_iff in H as [H|H]|].
  - (* hexadecimal *)
    destruct body as [|c0 [|c1 [|d ds]]]; try discriminate. unfold hexLiteral in H.
    apply andb_true_iff in H as [H Hds]. apply andb_true_iff in H as [H0 H1].
    apply Ascii.eqb_eq in H0. subst c0. split; [|split].
    + eexists _, _. split; [reflexivity|]. split; reflexivity.
    + change (negb (isIntSuffix "0")
              && (negb (isIntSuffix c1)
                  && forallb (fun c => negb (isIntSuffix c)) (d :: ds)) = true).
      apply andb_true_iff. split; [reflexivity|]. apply andb_true_iff. split.
      * apply orb_true_iff in H1 as [H1|H1]; apply Ascii.eqb_eq in H1; subst c1;
          reflexivity.
      * eapply forallb_impl; [|exact Hds]. intros x Hx.
        now rewrite (digitOK_not_suffix x Hx).
    + assert (E : ParseUint ("0"%char :: c1 :: d :: ds)
                  = match parseDigits 16 0 (d :: ds) with
                    | None => None
                    | Some n =>
                        if existsb (fun c => (c =? "_")%char) (d :: ds)
                           && negb (underscoreOK ("0"%char :: c1 :: d :: ds))
                        then None else Some n
                    end).
      { apply orb_true_iff in H1 as [H1|H1]; apply Ascii.eqb_eq in H1; subst c1;
          reflexivity. }
      rewrite E. apply ParseUint_digits; [|lia].
      eapply forallb_impl; [|exact Hds]. exact isHexDigit_ok.
  - (* octal *)
    destruct body as [|c0 ds]; try discriminate. unfold octLiteral in H.
    apply andb_true_iff in H as [H0 Hds].
    apply Ascii.eqb_eq in H0. subst c0. split; [|split].
    + eexists _, _. split; [reflexivity|]. split; reflexivity.
    + cbn [forallb]. apply andb_true_iff. split; [reflexivity|].
      eapply forallb_impl; [|exact Hds]. intros x Hx.
      destruct (isOctDigit_ok x Hx) as (Hx' & _).
      destruct x as [[|] [|] [|] [|] [|] [|] [|] [|]]; try discriminate;
        reflexivity.
    + assert (E : ParseUint ("0"%char :: ds)
                  = match parseDigits 8 0 ds with
                    | None => None
                    | Some n =>
                        if existsb (fun c => (c =? "_")%char) ds
                           && negb (underscoreOK ("0"%char :: ds))
                        then None else Some n
                    end).
      { destruct ds as [|c1 rest]; [reflexivity|].
        cbn [forallb] in Hds. apply andb_true_iff in Hds as [Hc1 _].
        destruct (isOctDigit_ok c1 Hc1) as (_ & Hb & Ho & Hx).
        unfold ParseUint. cbn [Ascii.eqb Bool.eqb ascii_of_N]. 
        change (("0" =? "0")%char) with true. cbv iota.
        rewrite Hb, Ho, Hx, !andb_false_r. reflexivity. }
      rewrite E. apply ParseUint_digits; [|lia].
      eapply forallb_impl; [|exact Hds]. intros x Hx.
      now destruct (isOctDigit_ok x Hx).
  - (* decimal *)
    destruct body as [|c0 ds]; try discriminate. unfold decLiteral in H.
    apply andb_true_iff in H as [H Hds]. apply andb_true_iff in H as [Hd H0].
    apply negb_true_iff in H0.
    destruct (isDigit_ok c0 Hd) as (Hok & Hm & Hp & Hs). split; [|split].
    + eexists _, _. split; [reflexivity|]. split; assumption.
    + cbn [forallb]. rewrite Hs. cbn [negb andb].
      eapply forallb_impl; [|exact Hds]. intros x Hx.
      destruct (isDigit_ok x Hx) as (_ & _ & _ & ->). reflexivity.
    + assert (E : ParseUint (c0 :: ds)
                  = match parseDigits 10 0 (c0 :: ds) with
                    | None => None
                    | Some n =>
                        if existsb (fun c => (c =? "_")%char) (c0 :: ds)
                           && negb (underscoreOK (c0 :: ds))
                        then None else Some n
                    end).
      { unfold ParseUint. rewrite H0. reflexivity. }
      rewrite E. apply ParseUint_digits; [|lia].
      cbn [forallb]. rewrite Hok. cbn [andb].
      eapply forallb_impl; [|exact Hds]. intros x Hx.
      now destruct (isDigit_ok x Hx).
Qed.

Lemma spanLiteral_app (cs : list ascii) :
  cs = ((spanLiteral cs).1 ++ (spanLiteral cs).2)%list.
Proof.
  induction cs as [|c cs IH]; [reflexivity|]. simpl.
  destruct (isIntSuffix c); [reflexivity|].
  destruct (spanLiteral cs) as [body suf]. simpl in *. now f_equal.
Qed.

Lemma intSuffix_chars (suf : list ascii) :
  intSuffix (string_of_list_ascii suf) = true -> forallb isIntSuffix suf = true.
Proof.
  unfold intSuffix. intros H. apply existsb_exists in H as (x & Hin & E).
  apply String.eqb_eq in E.
  assert (Hs : suf = list_ascii_of_string x).
  { rewrite <- E. now rewrite list_ascii_of_string_of_list_ascii. }
  subst suf. clear E. revert x Hin. apply forallb_forall.
  vm_compute. reflexivity.
Qed.

Lemma dropLeading_all (f : ascii -> bool) l1 l2 :
  forallb f l1 = true -> dropLeading f (l1 ++ l2) = dropLeading f l2.
Proof.
  induction l1 as [|c l1 IH]; simpl; [reflexivity|]. intros H.
  apply andb_true_iff in H as [-> H]. auto.
Qed.

Lemma forallb_rev {A} (f : A -> bool) (l : list A) :
  forallb f l = true -> forallb f (rev l) = true.
Proof.
  rewrite !forallb_forall. intros H x Hx. apply H. now apply in_rev.
Qed.

Lemma TrimRightFunc_literal (f : ascii -> bool) body suf :
  forallb (fun c => negb (f c)) body = true -> forallb f suf = true ->
  TrimRightFunc f (body ++ suf) = body.
Proof.
  intros Hb Hs. unfold TrimRightFunc. rewrite rev_app_distr.
  rewrite (dropLeading_all f _ _ (forallb_rev _ _ Hs)).
  rewrite (dropLeading_id f _ (forallb_rev _ _ Hb)). apply rev_involutive.
Qed.

Lemma literal_value (raw : string) :
  parsableIntegerRegex raw = true ->
  exists n, 0 <= n
    /\ ParseUint (literalPart raw) = Some n
    /\ parseIntLiteral raw = (if 2 ^ 63 <=? n then None else Some n).
Proof.
  unfold parsableIntegerRegex, literalPart, parseIntLiteral. intros H.
  pose proof (spanLiteral_app (list_ascii_of_string raw)) as Happ.
  destruct (spanLiteral (list_ascii_of_string raw)) as [body suf].
  cbn [fst snd] in *. apply andb_true_iff in H as [Hb Hs].
  apply intSuffix_chars in Hs.
  destruct (literal_ParseUint body Hb) as ((c0 & rest & -> & Hm & Hp) & Hns & n & Hn & Hu).
  exists n. split; [exact Hn|]. split; [exact Hu|].
  rewrite Happ, (TrimRightFunc_literal isIntSuffix _ _ Hns Hs).
  unfold ParseInt. rewrite Hm, Hp. cbn [orb negb andb]. rewrite Hu.
  destruct (2 ^ 63 <=? n); reflexivity.
Qed.

(** X13. The expression that [ParseMacros] checks values with and
    [parseIntLiteral] agree on the syntax of integers: on a string the
    expression accepts, [strconv] finds no syntax error in the part before
    the U/L suffix, so [parseIntLiteral] returns the number, which is not
    negative, unless it is 2^63 or more, the one case in which it fails. *)
Theorem parsableInteger_parses (raw : string) :
  parsableIntegerRegex raw = true ->
  exists n, 0 <= n
    /\ ParseUint (literalPart raw) = Some n
    /\ parseIntLiteral raw = (if 2 ^ 63 <=? n then None else Some n).
Proof. exact (literal_value raw). Qed.

Lemma parsableInteger_parses_witness :
  parsableIntegerRegex "0x1FuLL" = true
  /\ exists n, 0 <= n
       /\ ParseUint (literalPart "0x1FuLL") = Some n
       /\ parseIntLiteral "0x1FuLL" = (if 2 ^ 63 <=? n then None else Some n).
Proof.
  split; [reflexivity|]. apply (parsableInteger_parses "0x1FuLL"). reflexivity.
Defined.

Lemma identChar_plain c :
  isLetter c || isDigit c || (c =? "_")%char = true ->
  (c =? "=")%char = false /\ ("-" =? c)%char = false.
Proof.
  destruct c as [[|] [|] [|] [|] [|] [|] [|] [|]]; vm_compute; auto;
    discriminate.
Qed.

Lemma cutAt_none (name : string) :
  forallb (fun c => isLetter c || isDigit c || (c =? "_")%char)
          (list_ascii_of_string name) = true ->
  cutAt "=" name = None.
Proof.
  induction name as [|c name IH]; [reflexivity|]. simpl. intros H.
  apply andb_true_iff in H as [Hc H].
  destruct (identChar_plain c Hc) as [-> _]. now rewrite IH.
Qed.

Lemma cutAt_app (name raw : string) :
  forallb (fun c => isLetter c || isDigit c || (c =? "_")%char)
          (list_ascii_of_string name) = true ->
  cutAt "=" (name ++ String "=" raw) = Some (name, raw).
Proof.
  induction name as [|c name IH]; [reflexivity|]. simpl. intros H.
  apply andb_true_iff in H as [Hc H]. rewrite ?append_cons. simpl.
  destruct (identChar_plain c Hc) as [-> _]. now rewrite IH.
Qed.

Lemma ident_chars (name : string) :
  macroIdentifierRegex name = true ->
  forallb (fun c => isLetter c || isDigit c || (c =? "_")%char)
          (list_ascii_of_string name) = true
  /\ TrimPrefix name "-D" = name.
Proof.
  destruct name as [|c rest]; [discriminate|]. simpl. intros H.
  apply andb_true_iff in H as [Hc Hr]. rewrite Hr, andb_true_r.
  assert (Hc' : isLetter c || isDigit c || (c =? "_")%char = true).
  { apply orb_true_iff in Hc as [->| ->]; [reflexivity|].
    now rewrite orb_true_r. }
  split; [exact Hc'|]. unfold TrimPrefix. cbn [stripPrefix].
  now destruct (identChar_plain c Hc') as [_ ->].
Qed.

Lemma ident_TrimPrefix_app (name s : string) :
  macroIdentifierRegex name = true -> TrimPrefix (name ++ s) "-D" = name ++ s.
Proof.
  destruct name as [|c rest]; [discriminate|]. simpl. intros H.
  apply andb_true_iff in H as [Hc _].
  assert (Hc' : isLetter c || isDigit c || (c =? "_")%char = true).
  { apply orb_true_iff in Hc as [->| ->]; [reflexivity|].
    now rewrite orb_true_r. }
  rewrite ?append_cons. unfold TrimPrefix. cbn [stripPrefix].
  now destruct (identChar_plain c Hc') as [_ ->].
Qed.

Lemma TrimPrefix_D (s : string) : TrimPrefix ("-D" ++ s) "-D" = s.
Proof. reflexivity. Qed.

Lemma ParseMacrosFrom_cons out d defs :
  ParseMacrosFrom out (d :: defs)
  = let name := macroName d in
    let raw := match cutAt "=" (TrimPrefix d "-D") with
               | Some (_, raw) => raw
               | None => EmptyString
               end in
    if negb (macroIdentifierRegex name)
    then (Some out, Some (InvalidMacroName name))
    else if String.eqb raw EmptyString
    then ParseMacrosFrom (<[name := 1]> out) defs
    else if negb (parsableIntegerRegex raw)
    then (None, Some (NotIntegerLiteral name raw))
    else match parseIntLiteral raw with
         | None => (Some out, Some (LiteralError name))
         | Some value => ParseMacrosFrom (<[name := value]> out) defs
         end.
Proof.
  cbn [ParseMacrosFrom]. unfold macroName.
  destruct (cutAt "=" (TrimPrefix d "-D")) as [[name raw]|]; reflexivity.
Qed.

Lemma ParseMacrosFrom_flag out d defs name :
  macroIdentifierRegex name = true ->
  TrimPrefix d "-D" = name \/ TrimPrefix d "-D" = name ++ "="
  \/ TrimPrefix d "-D" = name ++ "=1" ->
  ParseMacrosFrom out (d :: defs) = ParseMacrosFrom (<[name := 1]> out) defs.
Proof.
  intros Hn Hd. destruct (ident_chars name Hn) as [Hc _].
  rewrite ParseMacrosFrom_cons. unfold macroName.
  destruct Hd as [-> |[-> | ->]].
  - rewrite (cutAt_none name Hc). cbn zeta. rewrite Hn. reflexivity.
  - change (name ++ "=") with (name ++ String "=" EmptyString).
    rewrite (cutAt_app name _ Hc). cbn zeta. rewrite Hn. reflexivity.
  - change (name ++ "=1") with (name ++ String "=" "1").
    rewrite (cutAt_app name _ Hc). cbn zeta. rewrite Hn. reflexivity.
Qed.

(** X14. The spellings of a flag: for a name that is an identifier, the
    definitions [NAME], [-DNAME], [NAME=], [-DNAME=] and [NAME=1] all do
    the same, whatever was defined before and whatever follows: they set
    [NAME] to 1. *)
Theorem ParseMacros_flag_spellings (name : string) (out : gmap string Z) defs :
  macroIdentifierRegex name = true ->
  ParseMacrosFrom out (name :: defs) = ParseMacrosFrom (<[name := 1]> out) defs
  /\ ParseMacrosFrom out (("-D" ++ name) :: defs)
     = ParseMacrosFrom (<[name := 1]> out) defs
  /\ ParseMacrosFrom out ((name ++ "=") :: defs)
     = ParseMacrosFrom (<[name := 1]> out) defs
  /\ ParseMacrosFrom out (("-D" ++ name ++ "=") :: defs)
     = ParseMacrosFrom (<[name := 1]> out) defs
  /\ ParseMacrosFrom out ((name ++ "=1") :: defs)
     = ParseMacrosFrom (<[name := 1]> out) defs.
Proof.
  intros Hn. destruct (ident_chars name Hn) as [Hc Ht].
  repeat split; apply ParseMacrosFrom_flag; try exact Hn.
  - left. exact Ht.
  - left. apply TrimPrefix_D.
  - right; left. now apply ident_TrimPrefix_app.
  - right; left. apply (TrimPrefix_D (name ++ "=")).
  - right; right. now apply ident_TrimPrefix_app.
Qed.

Lemma ParseMacros_flag_spellings_witness :
  macroIdentifierRegex "NDEBUG" = true
  /\ ParseMacrosFrom ∅ ["NDEBUG"] = ParseMacrosFrom (<["NDEBUG" := 1]> ∅) []
  /\ ParseMacrosFrom ∅ ["-D" ++ "NDEBUG"] = ParseMacrosFrom (<["NDEBUG" := 1]> ∅) []
  /\ ParseMacrosFrom ∅ ["NDEBUG" ++ "="] = ParseMacrosFrom (<["NDEBUG" := 1]> ∅) []
  /\ ParseMacrosFrom ∅ ["-D" ++ "NDEBUG" ++ "="]
     = ParseMacrosFrom (<["NDEBUG" := 1]> ∅) []
  /\ ParseMacrosFrom ∅ ["NDEBUG" ++ "=1"] = ParseMacrosFrom (<["NDEBUG" := 1]> ∅) [].
Proof.
  split; [reflexivity|].
  apply (ParseMacros_flag_spellings "NDEBUG" ∅ []). reflexivity.
Defined.

Lemma goodMacros_insert (m : gmap string Z) name v :
  goodMacros m -> macroIdentifierRegex name = true -> 0 <= v < 2 ^ 63 ->
  goodMacros (<[name := v]> m).
Proof.
  intros Hm Hn Hv n x Hx. destruct (decide (name = n)) as [<-|Hne].
  - rewrite lookup_insert_eq in Hx. injection Hx as <-. auto.
  - rewrite lookup_insert_ne in Hx by exact Hne. eauto.
Qed.

Lemma ParseMacrosFrom_sound defs : forall (out : gmap string Z) res,
  goodMacros out ->
  ParseMacrosFrom out defs = (res, None) ->
  exists m, res = Some m /\ goodMacros m
    /\ forall name, is_Some (m !! name) <->
         is_Some (out !! name) \/ exists d, d ∈ defs /\ macroName d = name.
Proof.
  induction defs as [|d defs IH]; intros out res Hout H.
  - cbn in H. injection H as <-. exists out. split; [reflexivity|].
    split; [exact Hout|]. intros name. split; [auto|].
    intros [H|(d & Hd & _)]; [exact H|]. now apply not_elem_of_nil in Hd.
  - rewrite ParseMacrosFrom_cons in H. cbn zeta in H.
    destruct (macroIdentifierRegex (macroName d)) eqn:Hn; cbn [negb] in H;
      [|discriminate].
    assert (Hstep : forall v, 0 <= v < 2 ^ 63 ->
              ParseMacrosFrom (<[macroName d := v]> out) defs = (res, None) ->
              exists m, res = Some m /\ goodMacros m
                /\ forall name, is_Some (m !! name) <->
                     is_Some (out !! name)
                     \/ exists d0, d0 ∈ d :: defs /\ macroName d0 = name).
    { intros v Hv H'.
      destruct (IH _ _ (goodMacros_insert out _ v Hout Hn Hv) H')
        as (m & -> & Hm & Hdom).
      exists m. split; [reflexivity|]. split; [exact Hm|]. intros name.
      rewrite Hdom, lookup_insert_is_Some. split.
      - intros [[E|[_ Ho]]|(d0 & Hd0 & E)].
        + right. exists d. split; [left|exact E].
        + now left.
        + right. exists d0. split; [now right|exact E].
      - intros [Ho|(d0 & Hd0 & E)].
        + destruct (decide (macroName d = name)); auto.
        + apply elem_of_cons in Hd0 as [-> |Hd0]; [now left; left|].
          right. eauto. }
    destruct (String.eqb _ EmptyString); [apply (Hstep 1); [lia|exact H]|].
    destruct (parsableIntegerRegex _) eqn:Hr; cbn [negb] in H; [|discriminate].
    destruct (literal_value _ Hr) as (n & Hn0 & _ & Hv). rewrite Hv in H.
    destruct (Z.leb_spec (2 ^ 63) n); [discriminate|].
    apply (Hstep n); [lia|exact H].
Qed.

(** X15. What [ParseMacros] returns without an error: a map whose keys are
    exactly the names the definitions are about, each of them an
    identifier, and whose values are integers from 0 to 2^63-1. A negative
    value cannot be defined. *)
Theorem ParseMacros_sound (defs : list string) res :
  ParseMacros defs = (res, None) ->
  exists m, res = Some m
    /\ (forall name v, m !! name = Some v ->
          macroIdentifierRegex name = true /\ 0 <= v < 2 ^ 63)
    /\ forall name, is_Some (m !! name) <->
         exists d, d ∈ defs /\ macroName d = name.
Proof.
  intros H. unfold ParseMacros in H.
  destruct (ParseMacrosFrom_sound defs ∅ res) as (m & -> & Hm & Hdom); auto.
  { intros n v Hv. now rewrite lookup_empty in Hv. }
  exists m. split; [reflexivity|]. split; [exact Hm|]. intros name.
  rewrite Hdom. split; [|auto]. intros [Ho|Hd]; [|exact Hd].
  rewrite lookup_empty in Ho. now destruct Ho.
Qed.

Lemma ParseMacros_sound_witness :
  ParseMacros ["-DFOO"; "BAR=0x10"]
  = (Some (<["BAR" := 16]> (<["FOO" := 1]> ∅)), None)
  /\ exists m, Some (<["BAR" := 16]> (<["FOO" := 1]> (∅ : gmap string Z))) = Some m
       /\ (forall name v, m !! name = Some v ->
             macroIdentifierRegex name = true /\ 0 <= v < 2 ^ 63)
       /\ forall name, is_Some (m !! name) <->
            exists d, d ∈ ["-DFOO"; "BAR=0x10"] /\ macroName d = name.
Proof.
  split; [reflexivity|].
  apply (ParseMacros_sound ["-DFOO"; "BAR=0x10"]). reflexivity.
Defined.

Lemma ParseMacrosFrom_app defs1 defs2 : forall (out : gmap string Z),
  ParseMacrosFrom out (defs1 ++ defs2)
  = match ParseMacrosFrom out defs1 with
    | (Some m, None) => ParseMacrosFrom m defs2
    | r => r
    end.
Proof.
  induction defs1 as [|d defs1 IH]; intros out; [reflexivity|].
  rewrite <- app_comm_cons, !ParseMacrosFrom_cons. cbn zeta.
  destruct (negb (macroIdentifierRegex (macroName d))); [reflexivity|].
  destruct (String.eqb _ EmptyString); [apply IH|].
  destruct (negb (parsableIntegerRegex _)); [reflexivity|].
  destruct (parseIntLiteral _); [apply IH|reflexivity].
Qed.

(** ** Macro values and guard constants *)

Lemma isDigit_not_ident c :
  isDigit c = true -> isLetter c || (c =? "_")%char = false.
Proof.
  destruct c as [[|] [|] [|] [|] [|] [|] [|] [|]]; vm_compute; auto.
Qed.

Lemma literal_first_digit (raw : string) :
  parsableIntegerRegex raw = true ->
  exists c rest, raw = String c rest /\ isDigit c = true.
Proof.
  unfold parsableIntegerRegex. intros H.
  pose proof (spanLiteral_app (list_ascii_of_string raw)) as Happ.
  destruct (spanLiteral (list_ascii_of_string raw)) as [body suf].
  cbn [fst snd] in *. apply andb_true_iff in H as [Hb _].
  assert (Hd : exists c0 ds, body = c0 :: ds /\ isDigit c0 = true).
  { apply orb_true_iff in Hb as [Hb|Hb]; [apply orb_true_iff in Hb as [Hb|Hb]|].
    - destruct body as [|c0 [|c1 [|d ds]]]; try discriminate.
      unfold hexLiteral in Hb. apply andb_true_iff in Hb as [Hb _].
      apply andb_true_iff in Hb as [H0 _]. apply Ascii.eqb_eq in H0. subst.
      eexists _, _. split; reflexivity.
    - destruct body as [|c0 ds]; try discriminate.
      unfold octLiteral in Hb. apply andb_true_iff in Hb as [H0 _].
      apply Ascii.eqb_eq in H0. subst. eexists _, _. split; reflexivity.
    - destruct body as [|c0 ds]; try discriminate.
      unfold decLiteral in Hb. apply andb_true_iff in Hb as [Hb _].
      apply andb_true_iff in Hb as [H0 _]. eexists _, _. split; [reflexivity|exact H0]. }
  destruct Hd as (c0 & ds & -> & Hd). destruct raw as [|c rest]; [discriminate|].
  cbn in Happ. injection Happ as -> _. eauto.
Qed.

Lemma ParseMacrosFrom_value (out : gmap string Z) (name raw : string) v defs :
  macroIdentifierRegex name = true ->
  parsableIntegerRegex raw = true ->
  parseIntLiteral raw = Some v ->
  ParseMacrosFrom out ((name ++ "=" ++ raw) :: defs)
  = ParseMacrosFrom (<[name := v]> out) defs
  /\ macroIdentifierRegex raw = false.
Proof.
  intros Hn Hr Hv. destruct (literal_first_digit raw Hr) as (c & rest & -> & Hd).
  destruct (ident_chars name Hn) as [Hc _]. split.
  - rewrite ParseMacrosFrom_cons. unfold macroName.
    change (name ++ "=" ++ String c rest) with (name ++ String "=" (String c rest)).
    rewrite (ident_TrimPrefix_app name _ Hn), (cutAt_app name _ Hc).
    cbn zeta. rewrite Hn, Hr, Hv. reflexivity.
  - cbn [macroIdentifierRegex]. now rewrite (isDigit_not_ident c Hd).
Qed.

(** X30. Macro values and guard constants are read alike. A value that
    [ParseMacros] accepts in [NAME=value] is stored as the number that the
    expression parser reads the same text as ([interpretValue] takes it for
    a constant, not for a name), so a guard that compares [NAME] with that
    text holds under the macros returned. *)
Theorem macro_value_in_guard (name raw : string) (v : Z) :
  macroIdentifierRegex name = true ->
  parsableIntegerRegex raw = true ->
  parseIntLiteral raw = Some v ->
  ParseMacros [name ++ "=" ++ raw] = (Some (<[name := v]> ∅), None)
  /\ interpretValue raw = Ok (Constant v)
  /\ Eval (Cmp (mkCompare (Ident name) "==" (Constant v))) (<[name := v]> ∅)
     = Ok true.
Proof.
  intros Hn Hr Hv.
  destruct (ParseMacrosFrom_value ∅ name raw v [] Hn Hr Hv) as [Hp Hid].
  split; [exact Hp|]. split.
  - unfold interpretValue. now rewrite Hid, Hv.
  - cbn [Eval]. unfold Compare_Eval. cbn [Left Right Op Resolve fst].
    rewrite lookup_insert_eq. cbn [fst String.eqb Ascii.eqb Bool.eqb].
    now rewrite Z.eqb_refl.
Qed.

Lemma macro_value_in_guard_witness :
  macroIdentifierRegex "__GNUC__" = true
  /\ parsableIntegerRegex "017UL" = true
  /\ parseIntLiteral "017UL" = Some 15
  /\ ParseMacros ["__GNUC__" ++ "=" ++ "017UL"] = (Some (<["__GNUC__" := 15]> ∅), None)
  /\ interpretValue "017UL" = Ok (Constant 15)
  /\ Eval (Cmp (mkCompare (Ident "__GNUC__") "==" (Constant 15)))
          (<["__GNUC__" := 15]> ∅)
     = Ok true.
Proof.
  split; [reflexivity|]. split; [reflexivity|]. split; [reflexivity|].
  apply (macro_value_in_guard "__GNUC__" "017UL" 15); reflexivity.
Defined.

(** X16. [ParseMacros] works through the definitions from left to right
    and stops at the first one it rejects: the definitions after it are not
    examined, and what it returns is what it returns on the list cut after
    the rejected definition. After definitions that were all accepted, one
    more definition [NAME=value] with an accepted value sets [NAME] to that
    value in the map built so far, whether or not the name was defined
    before: the last definition of a name wins. *)
Theorem ParseMacros_first_error (defs1 defs2 : list string) :
  ParseMacros (defs1 ++ defs2)
  = match ParseMacros defs1 with
    | (Some m, None) => ParseMacrosFrom m defs2
    | r => r
    end
  /\ forall m name raw v,
       ParseMacros defs1 = (Some m, None) ->
       macroIdentifierRegex name = true ->
       parsableIntegerRegex raw = true ->
       parseIntLiteral raw = Some v ->
       ParseMacros (defs1 ++ [name ++ "=" ++ raw]) = (Some (<[name := v]> m), None).
Proof.
  split; [apply ParseMacrosFrom_app|].
  intros m name raw v H Hn Hr Hv. unfold ParseMacros in *.
  rewrite ParseMacrosFrom_app, H.
  now rewrite (proj1 (ParseMacrosFrom_value m name raw v [] Hn Hr Hv)).
Qed.

(** ** The tokenizer *)

Lemma scanWord_chars (s : string) :
  forallb (fun c => negb (isDelimiter c)) (list_ascii_of_string (scanWord s).1)
  = true.
Proof.
  induction s as [|c s IH]; [reflexivity|]. rewrite scanWord_cons.
  fold (isDelimiter c). destruct (isDelimiter c) eqn:D; [reflexivity|].
  destruct (scanWord s) as [w r]. simpl in *. now rewrite D, IH.
Qed.

Lemma scanWord_isWord c (rest : string) :
  isDelimiter c = false -> isWord (scanWord (String c rest)).1 = true.
Proof.
  intros D. unfold isWord. rewrite scanWord_chars, andb_true_r.
  rewrite scanWord_cons. fold (isDelimiter c). rewrite D.
  now destruct (scanWord rest).
Qed.

Lemma isToken_word t : isWord t = true -> isToken t = true.
Proof. unfold isToken. intros ->. now rewrite !orb_true_r. Qed.

Lemma tokenizer_token fuel : forall s tok rest,
  tokenizer fuel s = Some (Some (tok, rest)) -> isToken tok = true.
Proof.
  induction fuel as [|fuel IH]; intros s tok rest H; [discriminate|].
  destruct s as [|c s]; [discriminate|]. cbn [tokenizer] in H.
  destruct (isEOL c) eqn:D1; [injection H as <- _; reflexivity|].
  destruct (String.prefix "//" (String c s)); [exact (IH _ _ _ H)|].
  destruct (String.prefix "/*" (String c s)); [exact (IH _ _ _ H)|].
  destruct (isSpace c) eqn:D2; [exact (IH _ _ _ H)|].
  destruct (isParanthesis c) eqn:D3.
  { injection H as <- _. unfold isToken, isParenToken. rewrite D3.
    now rewrite orb_true_r. }
  destruct (isOperatorChar c) eqn:D4.
  { assert (Ho : forall t r,
              match s with
              | String "=" rest' => Some (Some (String c (String "=" EmptyString), rest'))
              | _ => Some (Some (String c EmptyString, s))
              end = Some (Some (t, r)) -> isOperatorToken t = true).
    { intros t r Ht. destruct s as [|c' s']; [injection Ht as <- _; exact D4|].
      destruct (Ascii.eqb_spec c' "=") as [->|Hne].
      - injection Ht as <- _. simpl. now rewrite D4.
      - assert (t = String c EmptyString) as ->; [|exact D4].
        destruct c' as [[|] [|] [|] [|] [|] [|] [|] [|]];
          try (injection Ht as <- _; reflexivity).
        now contradiction Hne. }
    unfold isToken. rewrite (Ho _ _ H). now rewrite !orb_true_r. }
  apply isToken_word.
  assert (D : isDelimiter c = false) by (unfold isDelimiter; now rewrite D1, D2, D3, D4).
  pose proof (scanWord_isWord c s D) as Hw.
  assert (Hs : scanWord (String c s) = (tok, rest)) by congruence.
  now rewrite Hs in Hw.
Qed.

Lemma readMore_spec s : exists s', readMore s = Loop s'.
Proof.
  unfold readMore. destruct (Read _ _) as [[bytes rest]|]; [|eauto].
  destruct (Nat.eqb (String.length bytes) 0); eauto.
Qed.

Lemma fill_no_token s tok s' : fill s <> Token tok s'.
Proof.
  unfold fill. cbv zeta.
  repeat match goal with
         | |- context [if ?c then _ else _] => destruct c
         end;
    try discriminate;
    match goal with
    | |- readMore ?x <> _ => destruct (readMore_spec x) as [s2 ->]; discriminate
    end.
Qed.

(** A token the scanner delivers is one the split function returned. *)
Lemma scanPass_token s tok s' :
  scanPass s = Token tok s' ->
  tokenizer (S (String.length (sc_data s))) (sc_data s)
  = Some (Some (tok, sc_data s')).
Proof.
  unfold scanPass.
  assert (Hno : forall s0, match sc_err s0 with
                           | Some _ => Done (mkScanner (sc_r s0) "" 0 (sc_len s0) (sc_err s0))
                           | None => fill s0
                           end <> Token tok s').
  { intros s0. destruct (sc_err s0); [discriminate|apply fill_no_token]. }
  destruct (Nat.ltb 0 (String.length (sc_data s)) || bool_decide (is_Some (sc_err s)));
    [|intros H; now apply Hno in H].
  destruct (tokenizer _ _) as [[[t rest]|]|]; [| |discriminate].
  - intros [= <- <-]. reflexivity.
  - destruct (bool_decide (is_Some (sc_err s))); [discriminate|].
    intros H. now apply Hno in H.
Qed.

Lemma scanTokens_tokens fuel : forall s toks e,
  scanTokens fuel s = Some (toks, e) -> forallb isToken toks = true.
Proof.
  induction fuel as [|fuel IH]; intros s toks e H; [discriminate|].
  cbn [scanTokens] in H.
  destruct (scanPass s) as [tok s'|s'|s'|] eqn:E; [| | |discriminate].
  - destruct (scanTokens fuel s') as [[toks' e']|] eqn:E'; [|discriminate].
    injection H as <- <-. cbn [forallb].
    now rewrite (tokenizer_token _ _ _ _ (scanPass_token _ _ _ E)), (IH _ _ _ E').
  - injection H as <- _. reflexivity.
  - exact (IH _ _ _ H).
Qed.

(** X17. The scanner comes to the end of every input without an error,
    whatever its length, and each token it delivers is one the split
    function returned on the data of the buffer: the end-of-line marker,
    one bracket, an operator of one byte or of one byte and [=], or a
    word, a non-empty run of bytes without white space, newline, bracket
    and operator byte. A word is never the end-of-line marker, so the
    marker cannot come from the text of the source. The tokens of an
    input are those of its pieces of [startBufSize] bytes, each piece
    tokenized as one buffer; an input that fits the scanner's first buffer
    is tokenized as one buffer. *)
Theorem tokenize_tokens (input : string) :
  (exists toks, scanInput input = Some (toks, None)
     /\ tokenize input = Some toks
     /\ forallb isToken toks = true
     /\ forall t, t ∈ toks -> isWord t = true -> t <> EOL)
  /\ (forall fuel tok rest,
        tokenizer fuel input = Some (Some (tok, rest)) -> isToken tok = true)
  /\ tokenize input = pieceTokens (S (String.length input)) input
  /\ ((String.length input <= startBufSize)%nat ->
      tokenize input = bufferTokens input).
Proof.
  split; [|split; [|split]].
  - destruct (scanInput_total input) as [toks H]. exists toks.
    split; [exact H|]. split; [unfold tokenize; now rewrite H|].
    split; [exact (scanTokens_tokens _ _ _ _ H)|].
    intros t _ Hw ->. discriminate Hw.
  - intros fuel tok rest. apply tokenizer_token.
  - apply tokenize_pieces.
  - apply tokenize_short.
Qed.

(** The scanner hands the split function one buffer of [startBufSize]
    bytes at a time, and the split function takes the end of the buffer
    for the end of a word or of a comment: a word that crosses it comes
    out as two tokens, and what follows a line comment that crosses it is
    tokenized as code. *)
Example scanner_cuts_at_buffer_end :
  tokenize (repeatByte 4090 "x" ++ " #include <a.h>")
  = Some [repeatByte 4090 "x"; "#incl"; "ude"; "<"; "a.h"; ">"]
  /\ tokenize ("//" ++ repeatByte 4094 "x" ++ "#include <a.h>" ++ nl)
     = Some ["#include"; "<"; "a.h"; ">"; EOL]
  /\ ParseSource ("//" ++ repeatByte 4094 "x" ++ "#include <a.h>" ++ nl)
     = Return (mkSourceInfo [mkInclude "a.h" true None] false) None.
Proof. repeat split; vm_compute; reflexivity. Qed.

Lemma skipLineComment_body (body rest : string) :
  noNewline body = true ->
  skipLineComment (body ++ String "010" rest) = String "010" rest
  /\ skipLineComment body = EmptyString.
Proof.
  unfold noNewline. induction body as [|c body IH]; intros H; [split; reflexivity|].
  simpl in H. apply andb_true_iff in H as [Hc H]. apply negb_true_iff in Hc.
  rewrite append_cons. cbn [skipLineComment]. rewrite Hc. auto.
Qed.

Lemma skipBlockComment_body (body rest : string) :
  hasClose body = false ->
  skipBlockComment (body ++ String "*" (String "/" rest)) = rest.
Proof.
  induction body as [|c body IH]; intros H; [reflexivity|].
  rewrite append_cons. destruct body as [|c2 body'].
  - change (skipBlockComment (String c (String "*" (String "/" rest))) = rest).
    rewrite skipBlockComment_cons2. rewrite andb_false_r.
    reflexivity.
  - cbn [hasClose] in H. apply orb_false_iff in H as [Hc H].
    rewrite append_cons, skipBlockComment_cons2, Hc.
    rewrite <- append_cons. exact (IH H).
Qed.

Lemma bufferTokens_skip (data data' : string) :
  (String.length data' < String.length data)%nat ->
  tokenizer (S (String.length data)) data
  = tokenizer (String.length data) data' ->
  bufferTokens data = bufferTokens data'.
Proof.
  intros Hlen H. rewrite (bufferTokens_step data), (bufferTokens_step data'), H.
  rewrite (tokenizer_fuel_irrelevant (String.length data)
             (S (String.length data')) data') by lia.
  reflexivity.
Qed.

Lemma tokenizer_line_comment fuel (s : string) :
  tokenizer (S fuel) ("//" ++ s) = tokenizer fuel (skipLineComment s).
Proof.
  change ("//" ++ s) with (String "/" (String "/" s)).
  cbn [tokenizer isEOL Ascii.eqb Bool.eqb String.prefix drop2].
  destruct (ascii_dec "/" "/") as [_|N]; [|now contradiction N].
  destruct s; reflexivity.
Qed.

Lemma tokenizer_block_comment fuel (s : string) :
  tokenizer (S fuel) ("/*" ++ s) = tokenizer fuel (skipBlockComment s).
Proof.
  change ("/*" ++ s) with (String "/" (String "*" s)).
  cbn [tokenizer isEOL Ascii.eqb Bool.eqb String.prefix drop2].
  destruct (ascii_dec "/" "/") as [_|N]; [|now contradiction N].
  destruct (ascii_dec "/" "*") as [E|_]; [discriminate E|].
  destruct (ascii_dec "*" "*") as [_|N]; [|now contradiction N].
  destruct s; reflexivity.
Qed.

Lemma skipBlockComment_open (s : string) c :
  hasClose (s ++ String c EmptyString) = false ->
  skipBlockComment (s ++ String c EmptyString) = String c EmptyString.
Proof.
  induction s as [|a s IH]; intros H; [reflexivity|].
  rewrite append_cons in *. destruct s as [|c2 s'].
  - change (hasClose (String a (String c EmptyString)) = false) in H.
    change (skipBlockComment (String a (String c EmptyString)) = String c EmptyString).
    cbn [hasClose] in H. rewrite orb_false_r in H.
    now rewrite skipBlockComment_cons2, H.
  - rewrite append_cons in *. cbn [hasClose] in H.
    apply orb_false_iff in H as [Hc H].
    rewrite skipBlockComment_cons2, Hc. rewrite <- append_cons. apply IH.
    exact H.
Qed.

Lemma bufferTokens_comments (line block rest : string) :
  noNewline line = true -> hasClose block = false ->
  bufferTokens ("//" ++ line ++ nl ++ rest) = bufferTokens (nl ++ rest)
  /\ bufferTokens ("//" ++ line) = Some []
  /\ bufferTokens ("/*" ++ block ++ "*/" ++ rest) = bufferTokens rest
  /\ forall c, hasClose (block ++ String c EmptyString) = false ->
       bufferTokens ("/*" ++ block ++ String c EmptyString)
       = bufferTokens (String c EmptyString).
Proof.
  intros Hl Hb. destruct (skipLineComment_body line rest Hl) as [E1 E2].
  split; [|split; [|split]].
  - apply bufferTokens_skip.
    + change ("//" ++ line ++ nl ++ rest)
        with (String "/" (String "/" (line ++ nl ++ rest))).
      cbn [String.length]. rewrite !String_length_app. lia.
    + rewrite tokenizer_line_comment.
      change (line ++ nl ++ rest) with (line ++ String "010" rest).
      now rewrite E1.
  - rewrite bufferTokens_step, tokenizer_line_comment, E2.
    change ("//" ++ line) with (String "/" (String "/" line)).
    reflexivity.
  - apply bufferTokens_skip.
    + change ("/*" ++ block ++ "*/" ++ rest)
        with (String "/" (String "*" (block ++ "*/" ++ rest))).
      cbn [String.length]. rewrite !String_length_app. lia.
    + rewrite tokenizer_block_comment.
      change (block ++ "*/" ++ rest) with (block ++ String "*" (String "/" rest)).
      now rewrite (skipBlockComment_body block rest Hb).
  - intros c Hc. apply bufferTokens_skip.
    + change ("/*" ++ block ++ String c EmptyString)
        with (String "/" (String "*" (block ++ String c EmptyString))).
      cbn [String.length]. rewrite !String_length_app. cbn [String.length]. lia.
    + rewrite tokenizer_block_comment.
      now rewrite (skipBlockComment_open block c Hc).
Qed.

(** X18. A comment that begins where a token may begin and lies, with
    what follows it, within the scanner's first buffer produces no token.
    A line comment is skipped up to the newline that ends it, which is
    still reported as end of line, or up to the end of the input; a block
    comment is skipped up to and including its first closing delimiter,
    newlines inside it included. A block comment that is never closed
    swallows the rest of the input except its last byte, which is
    tokenized as if it stood alone. *)
Theorem tokenize_comments (line block rest : string) :
  noNewline line = true -> hasClose block = false ->
  (String.length line + String.length block + String.length rest + 4
   <= startBufSize)%nat ->
  tokenize ("//" ++ line ++ nl ++ rest) = tokenize (nl ++ rest)
  /\ tokenize ("//" ++ line) = Some []
  /\ tokenize ("/*" ++ block ++ "*/" ++ rest) = tokenize rest
  /\ forall c, hasClose (block ++ String c EmptyString) = false ->
       tokenize ("/*" ++ block ++ String c EmptyString)
       = tokenize (String c EmptyString).
Proof.
  intros Hl Hb Hlen.
  destruct (bufferTokens_comments line block rest Hl Hb) as (B1 & B2 & B3 & B4).
  assert (L2 : forall s : string, String.length ("//" ++ s) = S (S (String.length s)))
    by reflexivity.
  assert (L3 : forall s : string, String.length ("/*" ++ s) = S (S (String.length s)))
    by reflexivity.
  assert (Lnl : String.length nl = 1%nat) by reflexivity.
  assert (Lcl : String.length "*/" = 2%nat) by reflexivity.
  split; [|split; [|split]].
  - rewrite !tokenize_short; [exact B1| |];
      rewrite ?L2, !String_length_app, Lnl; lia.
  - rewrite tokenize_short; [exact B2|]. rewrite L2. lia.
  - rewrite !tokenize_short; [exact B3| |];
      rewrite ?L3, ?String_length_app, ?Lcl; lia.
  - intros c Hc. rewrite !tokenize_short; [exact (B4 c Hc)| |].
    + cbn [String.length]. lia.
    + rewrite L3, String_length_app. cbn [String.length]. lia.
Qed.

Lemma tokenize_comments_witness :
  noNewline " see <a.h>" = true /\ hasClose (" a * b / c" ++ nl ++ "**") = false
  /\ tokenize ("//" ++ " see <a.h>" ++ nl ++ "#endif") = tokenize (nl ++ "#endif")
  /\ tokenize ("//" ++ " see <a.h>") = Some []
  /\ tokenize ("/*" ++ (" a * b / c" ++ nl ++ "**") ++ "*/" ++ "#endif")
     = tokenize "#endif"
  /\ forall c, hasClose ((" a * b / c" ++ nl ++ "**") ++ String c EmptyString) = false ->
       tokenize ("/*" ++ (" a * b / c" ++ nl ++ "**") ++ String c EmptyString)
       = tokenize (String c EmptyString).
Proof.
  split; [reflexivity|]. split; [reflexivity|].
  apply (tokenize_comments " see <a.h>" (" a * b / c" ++ nl ++ "**") "#endif");
    [reflexivity|reflexivity|].
  apply Nat.leb_le. vm_compute. reflexivity.
Defined.

(** ** The token reader *)

Lemma nextFrom_not_EOL toks t rest :
  nextFrom false toks = (Some t, rest) -> String.eqb t EOL = false.
Proof.
  induction toks as [|tok toks IH]; [discriminate|]. cbn [nextFrom].
  destruct (String.eqb tok EOL) eqn:E; cbn [negb andb]; [exact IH|].
  intros [= <- _]. exact E.
Qed.

(** X19. [next] never returns the end-of-line marker. On a reader whose
    look-ahead buffer does not hold the marker, [peek] returns the token
    that [next] returns on the same reader and consumes nothing: after it
    [next] gives what it would have given before, the same token and the
    same reader, and a second [peek] gives the same token again. *)
Theorem peek_then_next (r r' : tokenReader) (t : string) :
  buf r <> Some EOL -> peek r = (Some t, r') ->
  t <> EOL /\ (next r).1 = Some t /\ next r' = next r
  /\ peek r' = (Some t, r')
  /\ forall r0 t0 r1, next r0 = (Some t0, r1) -> t0 <> EOL.
Proof.
  intros Hb H.
  assert (Hnext : forall r0 t0 r1, next r0 = (Some t0, r1) -> t0 <> EOL).
  { intros r0 t0 r1. unfold next, nextInternal.
    destruct (nextFrom false (pending r0)) as [tok rest] eqn:E.
    intros [= -> _]. apply nextFrom_not_EOL in E. now apply String.eqb_neq. }
  unfold peek, peekInternal in H. destruct r as [sc [b|]]; cbn [buf] in *.
  - assert (Eb : String.eqb b EOL = false).
    { apply String.eqb_neq. congruence. }
    rewrite Eb in H. cbn [negb andb] in H. injection H as <- <-.
    split; [now apply String.eqb_neq|].
    split; [unfold next, nextInternal; cbn [pending buf scanner nextFrom];
            now rewrite Eb|].
    split; [reflexivity|].
    split; [|exact Hnext]. unfold peek, peekInternal. cbn [buf negb andb].
    now rewrite Eb.
  - unfold nextInternal in H. cbn [pending buf scanner] in H.
    destruct (nextFrom false sc) as [[tok|] rest] eqn:E; [|discriminate].
    cbn [scanner] in H. injection H as -> <-.
    pose proof (nextFrom_not_EOL _ _ _ E) as Et.
    split; [now apply String.eqb_neq|].
    split; [unfold next, nextInternal; cbn [pending buf scanner];
            now rewrite E|].
    split; [|split; [|exact Hnext]].
    + unfold next, nextInternal. cbn [pending buf scanner nextFrom].
      rewrite Et, E. reflexivity.
    + unfold peek, peekInternal. cbn [buf negb andb]. now rewrite Et.
Qed.

Lemma peek_then_next_witness :
  buf (newTokenReader [EOL; EOL; "#include"; "<"]) <> Some EOL
  /\ peek (newTokenReader [EOL; EOL; "#include"; "<"])
     = (Some "#include", mkReader ["<"] (Some "#include"))
  /\ "#include" <> EOL
  /\ (next (newTokenReader [EOL; EOL; "#include"; "<"])).1 = Some "#include"
  /\ next (mkReader ["<"] (Some "#include"))
     = next (newTokenReader [EOL; EOL; "#include"; "<"])
  /\ peek (mkReader ["<"] (Some "#include"))
     = (Some "#include", mkReader ["<"] (Some "#include"))
  /\ forall r0 t0 r1, next r0 = (Some t0, r1) -> t0 <> EOL.
Proof.
  split; [discriminate|]. split; [reflexivity|].
  apply (peek_then_next (newTokenReader [EOL; EOL; "#include"; "<"])
           (mkReader ["<"] (Some "#include")) "#include");
    [discriminate|reflexivity].
Defined.

(** ** The expression parser *)

Lemma exprOutcome_obind {S} (m : Out S Expr) (k : Expr -> S -> Out S Expr) :
  exprOutcome m ->
  (forall e s, wellFormed e = true -> exprOutcome (k e s)) ->
  exprOutcome (obind m k).
Proof. destruct m; simpl; auto. Qed.

Lemma abortOK_obind {S A} (m : Out S A) (k : A -> S -> Out S Expr) :
  abortOK m -> (forall a s, exprOutcome (k a s)) -> exprOutcome (obind m k).
Proof. destruct m; simpl; auto. Qed.

Lemma ts_next_abortOK ts : abortOK (ts_next ts).
Proof. unfold ts_next. now destruct (tokens ts !! idx ts). Qed.

Lemma ts_consume_abortOK s ts : abortOK (ts_consume s ts).
Proof. unfold ts_consume. now destruct (ts_peek s ts). Qed.

Lemma exprParser_sound fuel :
  (forall ts, exprOutcome (parseOr fuel ts))
  /\ (forall l ts, wellFormed l = true -> exprOutcome (parseOrLoop fuel l ts))
  /\ (forall ts, exprOutcome (parseAnd fuel ts))
  /\ (forall l ts, wellFormed l = true -> exprOutcome (parseAndLoop fuel l ts))
  /\ (forall ts, exprOutcome (parseUnary fuel ts)).
Proof.
  induction fuel as [|fuel (IHO & IHOL & IHA & IHAL & IHU)].
  { repeat split; intros; exact I. }
  repeat split.
  - intros ts. cbn [parseOr]. apply exprOutcome_obind; [apply IHA|].
    intros e s He. now apply IHOL.
  - intros l ts Hl. cbn [parseOrLoop].
    destruct (ts_peek "||" ts); [|exact Hl].
    apply exprOutcome_obind; [apply IHA|].
    intros e s He. apply IHOL. simpl. now rewrite Hl, He.
  - intros ts. cbn [parseAnd]. apply exprOutcome_obind; [apply IHU|].
    intros e s He. now apply IHAL.
  - intros l ts Hl. cbn [parseAndLoop].
    destruct (ts_peek "&&" ts); [|exact Hl].
    apply exprOutcome_obind; [apply IHU|].
    intros e s He. apply IHAL. simpl. now rewrite Hl, He.
  - intros ts. cbn [parseUnary].
    destruct (ts_peek "!" ts).
    { apply exprOutcome_obind; [apply IHU|]. intros e s He. exact He. }
    destruct (ts_peek "(" ts).
    { apply exprOutcome_obind; [apply IHO|]. intros e s He.
      apply abortOK_obind; [apply ts_consume_abortOK|]. intros _ s'. exact He. }
    destruct (ts_peek "defined" ts).
    { destruct (ts_peek "(" (advance ts)).
      - apply abortOK_obind; [apply ts_next_abortOK|]. intros name s.
        apply abortOK_obind; [apply ts_consume_abortOK|]. intros _ s'. reflexivity.
      - apply abortOK_obind; [apply ts_next_abortOK|]. intros name s. reflexivity. }
    apply abortOK_obind; [apply ts_next_abortOK|]. intros token ts1.
    destruct (tokens ts1 !! idx ts1) as [tok'|] eqn:Elook; [|reflexivity].
    destruct (isBinaryCompareOperator tok') eqn:Eop; [|reflexivity].
    unfold ts_next at 1. rewrite Elook. cbn [obind].
    destruct (interpretValue token) as [lValue|e|m] eqn:El; [|exact I|].
    + apply abortOK_obind; [apply ts_next_abortOK|]. intros rightToken ts3.
      destruct (interpretValue rightToken) as [rValue|e|m] eqn:Er;
        [exact Eop|exact I|].
      unfold interpretValue in Er. destruct (macroIdentifierRegex rightToken);
        [discriminate|]. destruct (parseIntLiteral rightToken); discriminate.
    + unfold interpretValue in El. destruct (macroIdentifierRegex token);
        [discriminate|]. destruct (parseIntLiteral token); discriminate.
Qed.

Lemma collect_no_abort fuel : forall acc r msg, collect fuel acc r <> Abort msg.
Proof.
  induction fuel as [|fuel IH]; intros acc r msg; [discriminate|].
  cbn [collect]. destruct (nextInternal true r) as [[token|] r1]; [|discriminate].
  destruct (String.eqb token "\").
  { destruct (peek r1) as [[next_|] r2]; [|apply IH].
    destruct (String.eqb next_ EOL); apply IH. }
  destruct (String.eqb token EOL); [discriminate|apply IH].
Qed.

Lemma parseExprFrom_sound (r : tokenReader) :
  match parseExprFrom r with
  | Ret e _ => wellFormed e = true
  | Raise _ _ => True
  | Abort msg => msg = "unexpected EOL in expression"
  | OutOfFuel => False
  end.
Proof.
  pose proof (parseExprFrom_settled r) as Hs. unfold parseExprFrom in *.
  destruct (collect (S (length (pending r))) [] r) as [toks r'| |msg|] eqn:Ec;
    cbn [obind] in *; try exact I; try contradiction.
  2: now apply collect_no_abort in Ec.
  destruct (exprParser_sound (exprFuel toks)) as (HO & _).
  specialize (HO (mkStream toks 0)).
  destruct (parseOr (exprFuel toks) (mkStream toks 0)) as [e ts| | |];
    simpl in *; try exact I; try contradiction; exact HO.
Qed.

(** X20. What the expression parser returns for the guard of an [#if] or
    [#elif] line: it never runs out of fuel; an expression it returns has
    one of the six comparison operators in each of its comparisons, so
    [Eval] returns a truth value for it under every macro set; and when
    the parser panics, the panic is that of [tokensStream.next] at the end
    of the line. *)
Theorem parseExpr_outcome (r : tokenReader) :
  match parseExprFrom r with
  | Ret e _ => wellFormed e = true /\ forall m, exists b, Eval e m = Ok b
  | Raise _ _ => True
  | Abort msg => msg = "unexpected EOL in expression"
  | OutOfFuel => False
  end.
Proof.
  pose proof (parseExprFrom_sound r) as H.
  destruct (parseExprFrom r) as [e r'| | |]; try exact H.
  split; [exact H|]. intros m. rewrite (Eval_wellFormed e m H). eauto.
Qed.

(** ** Invariants of the directive parser *)

Lemma extends_refl si : extends si si.
Proof. split; [exists []; now rewrite app_nil_r|auto]. Qed.

Lemma extends_trans si1 si2 si3 :
  extends si1 si2 -> extends si2 si3 -> extends si1 si3.
Proof.
  intros [[m1 E1] H1] [[m2 E2] H2]. split; [|auto].
  exists (m1 ++ m2)%list. now rewrite E2, E1, app_assoc.
Qed.

Lemma foldl_And_wf (c : Expr) cs :
  wellFormed c = true -> forallb wellFormed cs = true ->
  wellFormed (foldl And c cs) = true.
Proof.
  revert c. induction cs as [|x cs IH]; intros c Hc H; [exact Hc|].
  simpl in H. apply andb_true_iff in H as [Hx H]. simpl. apply IH; [|exact H].
  simpl. now rewrite Hc, Hx.
Qed.

Lemma foldl_Or_wf (c : Expr) cs :
  wellFormed c = true -> forallb wellFormed cs = true ->
  wellFormed (foldl Or c cs) = true.
Proof.
  revert c. induction cs as [|x cs IH]; intros c Hc H; [exact Hc|].
  simpl in H. apply andb_true_iff in H as [Hx H]. simpl. apply IH; [|exact H].
  simpl. now rewrite Hc, Hx.
Qed.

Lemma wfStacks_iff p :
  wfStacks p = true <->
  forallb wellFormed (conditionStack p) = true
  /\ forallb (forallb wellFormed) (exprGroupStack p) = true
  /\ conditionsWellFormed (sourceInfo p) = true.
Proof. unfold wfStacks. rewrite !andb_true_iff. tauto. Qed.

Lemma currentGuard_wf p :
  forallb wellFormed (conditionStack p) = true ->
  match currentGuard p with Some e => wellFormed e = true | None => True end.
Proof.
  unfold currentGuard. destruct (conditionStack p) as [|c cs]; [auto|].
  simpl. intros H. apply andb_true_iff in H as [Hc H]. now apply foldl_And_wf.
Qed.

Lemma appendInclude_ok p inc :
  wfStacks p = true ->
  match Condition inc with Some e => wellFormed e = true | None => True end ->
  wfStacks (appendInclude inc p) = true
  /\ extends (sourceInfo p) (sourceInfo (appendInclude inc p)).
Proof.
  intros Hw Hc. apply wfStacks_iff in Hw as (H1 & H2 & H3). split.
  - apply wfStacks_iff. cbn. split; [exact H1|]. split; [exact H2|].
    unfold conditionsWellFormed in *. cbn. rewrite forallb_app, H3. cbn.
    destruct (Condition inc); [now rewrite Hc|reflexivity].
  - split; [eexists; reflexivity|auto].
Qed.

Lemma handleInclude_ok p : wfStacks p = true -> stepOK p (handleInclude p).
Proof.
  intros Hw. unfold handleInclude.
  destruct (next (tr p)) as [[inc|] r]; [|reflexivity].
  assert (Hg : forall r0, match currentGuard (with_tr p r0) with
                          | Some e => wellFormed e = true
                          | None => True
                          end).
  { intros r0. apply currentGuard_wf. now apply wfStacks_iff in Hw as (H1 & _). }
  destruct (String.eqb inc "<").
  - cbn [tr with_tr]. destruct (next r) as [[inc2|] r2]; [|reflexivity].
    apply (appendInclude_ok (with_tr (with_tr p r) r2)); [exact Hw|apply Hg].
  - apply (appendInclude_ok (with_tr p r)); [exact Hw|apply Hg].
Qed.

Lemma parseIdent_form p :
  (exists t r, parseIdent p = Ret t (with_tr p r))
  \/ (exists e r, parseIdent p = Raise e (with_tr p r)).
Proof.
  unfold parseIdent. destruct (parseIdentFrom (pending (tr p))) as [[t|] rest]; eauto.
Qed.

Lemma parseExpr_form p :
  match parseExpr p with
  | Ret e p' => wellFormed e = true /\ exists r, p' = with_tr p r
  | Raise _ p' => exists r, p' = with_tr p r
  | Abort msg => msg = "unexpected EOL in expression"
  | OutOfFuel => False
  end.
Proof.
  unfold parseExpr. pose proof (parseExprFrom_sound (tr p)) as H.
  destruct (parseExprFrom (tr p)); eauto.
Qed.

Lemma push_ok p0 p e :
  wfStacks p0 = true -> wellFormed e = true ->
  conditionStack p = conditionStack p0 -> exprGroupStack p = exprGroupStack p0 ->
  sourceInfo p = sourceInfo p0 ->
  stepOK p0 (Ret tt (pushNewGroup e (pushCondition e p))).
Proof.
  intros Hw He Ec Eg Es. apply wfStacks_iff in Hw as (H1 & H2 & H3).
  split.
  - apply wfStacks_iff. cbn. rewrite Ec, Eg, Es, !forallb_app, H1, H2. cbn.
    rewrite He. auto.
  - cbn. rewrite Es. apply extends_refl.
Qed.

Lemma forallb_snoc {A} (f : A -> bool) l x :
  forallb f (l ++ [x]) = true <-> forallb f l = true /\ f x = true.
Proof. rewrite forallb_app. cbn. rewrite andb_true_r, andb_true_iff. tauto. Qed.

Lemma parseDirective_ok tok p :
  lockstep p = true -> wfStacks p = true -> stepOK p (parseDirective tok p).
Proof.
  intros Hl Hw. unfold parseDirective.
  destruct (String.eqb tok "#include"); [now apply handleInclude_ok|].
  destruct (String.eqb tok "#ifdef" || String.eqb tok "#ifndef").
  { unfold handleIfdef.
    destruct (parseIdent_form p) as [(t & r & ->)|(e & r & ->)]; cbn [obind];
      [|reflexivity].
    apply push_ok; auto. now destruct (String.eqb tok "#ifndef"). }
  destruct (String.eqb tok "#if").
  { unfold handleIf. pose proof (parseExpr_form p) as H.
    destruct (parseExpr p) as [e p'|e p'|msg|]; cbn [obind].
    - destruct H as [He [r ->]]. apply push_ok; auto.
    - destruct H as [r ->]. reflexivity.
    - exact H.
    - exact I. }
  pose proof Hw as Hw'. apply wfStacks_iff in Hw' as (H1 & H2 & H3).
  destruct (lockstep_cases p Hl) as [[Hc Hg]|(cs & c & gs & g0 & g & Hc & Hg)].
  - assert (Hpop : popCondition p = (false, p))
      by (unfold popCondition; now rewrite Hc).
    assert (Hcur : currentGroup p = None)
      by (unfold currentGroup; now rewrite Hg).
    assert (Hpg : popGroup p = (false, p))
      by (unfold popGroup; now rewrite Hg).
    assert (Hsame : stepOK p (Ret tt p)) by (split; [exact Hw|apply extends_refl]).
    destruct (String.eqb tok "#else").
    { unfold handleElse. now rewrite Hcur, Hpop. }
    destruct (String.eqb tok "#elif" || String.eqb tok "#elifdef"
              || String.eqb tok "#elifndef").
    { unfold handleElif. now rewrite Hcur, Hpop. }
    destruct (String.eqb tok "#endif").
    { rewrite Hpop. cbn [snd]. now rewrite Hpg. }
    exact Hsame.
  - rewrite Hc in H1. rewrite Hg in H2.
    apply forallb_snoc in H1 as [Hcs Hc0]. apply forallb_snoc in H2 as [Hgs Hg0].
    cbn [forallb] in Hg0. apply andb_true_iff in Hg0 as [Hg00 Hg0].
    pose proof (foldl_Or_wf g0 g Hg00 Hg0) as Hor.
    destruct (String.eqb tok "#else").
    { rewrite (handleElse_spec p cs c gs g0 g Hc Hg). split.
      - apply wfStacks_iff. cbn [conditionStack exprGroupStack sourceInfo].
        split; [apply forallb_snoc; auto|]. split; [|exact H3].
        apply forallb_snoc. split; [exact Hgs|]. cbn [forallb]. rewrite Hg00.
        apply forallb_snoc. auto.
      - apply extends_refl. }
    destruct (String.eqb tok "#elif" || String.eqb tok "#elifdef"
              || String.eqb tok "#elifndef").
    { unfold handleElif.
      rewrite (currentGroup_snoc _ _ _ Hg), (popCondition_snoc _ _ _ Hc).
      set (p0 := with_conditionStack p cs).
      assert (Hfin : forall e r, wellFormed e = true ->
                stepOK p
                  (obind (liftRes (orAll (g0 :: g)) (with_tr p0 r))
                     (fun disj p3 =>
                        obind (liftRes (appendToCurrentGroup e
                                          (pushCondition (And e (Not disj)) p3)) p3)
                              (fun p4 _ => Ret tt p4)))).
      { intros e r He. cbn [orAll liftRes obind].
        erewrite appendToCurrentGroup_snoc by (simpl; exact Hg).
        cbn [liftRes obind]. split.
        - apply wfStacks_iff.
          cbn [conditionStack exprGroupStack sourceInfo pushCondition
               with_conditionStack with_exprGroupStack with_tr p0].
          split; [apply forallb_snoc; split; [exact Hcs|]; simpl;
                  now rewrite He, Hor|].
          split; [|exact H3].
          apply forallb_snoc. split; [exact Hgs|].
          change (forallb wellFormed ((g0 :: g) ++ [e]) = true).
          apply forallb_snoc. split; [|exact He]. cbn [forallb].
          now rewrite Hg00, Hg0.
        - apply extends_refl. }
      destruct (String.eqb tok "#elif").
      - pose proof (parseExpr_form p0) as H.
        destruct (parseExpr p0) as [e p'|e p'|msg|]; cbn [obind].
        + destruct H as [He [r ->]]. now apply Hfin.
        + destruct H as [r ->]. reflexivity.
        + exact H.
        + exact I.
      - destruct (parseIdent_form p0) as [(t & r & ->)|(e & r & ->)]; cbn [obind];
          [|reflexivity].
        apply Hfin. now destruct (String.eqb tok "#elifndef"). }
    destruct (String.eqb tok "#endif").
    { rewrite (popCondition_snoc _ _ _ Hc). cbn [snd].
      erewrite popGroup_snoc by (simpl; exact Hg). cbn [snd]. split.
      - apply wfStacks_iff. cbn. auto.
      - apply extends_refl. }
    split; [exact Hw|apply extends_refl].
Qed.

Lemma loopBody_ok p :
  lockstep p = true -> wfStacks p = true -> loopOK p (loopBody p).
Proof.
  intros Hl Hw. pose proof (loopBody_progress p) as Hprog.
  pose proof (loopBody_shape p) as Hshape.
  destruct (loopBody p) as [p'|si err|msg|] eqn:E; cbn [loopOK];
    [| | |exact Hprog].
  - (* Continue *)
    split; [exact (shape_lockstep p p' Hl (Hshape p' Hl eq_refl))|].
    clear Hprog Hshape. unfold loopBody in E.
    destruct (next (tr p)) as [[tok|] r]; [|discriminate].
    set (p1 := with_lastToken (with_tr p r) tok) in *.
    destruct (String.prefix "#" tok).
    + pose proof (parseDirective_ok tok p1 Hl Hw) as H.
      destruct (parseDirective tok p1) as [[] p2| | |]; try discriminate.
      injection E as <-. exact H.
    + destruct (String.eqb tok "main").
      * destruct (next (tr p1)) as [[a|] r2].
        -- destruct (String.eqb a "(" && String.eqb (lastToken p) "int");
             injection E as <-; (split; [exact Hw|]).
           ++ split; [exists []; cbn; now rewrite app_nil_r|reflexivity].
           ++ apply extends_refl.
        -- injection E as <-. split; [exact Hw|apply extends_refl].
      * injection E as <-. split; [exact Hw|apply extends_refl].
  - (* Return *)
    clear Hprog Hshape. unfold loopBody in E.
    apply wfStacks_iff in Hw as Hw'. destruct Hw' as (_ & _ & H3).
    destruct (next (tr p)) as [[tok|] r].
    2: { injection E as <- _. split; [apply extends_refl|exact H3]. }
    set (p1 := with_lastToken (with_tr p r) tok) in *.
    destruct (String.prefix "#" tok).
    + pose proof (parseDirective_ok tok p1 Hl Hw) as H.
      destruct (parseDirective tok p1) as [[] p2|e p2| |]; try discriminate.
      injection E as <- _. cbn [stepOK] in H. rewrite H.
      split; [apply extends_refl|exact H3].
    + destruct (String.eqb tok "main"); [|discriminate].
      destruct (next (tr p1)) as [[a|] r2]; [|discriminate].
      destruct (String.eqb a "(" && String.eqb (lastToken p) "int"); discriminate.
  - (* Crash *)
    clear Hprog Hshape. unfold loopBody in E.
    destruct (next (tr p)) as [[tok|] r]; [|discriminate].
    set (p1 := with_lastToken (with_tr p r) tok) in *.
    destruct (String.prefix "#" tok).
    + pose proof (parseDirective_ok tok p1 Hl Hw) as H.
      destruct (parseDirective tok p1) as [[] p2|e p2|m|]; try discriminate.
      injection E as <-. exact H.
    + destruct (String.eqb tok "main"); [|discriminate].
      destruct (next (tr p1)) as [[a|] r2]; [|discriminate].
      destruct (String.eqb a "(" && String.eqb (lastToken p) "int"); discriminate.
Qed.

Lemma loopOK_trans p p' r :
  extends (sourceInfo p) (sourceInfo p') -> loopOK p' r ->
  match r with Continue _ => True | _ => loopOK p r end.
Proof.
  intros He. destruct r as [q|si err|msg|]; cbn; auto.
  intros [H1 H2]. split; [eapply extends_trans; eauto|exact H2].
Qed.

Lemma parseLoop_ok fuel : forall p,
  lockstep p = true -> wfStacks p = true -> (pplen p < fuel)%nat ->
  match parseLoop fuel p with
  | Continue _ => False
  | r => loopOK p r
  end.
Proof.
  induction fuel as [|fuel IH]; intros p Hl Hw Hf; [lia|].
  cbn [parseLoop]. pose proof (loopBody_ok p Hl Hw) as H.
  pose proof (loopBody_progress p) as Hprog.
  destruct (loopBody p) as [p'|si err|msg|]; try exact H.
  destruct H as (Hl' & Hw' & He).
  specialize (IH p' Hl' Hw' ltac:(lia)).
  pose proof (loopOK_trans p p' (parseLoop fuel p') He) as Ht.
  destruct (parseLoop fuel p') as [q|si err|msg|]; auto.
Qed.

Lemma newParser_ok toks :
  lockstep (newParser toks) = true /\ wfStacks (newParser toks) = true
  /\ (pplen (newParser toks) < S (length toks))%nat.
Proof. repeat split. unfold pplen, plen. cbn. lia. Qed.

Lemma parse_ok toks :
  match parse toks with
  | Continue _ => False
  | r => loopOK (newParser toks) r
  end.
Proof.
  unfold parse. destruct (newParser_ok toks) as (Hl & Hw & Hf).
  exact (parseLoop_ok _ _ Hl Hw Hf).
Qed.

(** X21. The two ways [parse] can end. On every sequence of tokens, and
    so on the tokens of every input, it either returns, with or without
    an error, a [SourceInfo] in which every include condition uses the
    six comparison operators only, or it panics with the message of
    [tokensStream.next]. The panics of [orAll] on an empty list and of
    [appendToCurrentGroup] on an empty group stack cannot happen, and the
    loop always terminates. *)
Theorem parse_outcomes (toks : list string) :
  (exists si err, parse toks = Return si err
                  /\ conditionsWellFormed si = true)
  \/ parse toks = Crash "unexpected EOL in expression".
Proof.
  pose proof (parse_ok toks) as H.
  destruct (parse toks) as [p|si err|msg|]; try contradiction.
  - left. exists si, err. split; [reflexivity|]. exact (proj2 H).
  - right. cbn in H. now subst msg.
Qed.

Lemma stateAfter_ok n : forall p,
  lockstep p = true -> wfStacks p = true ->
  lockstep (stateAfter n p) = true /\ wfStacks (stateAfter n p) = true
  /\ extends (sourceInfo p) (sourceInfo (stateAfter n p)).
Proof.
  induction n as [|n IH]; intros p Hl Hw; cbn [stateAfter].
  - split; [exact Hl|]. split; [exact Hw|apply extends_refl].
  - pose proof (loopBody_ok p Hl Hw) as H.
    destruct (loopBody p) as [p'| | |].
    + destruct H as (Hl' & Hw' & He). destruct (IH p' Hl' Hw') as (A & B & C).
      split; [exact A|]. split; [exact B|]. eapply extends_trans; eauto.
    + split; [exact Hl|]. split; [exact Hw|apply extends_refl].
    + split; [exact Hl|]. split; [exact Hw|apply extends_refl].
    + contradiction.
Qed.

Lemma parseLoop_return fuel : forall p si err,
  lockstep p = true -> wfStacks p = true ->
  parseLoop fuel p = Return si err ->
  extends (sourceInfo p) si.
Proof.
  induction fuel as [|fuel IH]; intros p si err Hl Hw H; [discriminate|].
  cbn [parseLoop] in H. pose proof (loopBody_ok p Hl Hw) as Hb.
  destruct (loopBody p) as [p'|si' err'|msg|]; try discriminate.
  - destruct Hb as (Hl' & Hw' & He). eapply extends_trans; [exact He|].
    exact (IH p' si err Hl' Hw' H).
  - injection H as <- <-. exact (proj1 Hb).
Qed.

Lemma parseLoop_stateAfter n : forall fuel p si err,
  parseLoop fuel p = Return si err ->
  exists fuel', parseLoop fuel' (stateAfter n p) = Return si err.
Proof.
  induction n as [|n IH]; intros fuel p si err H; cbn [stateAfter]; [eauto|].
  destruct fuel as [|fuel]; [discriminate|]. cbn [parseLoop] in H.
  destruct (loopBody p) as [p'|si' err'|msg|] eqn:E.
  - exact (IH fuel p' si err H).
  - exists 1%nat. cbn [parseLoop]. now rewrite E.
  - discriminate.
  - discriminate.
Qed.

Lemma parse_extends (toks : list string) (n : nat) si err :
  parse toks = Return si err ->
  extends (sourceInfo (stateAfter n (newParser toks))) si.
Proof.
  unfold parse. intros H.
  destruct (newParser_ok toks) as (Hl & Hw & _).
  destruct (stateAfter_ok n _ Hl Hw) as (Hl' & Hw' & _).
  destruct (parseLoop_stateAfter n _ _ _ _ H) as [fuel' H'].
  exact (parseLoop_return fuel' _ si err Hl' Hw' H').
Qed.

(** X22. The parser never takes back what it has recorded. On every
    sequence of tokens, whatever [parse] returns, with or without an
    error, has the includes of every state the main loop went through, in
    the same order and at the front, so includes come out in source
    order; and [HasMain], once set, stays set. *)
Theorem parse_never_retracts (toks : list string) (n : nat) si err :
  parse toks = Return si err ->
  (exists more,
     Includes si
     = (Includes (sourceInfo (stateAfter n (newParser toks))) ++ more)%list)
  /\ (HasMain (sourceInfo (stateAfter n (newParser toks))) = true ->
      HasMain si = true).
Proof. exact (parse_extends toks n si err). Qed.

Lemma parse_never_retracts_witness :
  let toks := ["#include"; "<"; "a.h"; ">"; EOL; "int"; "main"; "("; ")"; "{"; "}";
               EOL; "#if"; "("; "A"; EOL] in
  parse toks
  = Return (mkSourceInfo [mkInclude "a.h" true None] true)
           (Some "expected ), got <EOF>")
  /\ (exists more,
        Includes (mkSourceInfo [mkInclude "a.h" true None] true)
        = (Includes (sourceInfo (stateAfter 1 (newParser toks))) ++ more)%list)
  /\ (HasMain (sourceInfo (stateAfter 1 (newParser toks))) = true ->
      HasMain (mkSourceInfo [mkInclude "a.h" true None] true) = true).
Proof.
  intros toks. split; [vm_compute; reflexivity|].
  apply (parse_never_retracts toks 1
           (mkSourceInfo [mkInclude "a.h" true None] true)
           (Some "expected ), got <EOF>")).
  vm_compute. reflexivity.
Defined.

(** X23. The parser and the solver fit together: for every include of a
    [SourceInfo] that [parse] returns, on whatever sequence of tokens,
    [PlatformsForExpr] returns on every platform table, without panic; it
    returns the nil slice for the unconditional includes and for no
    other. *)
Theorem parsed_conditions_solvable Values (M : gmap Platform (gmap string Z))
    (toks : list string) si err inc :
  ValuesSpec Values ->
  parse toks = Return si err ->
  inc ∈ Includes si ->
  exists res, PlatformsForExpr Values (Condition inc) M = Ok res
    /\ (res = None <-> Condition inc = None).
Proof.
  intros HV H Hin. pose proof (parse_ok toks) as Hok.
  rewrite H in Hok. destruct Hok as [_ Hwf].
  unfold conditionsWellFormed in Hwf. rewrite forallb_forall in Hwf.
  specialize (Hwf inc (proj1 (list_elem_of_In _ _) Hin)).
  destruct (Condition inc) as [e|].
  - destruct (PlatformsForExpr_spec Values e M HV Hwf) as (l & -> & _).
    eexists. split; [reflexivity|]. split; discriminate.
  - eexists. split; [reflexivity|]. tauto.
Qed.

Lemma parsed_conditions_solvable_witness :
  let toks := ["#if"; "defined"; "("; "_WIN32"; ")"; "&&"; "!"; "X"; EOL;
               "#include"; "<"; "w.h"; ">"; EOL; "#endif"; EOL] in
  let inc := mkInclude "w.h" true
               (Some (And (Defined "_WIN32")
                          (Not (Cmp (mkCompare (Ident "X") "!=" (Constant 0)))))) in
  ValuesSpec ValuesNonNil
  /\ parse toks = Return (mkSourceInfo [inc] false) None
  /\ inc ∈ Includes (mkSourceInfo [inc] false)
  /\ exists res, PlatformsForExpr ValuesNonNil (Condition inc) KnownPlatformMacros
                 = Ok res
       /\ (res = None <-> Condition inc = None).
Proof.
  intros toks inc.
  assert (H1 : parse toks = Return (mkSourceInfo [inc] false) None)
    by (vm_compute; reflexivity).
  assert (H2 : inc ∈ Includes (mkSourceInfo [inc] false)) by (left).
  split; [exact ValuesNonNil_spec|].
  split; [exact H1|]. split; [exact H2|].
  apply (parsed_conditions_solvable ValuesNonNil KnownPlatformMacros toks
           (mkSourceInfo [inc] false) None inc ValuesNonNil_spec H1 H2).
Defined.

(** ** Atoms of a guard *)

(** X24. A guard that is one bare token is read as the comparison of the
    macro of that name with 0, whatever the token is: it is true exactly
    under the macro sets that give the name a non-zero value. The token is
    not checked to be an identifier, so for an integer literal such as 1
    the guard is false under every macro set [ParseMacros] can return. *)
Theorem bare_token_guard (tok : string) :
  tok <> "!" -> tok <> "(" -> tok <> "defined" ->
  parseOr (exprFuel [tok]) (mkStream [tok] 0)
  = Ret (Cmp (mkCompare (Ident tok) "!=" (Constant 0))) (mkStream [tok] 1)
  /\ (forall m : gmap string Z,
        Eval (Cmp (mkCompare (Ident tok) "!=" (Constant 0))) m
        = Ok (match m !! tok with Some v => negb (v =? 0) | None => false end))
  /\ (macroIdentifierRegex tok = false ->
      forall m : gmap string Z, goodMacros m ->
        Eval (Cmp (mkCompare (Ident tok) "!=" (Constant 0))) m = Ok false).
Proof.
  intros H1 H2 H3. apply String.eqb_neq in H1, H2, H3.
  assert (HE : forall m : gmap string Z,
            Eval (Cmp (mkCompare (Ident tok) "!=" (Constant 0))) m
            = Ok (match m !! tok with Some v => negb (v =? 0) | None => false end)).
  { intros m. simpl. unfold Compare_Eval. simpl. now destruct (m !! tok). }
  split; [|split; [exact HE|]].
  - change (exprFuel [tok]) with 6%nat.
    cbn [parseOr parseAnd parseUnary obind].
    unfold ts_peek at 1. cbn [tokens idx lookup list_lookup]. rewrite H1.
    unfold ts_peek at 1. cbn [tokens idx lookup list_lookup]. rewrite H2.
    unfold ts_peek at 1. cbn [tokens idx lookup list_lookup]. rewrite H3.
    reflexivity.
  - intros Hid m Hm. rewrite HE. destruct (m !! tok) as [v|] eqn:E; [|reflexivity].
    destruct (Hm tok v E) as [Hr _]. congruence.
Qed.

Lemma bare_token_guard_witness :
  "1" <> "!" /\ "1" <> "(" /\ "1" <> "defined"
  /\ parseOr (exprFuel ["1"]) (mkStream ["1"] 0)
     = Ret (Cmp (mkCompare (Ident "1") "!=" (Constant 0))) (mkStream ["1"] 1)
  /\ (forall m : gmap string Z,
        Eval (Cmp (mkCompare (Ident "1") "!=" (Constant 0))) m
        = Ok (match m !! "1" with Some v => negb (v =? 0) | None => false end))
  /\ (macroIdentifierRegex "1" = false ->
      forall m : gmap string Z, goodMacros m ->
        Eval (Cmp (mkCompare (Ident "1") "!=" (Constant 0))) m = Ok false).
Proof.
  split; [discriminate|]. split; [discriminate|]. split; [discriminate|].
  apply (bare_token_guard "1"); discriminate.
Defined.

(** X25. The two spellings of the [defined] operator give the same
    expression: [defined NAME] and [defined(NAME)] both parse to
    [Defined NAME], whatever token stands for the name. *)
Theorem defined_spellings (name : string) :
  name <> "(" ->
  parseOr (exprFuel ["defined"; name]) (mkStream ["defined"; name] 0)
  = Ret (Defined name) (mkStream ["defined"; name] 2)
  /\ parseOr (exprFuel ["defined"; "("; name; ")"])
       (mkStream ["defined"; "("; name; ")"] 0)
     = Ret (Defined name) (mkStream ["defined"; "("; name; ")"] 4).
Proof.
  intros H. apply String.eqb_neq in H. split.
  - change (exprFuel ["defined"; name]) with 9%nat.
    cbn [parseOr parseAnd parseUnary obind].
    unfold ts_peek at 1. cbn [tokens idx lookup list_lookup String.eqb Ascii.eqb Bool.eqb].
    unfold ts_peek at 1. cbn [tokens idx lookup list_lookup String.eqb Ascii.eqb Bool.eqb].
    unfold ts_peek at 1. cbn [tokens idx lookup list_lookup String.eqb Ascii.eqb Bool.eqb].
    unfold ts_peek at 1.
    cbn [tokens idx lookup list_lookup advance]. rewrite H.
    reflexivity.
  - reflexivity.
Qed.

Lemma defined_spellings_witness :
  "_WIN32" <> "("
  /\ parseOr (exprFuel ["defined"; "_WIN32"]) (mkStream ["defined"; "_WIN32"] 0)
     = Ret (Defined "_WIN32") (mkStream ["defined"; "_WIN32"] 2)
  /\ parseOr (exprFuel ["defined"; "("; "_WIN32"; ")"])
       (mkStream ["defined"; "("; "_WIN32"; ")"] 0)
     = Ret (Defined "_WIN32") (mkStream ["defined"; "("; "_WIN32"; ")"] 4).
Proof.
  split; [discriminate|]. apply (defined_spellings "_WIN32"). discriminate.
Defined.

(** ** The branches of a conditional block *)





(** ** The directives of a BUILD file *)

Lemma selectDirectiveChoice_spec target options d :
  config.selectDirectiveChoice target options d
  = if Contains options (config.Value d)
    then (config.Value d, false) else (target, true).
Proof.
  unfold config.selectDirectiveChoice, Contains.
  induction options as [|o options IH]; [reflexivity|]. cbn [find existsb].
  rewrite (String.eqb_sym (config.Value d) o).
  destruct (String.eqb_spec o (config.Value d)) as [->|Hne]; [reflexivity|].
  exact IH.
Qed.

Lemma applyDirective_spec conf log d :
  config.applyDirective (conf, log) d
  = (config.mkConfig
       (if String.eqb (config.Key d) config.cc_group_directive
           && Contains config.sourceGroupingModes (config.Value d)
        then config.Value d else config.groupingMode conf)
       (if String.eqb (config.Key d) config.cc_group_unit_cycles
           && Contains config.groupsCycleHandlingModes (config.Value d)
        then config.Value d else config.groupsCycleHandlingMode conf),
     (log ++ rejected [d])%list).
Proof.
  unfold config.applyDirective, rejected. rewrite !selectDirectiveChoice_spec.
  destruct (String.eqb_spec (config.Key d) config.cc_group_directive) as [E|N1].
  - assert (E2 : String.eqb (config.Key d) config.cc_group_unit_cycles = false)
      by (rewrite E; reflexivity).
    rewrite E2. cbn [andb].
    destruct (Contains config.sourceGroupingModes (config.Value d)) eqn:C.
    + rewrite filter_cons_False, filter_nil, app_nil_r; [now destruct conf|].
      intros [[_ ?]|[? _]]; congruence.
    + rewrite filter_cons_True; [now destruct conf|]. left. split; auto.
      apply String.eqb_eq. exact E.
  - cbn [andb].
    destruct (String.eqb (config.Key d) config.cc_group_unit_cycles) eqn:E2.
    + cbn [andb].
      destruct (Contains config.groupsCycleHandlingModes (config.Value d)) eqn:C.
      * rewrite filter_cons_False, filter_nil, app_nil_r; [now destruct conf|].
        apply String.eqb_neq in N1. intros [[? _]|[_ ?]]; congruence.
      * rewrite filter_cons_True; [now destruct conf|]. right. auto.
    + rewrite filter_cons_False, filter_nil, app_nil_r; [now destruct conf|].
      apply String.eqb_neq in N1. intros [[? _]|[? _]]; congruence.
Qed.

Lemma validValues_snoc key options ds d :
  validValues key options (ds ++ [d])
  = (validValues key options ds
     ++ if String.eqb (config.Key d) key && Contains options (config.Value d)
        then [config.Value d] else [])%list.
Proof.
  unfold validValues. rewrite filter_app, map_app. f_equal.
  destruct (String.eqb (config.Key d) key) eqn:E1; cbn [andb].
  - destruct (Contains options (config.Value d)) eqn:E2.
    + now rewrite filter_cons_True.
    + rewrite filter_cons_False; [reflexivity|]. intros [_ ?]. congruence.
  - rewrite filter_cons_False; [reflexivity|]. intros [? _]. congruence.
Qed.

Lemma Configure_fold conf ds :
  foldl config.applyDirective (conf, []) ds
  = (config.mkConfig
       (default (config.groupingMode conf)
          (last (validValues config.cc_group_directive
                   config.sourceGroupingModes ds)))
       (default (config.groupsCycleHandlingMode conf)
          (last (validValues config.cc_group_unit_cycles
                   config.groupsCycleHandlingModes ds))),
     rejected ds).
Proof.
  induction ds as [|d ds IH] using rev_ind; [now destruct conf|].
  rewrite foldl_snoc, IH, applyDirective_spec, !validValues_snoc.
  unfold rejected at 3. rewrite filter_app. fold (rejected ds). fold (rejected [d]).
  f_equal. cbn [config.groupingMode config.groupsCycleHandlingMode]. f_equal.
  - destruct (String.eqb (config.Key d) config.cc_group_directive
              && Contains config.sourceGroupingModes (config.Value d)).
    + now rewrite last_snoc.
    + now rewrite app_nil_r.
  - destruct (String.eqb (config.Key d) config.cc_group_unit_cycles
              && Contains config.groupsCycleHandlingModes (config.Value d)).
    + now rewrite last_snoc.
    + now rewrite app_nil_r.
Qed.

Lemma validValues_last key options ds v :
  last (validValues key options ds) = Some v -> Contains options v = true.
Proof.
  intros H. apply last_Some_elem_of in H. unfold validValues in H.
  apply list_elem_of_fmap in H as (d & -> & Hd).
  apply list_elem_of_filter in Hd as [[_ Hc] _]. exact Hc.
Qed.

(** X27. What [Configure] computes from the directives of a BUILD file:
    each of the two modes is the value of the last directive of its key
    whose value is one of the known choices, and the inherited mode when
    there is none; the warnings logged are those for the directives of a
    known key with any other value, which change nothing; directives of
    other keys are ignored. A configuration with known modes therefore
    stays one, and without a file the inherited configuration is kept. *)
Theorem Configure_directives (parentConf : option config.cppConfig)
    (ds : list config.Directive) :
  let inherited := match parentConf with
                   | None => config.newCppConfig
                   | Some parent => parent
                   end in
  config.groupingMode (config.Configure parentConf (Some ds)).1
  = default (config.groupingMode inherited)
      (last (validValues config.cc_group_directive config.sourceGroupingModes ds))
  /\ config.groupsCycleHandlingMode (config.Configure parentConf (Some ds)).1
     = default (config.groupsCycleHandlingMode inherited)
         (last (validValues config.cc_group_unit_cycles
                  config.groupsCycleHandlingModes ds))
  /\ (config.Configure parentConf (Some ds)).2 = rejected ds
  /\ (validConfig inherited = true ->
      validConfig (config.Configure parentConf (Some ds)).1 = true)
  /\ config.Configure parentConf None = (inherited, [])
  /\ validConfig config.newCppConfig = true.
Proof.
  intros inherited. unfold config.Configure. fold inherited.
  rewrite Configure_fold. cbn [fst snd config.groupingMode
                                config.groupsCycleHandlingMode].
  repeat split.
  intros Hv. unfold validConfig in *. apply andb_true_iff in Hv as [H1 H2].
  cbn [config.groupingMode config.groupsCycleHandlingMode].
  apply andb_true_iff. split.
  - destruct (last (validValues config.cc_group_directive _ ds)) as [v|] eqn:E;
      [exact (validValues_last _ _ _ _ E)|exact H1].
  - destruct (last (validValues config.cc_group_unit_cycles _ ds)) as [v|] eqn:E;
      [exact (validValues_last _ _ _ _ E)|exact H2].
Qed.

(** ** Guards continued over several lines *)

Lemma collect_pending fuel acc r1 r2 :
  pending r1 = pending r2 -> collect fuel acc r1 = collect fuel acc r2.
Proof.
  intros H. destruct fuel as [|fuel]; [reflexivity|]. cbn [collect].
  unfold nextInternal. now rewrite H.
Qed.

Lemma collect_fuel_irrelevant f1 : forall f2 acc r,
  (plen r < f1)%nat -> (plen r < f2)%nat ->
  collect f1 acc r = collect f2 acc r.
Proof.
  induction f1 as [|f1 IH]; intros f2 acc r H1 H2; [lia|].
  destruct f2 as [|f2]; [lia|]. cbn [collect].
  pose proof (nextInternal_plen true r) as [_ Hlt].
  destruct (nextInternal true r) as [[token|] r1]; [|reflexivity].
  cbn [fst snd] in Hlt. specialize (Hlt ltac:(eauto)).
  destruct (String.eqb token "\").
  { pose proof (peekInternal_plen false r1) as Hp. fold (peek r1) in Hp.
    destruct (peek r1) as [[next_|] r2]; cbn [snd] in Hp; [|apply IH; lia].
    destruct (String.eqb next_ EOL); [|apply IH; lia].
    pose proof (next_plen r2). apply IH; lia. }
  destruct (String.eqb token EOL); [reflexivity|]. apply IH; lia.
Qed.

Lemma nextInternal_keep tok l :
  nextInternal true (mkReader (tok :: l) None) = (Some tok, mkReader l None).
Proof.
  unfold nextInternal. cbn [pending buf scanner nextFrom negb].
  now rewrite andb_false_r.
Qed.

Lemma collect_plain l1 : forall fuel acc Y,
  forallb isPlainTok l1 = true ->
  collect (length l1 + fuel) acc (mkReader (l1 ++ Y) None)
  = collect fuel (acc ++ l1) (mkReader Y None).
Proof.
  induction l1 as [|t l1 IH]; intros fuel acc Y H.
  - now rewrite app_nil_r.
  - cbn [forallb] in H. apply andb_true_iff in H as [Ht H].
    unfold isPlainTok in Ht. apply andb_true_iff in Ht as [Ht1 Ht2].
    apply negb_true_iff in Ht1, Ht2.
    cbn [length Nat.add app collect]. rewrite nextInternal_keep, Ht2, Ht1.
    rewrite IH by exact H. now rewrite <- app_assoc.
Qed.

Lemma nextFrom_skip_eols eols t rest :
  forallb (String.eqb EOL) eols = true -> String.eqb t EOL = false ->
  nextFrom false (eols ++ t :: rest) = (Some t, rest).
Proof.
  intros He Ht. induction eols as [|e eols IH]; cbn [app nextFrom].
  - now rewrite Ht.
  - cbn [forallb] in He. apply andb_true_iff in He as [He1 He].
    rewrite String.eqb_sym in He1. rewrite He1. cbn [negb andb]. now apply IH.
Qed.

Lemma collect_backslash fuel acc eols t rest :
  forallb (String.eqb EOL) eols = true -> String.eqb t EOL = false ->
  collect (S fuel) acc (mkReader ("\" :: eols ++ t :: rest) None)
  = collect fuel acc (mkReader (t :: rest) None).
Proof.
  intros He Ht. cbn [collect]. rewrite nextInternal_keep, String.eqb_refl.
  unfold peek, peekInternal. cbn [buf]. unfold nextInternal.
  cbn [pending buf scanner]. rewrite (nextFrom_skip_eols eols t rest He Ht).
  cbn [scanner]. rewrite Ht. now apply collect_pending.
Qed.

(** X28. A backslash in the guard of an [#if] or [#elif] continues the
    line: the backslash and the line ends that follow it are skipped, and
    the guard is parsed as if the tokens of the next line stood in their
    place. Blank lines after the backslash are skipped with it. *)
Theorem line_continuation (l1 eols : list string) (t : string) rest :
  forallb isPlainTok l1 = true ->
  forallb (String.eqb EOL) eols = true ->
  t <> EOL ->
  parseExprFrom (mkReader (l1 ++ "\" :: eols ++ t :: rest) None)
  = parseExprFrom (mkReader (l1 ++ t :: rest) None).
Proof.
  intros H1 He Ht. apply String.eqb_neq in Ht. unfold parseExprFrom.
  set (f := S (S (length rest))).
  assert (E : forall Y F, (length (l1 ++ Y) < F)%nat ->
            collect F [] (mkReader (l1 ++ Y) None)
            = collect (F - length l1) l1 (mkReader Y None)).
  { intros Y F HF. rewrite length_app in HF.
    replace F with (length l1 + (F - length l1))%nat at 1 by lia.
    exact (collect_plain l1 (F - length l1) [] Y H1). }
  cbn [pending buf scanner].
  rewrite (E ("\" :: eols ++ t :: rest)) by lia.
  rewrite (E (t :: rest)) by lia.
  rewrite !length_app. cbn [length]. rewrite length_app. cbn [length].
  replace (S (length l1 + S (length eols + S (length rest))) - length l1)%nat
    with (S (S (length eols + S (length rest)))) by lia.
  rewrite (collect_backslash _ l1 eols t rest He Ht).
  rewrite (collect_fuel_irrelevant _ (S (length l1 + S (length rest)) - length l1)
             l1 (mkReader (t :: rest) None)).
  - reflexivity.
  - unfold plen. cbn. lia.
  - unfold plen. cbn. lia.
Qed.

Lemma line_continuation_witness :
  forallb isPlainTok ["defined"; "("; "A"; ")"; "&&"] = true
  /\ forallb (String.eqb EOL) [EOL; EOL] = true
  /\ "defined" <> EOL
  /\ parseExprFrom (mkReader (["defined"; "("; "A"; ")"; "&&"]
                              ++ "\" :: [EOL; EOL]
                              ++ "defined" :: ["B"; EOL; "#endif"]) None)
     = parseExprFrom (mkReader (["defined"; "("; "A"; ")"; "&&"]
                                ++ "defined" :: ["B"; EOL; "#endif"]) None).
Proof.
  split; [reflexivity|]. split; [reflexivity|]. split; [discriminate|].
  apply (line_continuation ["defined"; "("; "A"; ")"; "&&"] [EOL; EOL]
           "defined" ["B"; EOL; "#endif"]);
    [reflexivity|reflexivity|discriminate].
Defined.

(** ** Detection of the main function *)

Lemma stateAfter_snoc n : forall p,
  stateAfter (S n) p
  = match loopBody (stateAfter n p) with
    | Continue q => q
    | _ => stateAfter n p
    end.
Proof.
  induction n as [|n IH]; intros p; [reflexivity|].
  cbn [stateAfter] in *. destruct (loopBody p) as [p'| | |] eqn:E.
  - exact (IH p').
  - now rewrite E.
  - now rewrite E.
  - now rewrite E.
Qed.

(** X29. When the main loop, in any state it reaches from the start on
    whatever sequence of tokens, reads the token [main] right after the
    token [int] and an opening parenthesis follows, it sets [HasMain] and
    consumes the parenthesis; whatever [parse] then returns, with or
    without an error, has [HasMain] set. *)
Theorem int_main_sets_HasMain (toks : list string) (n : nat) r1 r2 :
  lastToken (stateAfter n (newParser toks)) = "int" ->
  next (tr (stateAfter n (newParser toks))) = (Some "main", r1) ->
  next r1 = (Some "(", r2) ->
  loopBody (stateAfter n (newParser toks))
  = Continue (mkParser r2 "main"
                (mkSourceInfo
                   (Includes (sourceInfo (stateAfter n (newParser toks)))) true)
                (conditionStack (stateAfter n (newParser toks)))
                (exprGroupStack (stateAfter n (newParser toks))))
  /\ forall si err, parse toks = Return si err -> HasMain si = true.
Proof.
  intros Hlast H1 H2. set (p := stateAfter n (newParser toks)) in *.
  assert (E : loopBody p
              = Continue (mkParser r2 "main"
                            (mkSourceInfo (Includes (sourceInfo p)) true)
                            (conditionStack p) (exprGroupStack p))).
  { unfold loopBody. rewrite H1. cbn [String.prefix]. simpl.
    rewrite H2, Hlast. reflexivity. }
  split; [exact E|]. intros si err H.
  destruct (parse_extends toks (S n) si err H) as [_ Hm]. apply Hm.
  rewrite stateAfter_snoc. fold p. rewrite E. reflexivity.
Qed.

Lemma int_main_sets_HasMain_witness :
  let toks := ["#include"; "<"; "a.h"; ">"; EOL; "int"; "main"; "("; ")"; "{"; "}";
               EOL] in
  let r1 := mkReader ["("; ")"; "{"; "}"; EOL] None in
  let r2 := mkReader [")"; "{"; "}"; EOL] None in
  lastToken (stateAfter 3 (newParser toks)) = "int"
  /\ next (tr (stateAfter 3 (newParser toks))) = (Some "main", r1)
  /\ next r1 = (Some "(", r2)
  /\ loopBody (stateAfter 3 (newParser toks))
     = Continue (mkParser r2 "main"
                   (mkSourceInfo
                      (Includes (sourceInfo (stateAfter 3 (newParser toks)))) true)
                   (conditionStack (stateAfter 3 (newParser toks)))
                   (exprGroupStack (stateAfter 3 (newParser toks))))
  /\ forall si err, parse toks = Return si err -> HasMain si = true.
Proof.
  intros toks r1 r2. split; [vm_compute; reflexivity|].
  split; [vm_compute; reflexivity|]. split; [vm_compute; reflexivity|].
  apply (int_main_sets_HasMain toks 3 r1 r2); vm_compute; reflexivity.
Defined.
